(** * Chat storage benchmark (benchmark.js): a shallow embedding

    The development follows the layout of [benchmark.js]:
    - [JSNumber]: the JavaScript numbers the harness computes with
      (durations, averages, scores), [Math.min], [Math.max] and
      [Array.prototype.sort] with a numeric comparator;
    - [MockIDB]: the in-memory [MockIndexedDB] installed as
      [global.indexedDB];
    - [Bench]: [ChatStorageBenchmark] (test data generator, the five
      timed phases, the storage statistics, the report and the
      recommendation analysis, the full run and the command-line
      driver), as computations over an explicit world: the states of the
      three store adapters, [this.results], and the events an observer
      sees (console lines, calls issued to the adapters, results
      received);
    - [MessageStore]: [deleteMessage] of a store adapter over the engine;
    - [Samples]: concrete environments, adapters and results;
    - [JSNumberFacts], [MockIDBFacts], [BenchFacts]: what the definitions
      do; [Conformance]: the properties C1 to C10 of the specification;
    - [MockIDBLaws], [PhaseLaws], [DataLaws], [ReportLaws], [RunLaws]:
      further properties X1 to X28 of the engine, of the timed phases,
      of the generated data, of the report and of the run.

    The store adapters themselves (storage/way*.js) are parameters of
    the benchmark.  Numbers are modelled without rounding: a finite
    number is a rational, next to the three special values [NaN],
    [+Infinity] and [-Infinity]; signed zeros are not distinguished.
    Comparisons, [Math.min], [Math.max] and the order a sort leaves are
    those of the source; a sum, a product or a quotient is the exact
    one, where the source's is the nearest double. *)

From Stdlib Require Import ZArith QArith Qround Lia Lqa Permutation Sorted Bool.
From stdpp Require Import base strings list gmap pretty.

Local Open Scope Z_scope.

(* ===================================================================== *)
(** * JavaScript numbers *)
(* ===================================================================== *)

Module JSNumber.

Inductive number : Type :=
| NaN
| NegInf
| Fin (q : Q)
| PosInf.

Definition zero : number := Fin 0%Q.

Definition of_nat (n : nat) : number := Fin (inject_Z (Z.of_nat n)).

Definition is_nan (a : number) : bool :=
  match a with NaN => true | _ => false end.

Definition is_finite (a : number) : bool :=
  match a with Fin _ => true | _ => false end.

(** [a + b].  The sum of two finite numbers is the exact one: the
    source's is that sum rounded to the nearest double (and an infinity
    past the largest double). *)
Definition add (a b : number) : number :=
  match a, b with
  | NaN, _ | _, NaN => NaN
  | PosInf, NegInf | NegInf, PosInf => NaN
  | PosInf, _ | _, PosInf => PosInf
  | NegInf, _ | _, NegInf => NegInf
  | Fin x, Fin y => Fin (x + y)%Q
  end.

(** [- a] *)
Definition neg (a : number) : number :=
  match a with
  | NaN => NaN
  | NegInf => PosInf
  | Fin x => Fin (- x)%Q
  | PosInf => NegInf
  end.

(** [a - b] *)
Definition sub (a b : number) : number := add a (neg b).

(** [a / b]; a zero divisor is the positive zero, the only zero the
    harness divides by (an array length).  The quotient of two finite
    numbers is the exact one: the source's is that quotient rounded to
    the nearest double. *)
Definition div (a b : number) : number :=
  match a, b with
  | NaN, _ | _, NaN => NaN
  | (PosInf | NegInf), (PosInf | NegInf) => NaN
  | PosInf, Fin y => if Qle_bool 0 y then PosInf else NegInf
  | NegInf, Fin y => if Qle_bool 0 y then NegInf else PosInf
  | Fin _, (PosInf | NegInf) => Fin 0%Q
  | Fin x, Fin y =>
      if Qeq_bool y 0 then
        match (x ?= 0)%Q with Eq => NaN | Lt => NegInf | Gt => PosInf end
      else Fin (x / y)%Q
  end.

(** [a < b]: false as soon as one side is [NaN]. *)
Definition ltb (a b : number) : bool :=
  match a, b with
  | NaN, _ | _, NaN => false
  | _, NegInf => false
  | NegInf, _ => true
  | PosInf, _ => false
  | Fin _, PosInf => true
  | Fin x, Fin y => match (x ?= y)%Q with Lt => true | _ => false end
  end.

(** [a <= b]: false as soon as one side is [NaN]. *)
Definition leb (a b : number) : bool :=
  match a, b with
  | NaN, _ | _, NaN => false
  | NegInf, _ => true
  | _, PosInf => true
  | _, NegInf => false
  | PosInf, _ => false
  | Fin x, Fin y => Qle_bool x y
  end.

(** [Math.min(...l)]: starts from [+Infinity], answers [NaN] at the first
    [NaN] argument, and otherwise keeps the smaller number. *)
Fixpoint min_from (lowest : number) (l : list number) : number :=
  match l with
  | [] => lowest
  | x :: rest =>
      if is_nan x then NaN
      else min_from (if ltb x lowest then x else lowest) rest
  end.

Definition Math_min (l : list number) : number := min_from PosInf l.

(** [Math.max(...l)]: starts from [-Infinity]. *)
Fixpoint max_from (highest : number) (l : list number) : number :=
  match l with
  | [] => highest
  | x :: rest =>
      if is_nan x then NaN
      else max_from (if ltb highest x then x else highest) rest
  end.

Definition Math_max (l : list number) : number := max_from NegInf l.

(** [l.reduce((a, b) => a + b, 0)] *)
Definition sum (l : list number) : number := fold_left add l zero.

(** ** [Array.prototype.sort(comparefn)]

    The comparator's answer is read as the language prescribes: [NaN]
    counts as [+0].  The sort is stable; it is modelled as an insertion
    sort that moves an element past its right neighbour only when the
    comparator answers a positive number for the pair. *)
Section Sort.
Context {A : Type} (comparefn : A -> A -> number).

Definition SortCompare (x y : A) : number :=
  match comparefn x y with NaN => zero | v => v end.

Definition positive (v : number) : bool := ltb zero v.

Fixpoint insert (x : A) (l : list A) : list A :=
  match l with
  | [] => [x]
  | y :: rest =>
      if positive (SortCompare x y) then y :: insert x rest
      else x :: y :: rest
  end.

Fixpoint sort (l : list A) : list A :=
  match l with
  | [] => []
  | x :: rest => insert x (sort rest)
  end.
End Sort.

(** A list without [NaN]. *)
Definition no_nan (l : list number) : Prop := Forall (fun d => is_nan d = false) l.

(** The comparator [(a, b) => f(a) - f(b)], the order it is meant to
    sort by, and the arrays whose keys are all numbers proper. *)
Section By.
Context {A : Type} (f : A -> number).

Definition minus_by (a b : A) : number := sub (f a) (f b).

Definition le_by (a b : A) : Prop := leb (f a) (f b) = true.

Definition proper (l : list A) : Prop := Forall (fun a => is_nan (f a) = false) l.
End By.

End JSNumber.

(* ===================================================================== *)
(** * The in-memory IndexedDB ([class MockIndexedDB]) *)
(* ===================================================================== *)

Module MockIDB.

(** A key is what [value[store.keyPath]] evaluates to: a string, or
    [undefined] ([None]). *)
Definition key : Type := option string.

Section Engine.
(** Stored values are JavaScript objects; [prop v p] reads the string
    property [p] of [v] ([None] when [v[p]] is [undefined]). *)
Context {V : Type} (prop : V -> string -> option string).

Record indexSpec : Type := mkIndex {
  ikeyPath : list string;
  unique : bool
}.

(** [{ name, keyPath, data: new Map(), indexes: new Map() }].  [data]
    keeps the insertion order of its keys, which [getAll] exposes. *)
Record objectStore : Type := mkStore {
  name : string;
  keyPath : option string;
  data : list (key * V);
  indexes : gmap string indexSpec
}.

(** [{ name: dbName, version: version, objectStores: new Map() }] *)
Record database : Type := mkDatabase {
  dbname : string;
  version : Z;
  objectStores : gmap string objectStore
}.

(** ** [Map] operations on [store.data] *)

Fixpoint map_get (k : key) (m : list (key * V)) : option V :=
  match m with
  | [] => None
  | (k', v) :: rest => if decide (k' = k) then Some v else map_get k rest
  end.

(** [Map.prototype.set]: an existing key keeps its position. *)
Fixpoint map_set (k : key) (v : V) (m : list (key * V)) : list (key * V) :=
  match m with
  | [] => [(k, v)]
  | (k', v') :: rest =>
      if decide (k' = k) then (k, v) :: rest else (k', v') :: map_set k v rest
  end.

(** [Map.prototype.delete]: the entry of the key, if any, is dropped
    (a [Map] holds a key at most once). *)
Definition map_delete (k : key) (m : list (key * V)) : list (key * V) :=
  List.filter (fun e => negb (bool_decide (fst e = k))) m.

Definition map_values (m : list (key * V)) : list V := map snd m.

(** ** The object-store requests (the bodies run by [setTimeout]) *)

(** [value[store.keyPath]] *)
Definition key_of (s : objectStore) (value : V) : key :=
  match keyPath s with
  | Some p => prop value p
  | None => prop value "undefined"
  end.

(** [get(key)]: [getRequest.result = store.data.get(key)] *)
Definition get (k : key) (s : objectStore) : option V := map_get k (data s).

(** [put(value)]: [store.data.set(value[store.keyPath], value)] *)
Definition put (value : V) (s : objectStore) : objectStore :=
  mkStore (name s) (keyPath s) (map_set (key_of s value) value (data s)) (indexes s).

(** [delete(key)]: [store.data.delete(key)], then [onsuccess] *)
Definition delete (k : key) (s : objectStore) : objectStore :=
  mkStore (name s) (keyPath s) (map_delete k (data s)) (indexes s).

(** [getAll()]: [Array.from(store.data.values())] *)
Definition getAll (s : objectStore) : list V := map_values (data s).

(** ** The database handle ([request.result]) *)

Definition databases : Type := gmap string database.

(** [objectStoreNames.contains(name)] *)
Definition contains (db : database) (n : string) : bool :=
  bool_decide (is_Some (objectStores db !! n)).

(** [createObjectStore(name, options)]: a fresh, empty store replaces
    whatever was registered under [name]. *)
Definition createObjectStore (n : string) (kp : option string) (db : database)
  : database :=
  mkDatabase (dbname db) (version db)
    (<[n := mkStore n kp [] ∅]> (objectStores db)).

(** [createIndex(indexName, keyPath, options)] on the store [n] *)
Definition createIndex (n iname : string) (kp : list string) (uniq : bool)
    (db : database) : database :=
  mkDatabase (dbname db) (version db)
    (alter (fun s => mkStore (name s) (keyPath s) (data s)
                       (<[iname := mkIndex kp uniq]> (indexes s)))
           n (objectStores db)).

(** [transaction(...).objectStore(name)]: [None] stands for the thrown
    [Error(`Store ${name} not found`)]. *)
Definition objectStore_of (db : database) (n : string) : option objectStore :=
  objectStores db !! n.

(** ** Sequences of requests

    The data requests a client sends to one object store, and the store
    once the engine has served them in the order sent. *)
Inductive Request : Type :=
| Put (value : V)
| Delete (k : key).

Definition serve (s : objectStore) (r : Request) : objectStore :=
  match r with
  | Put value => put value s
  | Delete k => delete k s
  end.

Definition serve_all (rs : list Request) (s : objectStore) : objectStore :=
  fold_left serve rs s.

(** The store that [createObjectStore(name, options)] registers. *)
Definition created (n : string) (kp : option string) : objectStore :=
  mkStore n kp [] ∅.

(** What [data] is for a [Map] filled by [put]: every key is held once,
    and every value is held under its own key. *)
Definition keyed (s : objectStore) : Prop :=
  NoDup (map fst (data s))
  /\ Forall (fun e => fst e = key_of s (snd e)) (data s).

(** ** [open(dbName, version)]

    The caller attaches its handlers to the returned request before the
    timer fires; a handler is a transformer of the engine's databases and
    of the caller's own state [C].  The upgrade handler receives the
    handle of the opened database, here its name. *)
Section Open.
Context {C : Type}.

Record heap : Type := mkHeap { dbs : databases; caller : C }.

Record request : Type := mkRequest {
  onupgradeneeded : option (string -> heap -> heap);
  onsuccess : option (heap -> heap)
}.

(** [if (!this.databases.has(dbName)) this.databases.set(dbName, ...)] *)
Definition ensure (dbName : string) (ver : Z) (m : databases) : databases :=
  match m !! dbName with
  | Some _ => m
  | None => <[dbName := mkDatabase dbName ver ∅]> m
  end.

Definition fire_upgrade (req : request) (dbName : string) (h : heap) : heap :=
  match onupgradeneeded req with
  | Some handler => handler dbName h
  | None => h
  end.

Definition fire_success (req : request) (h : heap) : heap :=
  match onsuccess req with
  | Some handler => handler h
  | None => h
  end.

(** The body of the timer callback of [open]. *)
Definition open (dbName : string) (ver : Z) (req : request) (h : heap) : heap :=
  let h1 := mkHeap (ensure dbName ver (dbs h)) (caller h) in
  let h2 := fire_upgrade req dbName h1 in
  fire_success req h2.
End Open.
End Engine.

End MockIDB.

(* ===================================================================== *)
(** * The benchmark ([class ChatStorageBenchmark]) *)
(* ===================================================================== *)

Module Bench.
Import JSNumber.

(** ** Data *)

(** The three storage variants, [this.way1], [this.way2], [this.way3]. *)
Inductive Way : Type := way1 | way2 | way3.

#[global] Instance Way_eq_dec : EqDecision Way.
Proof. solve_decision. Defined.

(** [['way1', 'way2', 'way3']] *)
Definition ways : list Way := [way1; way2; way3].

(** An object with one slot per variant, such as [this.results]. *)
Record PerWay (A : Type) : Type := mkPerWay { at1 : A; at2 : A; at3 : A }.
Arguments mkPerWay {A}.
Arguments at1 {A}.
Arguments at2 {A}.
Arguments at3 {A}.

Definition get_way {A} (o : PerWay A) (w : Way) : A :=
  match w with way1 => at1 o | way2 => at2 o | way3 => at3 o end.

Definition set_way {A} (o : PerWay A) (w : Way) (x : A) : PerWay A :=
  match w with
  | way1 => mkPerWay x (at2 o) (at3 o)
  | way2 => mkPerWay (at1 o) x (at3 o)
  | way3 => mkPerWay (at1 o) (at2 o) x
  end.

(** A generated message.  [timestamp] is the time value (milliseconds
    since the epoch) of the [Date] whose [toISOString()] the source
    stores. *)
Record Message : Type := mkMessage {
  id : string;
  content : string;
  sender : string;
  timestamp : Z;
  type : string
}.

(** [{ chatId, messages: chatMessages }] *)
Record Chat : Type := mkChat {
  chatId : string;
  messages : list Message
}.

(** What a timed store operation resolves to: [{ success, duration }]. *)
Record OpResult : Type := mkResult {
  success : bool;
  duration : number
}.

(** The per-operation statistics bundle. *)
Record Stats : Type := mkStats {
  average : number;
  min : number;
  max : number;
  total : number;
  count : nat
}.

(** Modelled from the spec: what [getStats()] of a store adapter
    (storage/way*.js) returns, namely counts of stores and messages and
    an approximate size. *)
Record StoreStats : Type := mkStoreStats {
  storeCount : nat;
  totalMessages : nat;
  approxSize : nat
}.

(** [this.results[way]]: the bundles by operation name, and [stats]. *)
Record WayResults : Type := mkWayResults {
  bundles : gmap string Stats;
  stats : option StoreStats
}.

(** The operations of a store adapter (the contract of storage/way*.js);
    the last two belong to the contract but [benchmark.js] has no call
    site for them. *)
Inductive Call : Type :=
| CInitialize
| CAddMessage (chat : string) (m : Message)
| CGetChatMessages (chat : string) (limit : nat)
| CEditMessage (chat : string) (msg : string) (newContent : string)
| CDeleteMessage (chat : string) (msg : string)
| CGetStats
| CClose
| CAddMessagesBulk (chat : string) (ms : list Message)
| CMessageExists (chat : string) (msg : string).

Module Store.
(** A store adapter (storage/way*.js) over its own state [St]; the
    benchmark is stated for any three adapters of this shape.  The timed
    operations never throw: they resolve to an [OpResult].
    [initialize] may reject ([None]). *)
Record Adapter (St : Type) : Type := mkAdapter {
  initialize : St -> option St;
  addMessage : St -> string -> Message -> St * OpResult;
  getChatMessages : St -> string -> nat -> St * OpResult;
  editMessage : St -> string -> string -> string -> St * OpResult;
  deleteMessage : St -> string -> string -> St * OpResult;
  getStats : St -> St * StoreStats;
  close : St -> St
}.
Arguments mkAdapter {St}.
Arguments initialize {St}.
Arguments addMessage {St}.
Arguments getChatMessages {St}.
Arguments editMessage {St}.
Arguments deleteMessage {St}.
Arguments getStats {St}.
Arguments close {St}.
End Store.

(** The outside world the harness draws from: [Math.random()],
    [Date.now()], [uuidv4()], [Number.prototype.toString(36)], and the
    order in which pending reads complete ([pick w k] chooses, among the
    reads of variant [w] still pending when [k] of them are left, the one
    that completes next). *)
Record Env : Type := mkEnv {
  random : nat -> Q;
  now : nat -> Z;
  uuidv4 : nat -> string;
  toString36 : Q -> string;
  pick : Way -> nat -> nat
}.

(** The five timed phases. *)
Inductive Phase : Type :=
| AddMessages
| ReadMessages
| EditMessages
| DeleteMessages
| ConcurrentReads.

Inductive Medal : Type := Gold | Silver | Bronze.

(** The recommendations of [analyzeResults], in the order pushed. *)
Inductive Recommendation : Type :=
| OverallBest (w : Way)
| BestReading (w : Way)
| BestAdding (w : Way)
| BestConcurrent (w : Way).

Inductive Error : Type :=
| TypeError (what : string)
| InitializeRejected (w : Way).

(** The lines written to the console, one constructor per format string
    of the source; numbers are kept as numbers ([toFixed(2)] prints
    them). *)
Inductive Line : Type :=
| LInitializing
| LInitialized
| LStarting (numChats messagesPerChat : Z)
| LBenchmarking (ph : Phase)
| LBenchmarkingConcurrent (concurrentUsers : nat)
| LTesting (w : Way)
| LAverage (w : Way) (avg : number)
| LGettingStats
| LStoreStats (w : Way) (s : StoreStats)
| LRule80
| LRule40
| LReportTitle
| LOperation (operation : string)
| LRanked (m : Medal) (w : Way) (avg lo hi : number)
| LRecommendationsTitle
| LRecommendation (index : nat) (r : Recommendation)
| LCleaningUp
| LCleanedUp
| LFailed (e : Error).

(** What an observer of a run sees, in order: console lines, and the
    calls the harness issues to the adapters with their settlements. *)
Inductive Event : Type :=
| Console (l : Line)
| Issued (w : Way) (c : Call)
| Settled (w : Way) (c : Call) (r : OpResult).

(** [['addMessage', 'readMessages', 'editMessage', 'deleteMessage',
      'concurrentReads']] *)
Definition operations : list string :=
  ["addMessage"; "readMessages"; "editMessage"; "deleteMessage";
   "concurrentReads"]%string.

(** ** Statistics *)

(** The object literal assigned to [this.results[way].<operation>]. *)
Definition bundle (durations : list number) : Stats :=
  {| average := div (sum durations) (of_nat (length durations));
     min := Math_min durations;
     max := Math_max durations;
     total := sum durations;
     count := length durations |}.

(** ** The state of a run and its effects *)

(** [this.way1 .. this.way3] (the adapters' states), [this.results],
    what has been observed so far, and how many values have been drawn
    from each source of the environment. *)
Record World (St : Type) : Type := mkWorld {
  stores : PerWay St;
  results : PerWay WayResults;
  events : list Event;
  randoms : nat;
  clocks : nat;
  uuids : nat
}.
Arguments mkWorld {St}.
Arguments stores {St}.
Arguments results {St}.
Arguments events {St}.
Arguments randoms {St}.
Arguments clocks {St}.
Arguments uuids {St}.

Inductive Outcome (A : Type) : Type :=
| Ok (a : A)
| Throw (e : Error).
Arguments Ok {A}.
Arguments Throw {A}.

(** A computation of the harness: it transforms the world and either
    returns or throws. *)
Definition M (St A : Type) : Type := World St -> Outcome A * World St.

Definition ret {St A} (a : A) : M St A := fun w => (Ok a, w).

Definition bind {St A B} (m : M St A) (k : A -> M St B) : M St B :=
  fun w => match m w with
           | (Ok a, w') => k a w'
           | (Throw e, w') => (Throw e, w')
           end.

Definition throw {St A} (e : Error) : M St A := fun w => (Throw e, w).

Declare Scope bench_scope.
Delimit Scope bench_scope with bench.
Notation "'let*' x ':=' c1 'in' c2" := (bind c1 (fun x => c2))
  (at level 10, x name, c1 at level 100, c2 at level 200) : bench_scope.
Notation "c1 ;; c2" := (bind c1 (fun _ => c2))
  (at level 100, c2 at level 200, right associativity) : bench_scope.
Local Open Scope bench_scope.

(** ** The report *)

(** [{ way, avg, min, max }] *)
Record Ranked : Type := mkRanked {
  rway : Way;
  avg : number;
  rmin : number;
  rmax : number
}.

(** The [results] array filled by the loop over the variants: one entry
    for each variant that has a bundle for [operation]. *)
Definition collect (res : PerWay WayResults) (operation : string) : list Ranked :=
  flat_map (fun way =>
              match bundles (get_way res way) !! operation with
              | Some b => [mkRanked way (average b) (min b) (max b)]
              | None => []
              end)
           ways.

(** [results.sort((a, b) => a.avg - b.avg)] *)
Definition by_average (l : list Ranked) : list Ranked :=
  sort (fun a b => sub (avg a) (avg b)) l.

(** The ranking printed for [operation]. *)
Definition ranking (res : PerWay WayResults) (operation : string) : list Ranked :=
  by_average (collect res operation).

(** [index === 0 ? gold : index === 1 ? silver : bronze] *)
Definition medal (index : nat) : Medal :=
  match index with
  | 0%nat => Gold
  | 1%nat => Silver
  | _ => Bronze
  end.

Definition ranked_line (index : nat) (r : Ranked) : Line :=
  LRanked (medal index) (rway r) (avg r) (rmin r) (rmax r).

(** [winners[op] = results[0].way]: with no entry at all, [results[0]] is
    [undefined] and reading [way] throws. *)
Definition winner_of (res : PerWay WayResults) (operation : string) : Outcome Way :=
  match ranking res operation with
  | first :: _ => Ok (rway first)
  | [] => Throw (TypeError "Cannot read properties of undefined (reading 'way')")
  end.

(** The [winners] object after the [forEach] over the operations. *)
Fixpoint winners_of (res : PerWay WayResults) (ops : list string)
    (winners : gmap string Way) : Outcome (gmap string Way) :=
  match ops with
  | [] => Ok winners
  | op :: rest =>
      match winner_of res op with
      | Ok w => winners_of res rest (<[op := w]> winners)
      | Throw e => Throw e
      end
  end.

(** [overallScores[way]]: the sum, from [0], of the averages of the
    operations recorded for [way]. *)
Definition score (res : PerWay WayResults) (way : Way) : number :=
  fold_left (fun sc op =>
               match bundles (get_way res way) !! op with
               | Some b => add sc (average b)
               | None => sc
               end)
            operations zero.

(** [Object.entries(overallScores)] *)
Definition overallScores (res : PerWay WayResults) : list (Way * number) :=
  map (fun way => (way, score res way)) ways.

(** [Object.entries(overallScores).sort((a, b) => a[1] - b[1])[0][0]] *)
Definition overallWinner (res : PerWay WayResults) : Outcome Way :=
  match sort (fun a b => sub (snd a) (snd b)) (overallScores res) with
  | first :: _ => Ok (fst first)
  | [] => Throw (TypeError "Cannot read properties of undefined (reading '0')")
  end.

(** [winners.<operation>.toUpperCase()] *)
Definition winner_named (winners : gmap string Way) (operation : string)
  : Outcome Way :=
  match winners !! operation with
  | Some w => Ok w
  | None => Throw (TypeError "Cannot read properties of undefined (reading 'toUpperCase')")
  end.

(** [analyzeResults()] *)
Definition analyzeResults (res : PerWay WayResults) : Outcome (list Recommendation) :=
  match winners_of res operations ∅ with
  | Throw e => Throw e
  | Ok winners =>
      match overallWinner res with
      | Throw e => Throw e
      | Ok overall =>
          match winner_named winners "readMessages" with
          | Throw e => Throw e
          | Ok reading =>
              match winner_named winners "addMessage" with
              | Throw e => Throw e
              | Ok adding =>
                  match winner_named winners "concurrentReads" with
                  | Throw e => Throw e
                  | Ok concurrent =>
                      Ok [OverallBest overall; BestReading reading;
                          BestAdding adding; BestConcurrent concurrent]
                  end
              end
          end
      end
  end.

Section Runner.
Context {St : Type}.
Variable env : Env.
Variable adapters : PerWay (Store.Adapter St).

Definition emit (e : Event) : M St unit :=
  fun w => (Ok tt, mkWorld (stores w) (results w) (events w ++ [e])
                           (randoms w) (clocks w) (uuids w)).

(** [console.log(...)] *)
Definition console (l : Line) : M St unit := emit (Console l).

(** [Math.random()] *)
Definition Math_random : M St Q :=
  fun w => (Ok (random env (randoms w)),
            mkWorld (stores w) (results w) (events w)
                    (S (randoms w)) (clocks w) (uuids w)).

(** [Date.now()] *)
Definition Date_now : M St Z :=
  fun w => (Ok (now env (clocks w)),
            mkWorld (stores w) (results w) (events w)
                    (randoms w) (S (clocks w)) (uuids w)).

(** [uuidv4()] *)
Definition uuid : M St string :=
  fun w => (Ok (uuidv4 env (uuids w)),
            mkWorld (stores w) (results w) (events w)
                    (randoms w) (clocks w) (S (uuids w))).

Definition get_results : M St (PerWay WayResults) := fun w => (Ok (results w), w).

(** Runs an operation of the adapter of [way] on that adapter's state. *)
Definition on_store {A} (way : Way) (op : Store.Adapter St -> St -> St * A) : M St A :=
  fun w =>
    let '(s, a) := op (get_way adapters way) (get_way (stores w) way) in
    (Ok a, mkWorld (set_way (stores w) way s) (results w) (events w)
                   (randoms w) (clocks w) (uuids w)).

(** The completion of a pending timed operation: the adapter runs it and
    the harness observes the result. *)
Definition settle (way : Way) (c : Call)
    (op : Store.Adapter St -> St -> St * OpResult) : M St OpResult :=
  let* r := on_store way op in
  emit (Settled way c r);;
  ret r.

(** [await store.op(...)]: the call is issued and the harness waits for
    its result before doing anything else. *)
Definition await_call (way : Way) (c : Call)
    (op : Store.Adapter St -> St -> St * OpResult) : M St OpResult :=
  emit (Issued way c);;
  settle way c op.

(** [this.results[way][operation] = b] *)
Definition record (way : Way) (operation : string) (b : Stats) : M St unit :=
  fun w =>
    let r := get_way (results w) way in
    (Ok tt, mkWorld (stores w)
              (set_way (results w) way
                 (mkWayResults (<[operation := b]> (bundles r)) (stats r)))
              (events w) (randoms w) (clocks w) (uuids w)).

(** [for (const x of l) body] *)
Fixpoint for_each {A} (l : list A) (body : A -> M St unit) : M St unit :=
  match l with
  | [] => ret tt
  | x :: rest => body x;; for_each rest body
  end.

(** A loop over [l] that updates a local variable of type [B]. *)
Fixpoint fold_m {A B} (body : B -> A -> M St B) (acc : B) (l : list A) : M St B :=
  match l with
  | [] => ret acc
  | x :: rest => let* acc' := body acc x in fold_m body acc' rest
  end.

(** [if (result.success) durations.push(result.duration)] *)
Definition push_if_success (durations : list number) (r : OpResult) : list number :=
  if success r then durations ++ [duration r] else durations.

(** ** [generateTestData] *)

(** [ToIntegerOrInfinity]: the time value of [new Date(x)]. *)
Definition Qtrunc (x : Q) : Z :=
  if Qle_bool 0 x then Qfloor x else Qceiling x.

(** [s.substring(n)] *)
Definition substring_from (n : nat) (s : string) : string :=
  String.substring n (String.length s - n) s.

(** The object literal pushed for message [j] of chat [i]; its
    properties are evaluated in the order written.  A [Date.now()] of
    any real clock is far inside the range of valid time values, so
    [toISOString()] does not throw.  The products [r * 5] and
    [r * 86400000] and the difference are the exact ones: the source
    rounds each to the nearest double before [Math.floor] and [new Date]
    cut it to an integer, which at a draw within one rounding step of a
    boundary gives the next sender or millisecond. *)
Definition new_message (i j : nat) : M St Message :=
  let* u := uuid in
  let* r1 := Math_random in
  let* r2 := Math_random in
  let* t := Date_now in
  let* r3 := Math_random in
  ret {| id := u;
         content := "Message " +:+ pretty (j + 1)%nat +:+ " in chat "
                    +:+ pretty (i + 1)%nat +:+ " - "
                    +:+ substring_from 7 (toString36 env r1);
         sender := "user-" +:+ pretty (Qfloor (r2 * 5) + 1);
         timestamp := Qtrunc (inject_Z t - r3 * 86400000);
         type := "text" |}.

Definition generateTestData (numChats messagesPerChat : Z) : M St (list Chat) :=
  fold_m (fun testData i =>
            let* chatMessages :=
              fold_m (fun msgs j =>
                        let* m := new_message i j in
                        ret (msgs ++ [m]))
                     [] (seq 0 (Z.to_nat messagesPerChat)) in
            ret (testData ++ [mkChat ("chat-" +:+ pretty (i + 1)%nat) chatMessages]))
         [] (seq 0 (Z.to_nat numChats)).

(** ** The timed phases *)

(** [async benchmarkAddMessages(testData)] *)
Definition benchmarkAddMessages (testData : list Chat) : M St unit :=
  console (LBenchmarking AddMessages);;
  for_each ways (fun way =>
    console (LTesting way);;
    let* durations :=
      fold_m (fun durations chat =>
        fold_m (fun durations message =>
          let* result :=
            await_call way (CAddMessage (chatId chat) message)
              (fun a s => Store.addMessage a s (chatId chat) message) in
          ret (push_if_success durations result))
        durations (messages chat))
      [] testData in
    record way "addMessage" (bundle durations);;
    console (LAverage way (average (bundle durations)))).

(** [async benchmarkReadMessages(testData)] *)
Definition benchmarkReadMessages (testData : list Chat) : M St unit :=
  console (LBenchmarking ReadMessages);;
  for_each ways (fun way =>
    console (LTesting way);;
    let* durations :=
      fold_m (fun durations chat =>
        let* result :=
          await_call way (CGetChatMessages (chatId chat) 60)
            (fun a s => Store.getChatMessages a s (chatId chat) 60%nat) in
        ret (push_if_success durations result))
      [] testData in
    record way "readMessages" (bundle durations);;
    console (LAverage way (average (bundle durations)))).

(** [`EDITED: ${message.content}`] *)
Definition edited (m : Message) : string := "EDITED: " +:+ content m.

(** [const message = messages[i]]: reading a property of [undefined]
    throws. *)
Definition message_at (ms : list Message) (i : nat) : M St Message :=
  match ms !! i with
  | Some m => ret m
  | None => throw (TypeError "Cannot read properties of undefined")
  end.

(** [async benchmarkEditMessages(testData)]: the first ten messages of
    each chat. *)
Definition benchmarkEditMessages (testData : list Chat) : M St unit :=
  console (LBenchmarking EditMessages);;
  for_each ways (fun way =>
    console (LTesting way);;
    let* durations :=
      fold_m (fun durations chat =>
        fold_m (fun durations i =>
          let* message := message_at (messages chat) i in
          let* result :=
            await_call way (CEditMessage (chatId chat) (id message) (edited message))
              (fun a s => Store.editMessage a s (chatId chat) (id message)
                            (edited message)) in
          ret (push_if_success durations result))
        durations (seq 0 (Nat.min 10 (length (messages chat)))))
      [] testData in
    record way "editMessage" (bundle durations);;
    console (LAverage way (average (bundle durations)))).

(** The indices visited by
    [for (let i = n - 1; i >= Math.max(0, n - 5); i--)]. *)
Definition last_five (n : nat) : list nat := reverse (seq (n - 5) (n - (n - 5))).

(** [async benchmarkDeleteMessages(testData)]: the last five messages of
    each chat, from the last one backwards. *)
Definition benchmarkDeleteMessages (testData : list Chat) : M St unit :=
  console (LBenchmarking DeleteMessages);;
  for_each ways (fun way =>
    console (LTesting way);;
    let* durations :=
      fold_m (fun durations chat =>
        fold_m (fun durations i =>
          let* message := message_at (messages chat) i in
          let* result :=
            await_call way (CDeleteMessage (chatId chat) (id message))
              (fun a s => Store.deleteMessage a s (chatId chat) (id message)) in
          ret (push_if_success durations result))
        durations (last_five (length (messages chat))))
      [] testData in
    record way "deleteMessage" (bundle durations);;
    console (LAverage way (average (bundle durations)))).

(** The order in which the pending requests complete: as long as some
    are pending, the environment picks one of them. *)
Fixpoint completion_order (choose : nat -> nat) (pending : list nat) (fuel : nat)
  : list nat :=
  match fuel with
  | O => []
  | S fuel' =>
      let k := (choose (length pending) mod length pending)%nat in
      match pending !! k with
      | Some i => i :: completion_order choose (delete k pending) fuel'
      | None => []
      end
  end.

(** [testData[i % testData.length].chatId]: with no chat at all the
    index is [NaN], the element [undefined], and reading [chatId]
    throws. *)
Definition chat_for (testData : list Chat) (i : nat) : M St string :=
  match testData !! (i mod length testData)%nat with
  | Some chat => ret (chatId chat)
  | None => throw (TypeError "Cannot read properties of undefined (reading 'chatId')")
  end.

(** [await Promise.all(promises)]: every issued read completes, in the
    order chosen by the environment; its [then] callback pushes the
    duration at that moment. *)
Definition gather (way : Way) (issued : list string) : M St (list number) :=
  fold_m (fun durations k =>
            match issued !! k with
            | Some chat =>
                let* result :=
                  settle way (CGetChatMessages chat 60)
                    (fun a s => Store.getChatMessages a s chat 60%nat) in
                ret (push_if_success durations result)
            | None => ret durations
            end)
         []
         (completion_order (pick env way) (seq 0 (length issued)) (length issued)).

(** [async benchmarkConcurrentReads(testData, concurrentUsers = 50)] *)
Definition benchmarkConcurrentReads (testData : list Chat) (concurrentUsers : nat)
  : M St unit :=
  console (LBenchmarkingConcurrent concurrentUsers);;
  for_each ways (fun way =>
    console (LTesting way);;
    let* promises :=
      fold_m (fun promises i =>
                let* chat := chat_for testData i in
                emit (Issued way (CGetChatMessages chat 60));;
                ret (promises ++ [chat]))
             [] (seq 0 concurrentUsers) in
    let* durations := gather way promises in
    record way "concurrentReads" (bundle durations);;
    console (LAverage way (average (bundle durations)))).

(** [this.results[way].stats = stats] *)
Definition record_stats (way : Way) (st : StoreStats) : M St unit :=
  fun w =>
    let r := get_way (results w) way in
    (Ok tt, mkWorld (stores w)
              (set_way (results w) way (mkWayResults (bundles r) (Some st)))
              (events w) (randoms w) (clocks w) (uuids w)).

(** [async getStorageStats()] *)
Definition getStorageStats : M St unit :=
  console LGettingStats;;
  for_each ways (fun way =>
    emit (Issued way CGetStats);;
    let* st := on_store way (fun a s => Store.getStats a s) in
    record_stats way st;;
    console (LStoreStats way st)).

(** ** The report, the full run and the driver *)


(** [l.forEach((x, index) => body)] *)
Definition for_each_indexed {A} (l : list A) (body : nat -> A -> M St unit) : M St unit :=
  for_each (imap (fun i x => (i, x)) l) (fun p => body (fst p) (snd p)).

Definition lift {A} (o : Outcome A) : M St A := fun w => (o, w).

(** [generateReport()] *)
Definition generateReport : M St unit :=
  console LRule80;;
  console LReportTitle;;
  console LRule80;;
  for_each operations (fun operation =>
    console (LOperation operation);;
    console LRule40;;
    let* res := get_results in
    for_each_indexed (ranking res operation)
      (fun index result => console (ranked_line index result)));;
  console LRule80;;
  console LRecommendationsTitle;;
  console LRule80;;
  let* res := get_results in
  let* recommendations := lift (analyzeResults res) in
  for_each_indexed recommendations
    (fun index rec => console (LRecommendation (index + 1) rec)).

(** [async runFullBenchmark(numChats = 10, messagesPerChat = 100)] *)
Definition runFullBenchmark (numChats messagesPerChat : Z) : M St (PerWay WayResults) :=
  console (LStarting numChats messagesPerChat);;
  let* testData := generateTestData numChats messagesPerChat in
  benchmarkAddMessages testData;;
  benchmarkReadMessages testData;;
  benchmarkEditMessages testData;;
  benchmarkDeleteMessages testData;;
  benchmarkConcurrentReads testData 50;;
  getStorageStats;;
  generateReport;;
  get_results.

(** [await this.wayN.initialize()] *)
Definition initialize_way (way : Way) : M St unit :=
  emit (Issued way CInitialize);;
  fun w =>
    match Store.initialize (get_way adapters way) (get_way (stores w) way) with
    | Some s =>
        (Ok tt, mkWorld (set_way (stores w) way s) (results w) (events w)
                        (randoms w) (clocks w) (uuids w))
    | None => (Throw (InitializeRejected way), w)
    end.

(** [async initialize()] *)
Definition initialize : M St unit :=
  console LInitializing;;
  initialize_way way1;;
  initialize_way way2;;
  initialize_way way3;;
  console LInitialized.

(** [await this.wayN.close()] *)
Definition close_way (way : Way) : M St unit :=
  emit (Issued way CClose);;
  let* _ := on_store way (fun a s => (Store.close a s, tt)) in
  ret tt.

(** [async cleanup()] *)
Definition cleanup : M St unit :=
  console LCleaningUp;;
  close_way way1;;
  close_way way2;;
  close_way way3;;
  console LCleanedUp.

(** [try { body } catch (error) { console.error(...) } finally { last }] *)
Definition try_catch_finally {A} (body : M St A) (last : M St unit) : M St unit :=
  fun w =>
    match body w with
    | (Ok _, w') => last w'
    | (Throw e, w') => (console (LFailed e);; last) w'
    end.

(** [async function run()], the command-line entry. *)
Definition run : M St unit :=
  try_catch_finally
    (initialize;; runFullBenchmark 10 100)
    cleanup.

(** The constructor's [this.results = { way1: {}, way2: {}, way3: {} }]
    over freshly constructed adapters. *)
Definition fresh (s : PerWay St) : World St :=
  mkWorld s (mkPerWay (mkWayResults ∅ None) (mkWayResults ∅ None)
                      (mkWayResults ∅ None))
          [] 0 0 0.

End Runner.

(** ** Reading a run

    What the events of a run say about one variant, and what the loops
    of the source are expected to send to it. *)

(** The calls issued to [way], in issue order. *)
Definition issued (way : Way) (evs : list Event) : list Call :=
  flat_map (fun e => match e with
                     | Issued w c => if decide (w = way) then [c] else []
                     | _ => []
                     end) evs.

(** The results the harness received from [way], in arrival order. *)
Definition settled (way : Way) (evs : list Event) : list OpResult :=
  flat_map (fun e => match e with
                     | Settled w _ r => if decide (w = way) then [r] else []
                     | _ => []
                     end) evs.

(** The operations of the adapter contract that are not single adds,
    reads, edits or deletes: bulk adds and existence checks. *)
Definition bulk_or_exists (c : Call) : bool :=
  match c with
  | CAddMessagesBulk _ _ | CMessageExists _ _ => true
  | _ => false
  end.

(** The events that concern [way]: its calls and their settlements. *)
Definition about (way : Way) (e : Event) : bool :=
  match e with
  | Console _ => false
  | Issued w _ | Settled w _ _ => bool_decide (w = way)
  end.

Definition share (way : Way) (evs : list Event) : list Event :=
  List.filter (about way) evs.

(** The durations of the successful results. *)
Definition successes (rs : list OpResult) : list number :=
  map duration (List.filter success rs).

(** What was observed between two worlds of one run. *)
Definition observed {St} (before after : World St) : list Event :=
  drop (length (events before)) (events after).

(** The stages of a run, as announced on the console. *)
Inductive Stage : Type :=
| SInitialize
| SPhase (ph : Phase)
| SStats
| SReport
| SCleanup.

Definition stage_of (e : Event) : list Stage :=
  match e with
  | Console LInitializing => [SInitialize]
  | Console (LBenchmarking ph) => [SPhase ph]
  | Console (LBenchmarkingConcurrent _) => [SPhase ConcurrentReads]
  | Console LGettingStats => [SStats]
  | Console LReportTitle => [SReport]
  | Console LCleaningUp => [SCleanup]
  | _ => []
  end.

(** The stages a list of events goes through, in order. *)
Definition stages (evs : list Event) : list Stage := flat_map stage_of evs.

(** The averages recorded for [way], in the order of [operations]. *)
Definition averages_of (res : PerWay WayResults) (way : Way) : list number :=
  omap (fun op => average <$> bundles (get_way res way) !! op) operations.

(** The entry of the ranking made from the bundle [b] of [way]. *)
Definition entry (way : Way) (b : Stats) : Ranked :=
  mkRanked way (average b) (min b) (max b).

(** The lines of the report up to the recommendations. *)
Definition operation_lines (res : PerWay WayResults) (operation : string) : list Line :=
  [LOperation operation; LRule40] ++ imap ranked_line (ranking res operation).

Definition report_lines (res : PerWay WayResults) : list Line :=
  [LRule80; LReportTitle; LRule80]
  ++ flat_map (operation_lines res) operations
  ++ [LRule80; LRecommendationsTitle; LRule80].

Definition recommendation_lines (recs : list Recommendation) : list Line :=
  imap (fun index rec => LRecommendation (index + 1) rec) recs.

(** [user-1] .. [user-5] *)
Definition senders : list string :=
  ["user-1"; "user-2"; "user-3"; "user-4"; "user-5"]%string.

(** Milliseconds in 24 hours. *)
Definition day : Z := 86400000.

(** [Math.random()] answers a number in [[0, 1)]. *)
Definition unit_interval (env : Env) : Prop :=
  forall k, (0 <= random env k)%Q /\ (random env k < 1)%Q.

(** The message was generated at one of the clock readings [lo .. hi - 1]
    of the environment: its sender is one of the five, its timestamp
    lies in the 24 hours up to that reading, and its type is [text]. *)
Definition generated (env : Env) (lo hi : nat) (m : Message) : Prop :=
  In (sender m) senders
  /\ type m = "text"%string
  /\ exists k, (lo <= k < hi)%nat
              /\ now env k - day <= timestamp m <= now env k.

(** Between [before] and [after] nothing reached an adapter, the
    results or an observer. *)
Definition untouched {St} (before after : World St) : Prop :=
  stores after = stores before
  /\ results after = results before
  /\ events after = events before.

Definition operation_of (ph : Phase) : string :=
  match ph with
  | AddMessages => "addMessage"
  | ReadMessages => "readMessages"
  | EditMessages => "editMessage"
  | DeleteMessages => "deleteMessage"
  | ConcurrentReads => "concurrentReads"
  end.

Definition add_calls (testData : list Chat) : list Call :=
  flat_map (fun chat => map (CAddMessage (chatId chat)) (messages chat)) testData.

Definition read_calls (testData : list Chat) : list Call :=
  map (fun chat => CGetChatMessages (chatId chat) 60) testData.

Definition edit_call (chat : Chat) (m : Message) : Call :=
  CEditMessage (chatId chat) (id m) (edited m).

Definition edit_calls (testData : list Chat) : list Call :=
  flat_map (fun chat => map (edit_call chat) (take 10 (messages chat))) testData.

Definition delete_call (chat : Chat) (m : Message) : Call :=
  CDeleteMessage (chatId chat) (id m).

Definition delete_calls (testData : list Chat) : list Call :=
  flat_map (fun chat => map (delete_call chat) (take 5 (reverse (messages chat))))
           testData.

(** The chat read by the [i]-th concurrent user. *)
Definition chats_round_robin (testData : list Chat) (n : nat) : list string :=
  flat_map (fun i => match testData !! (i mod length testData)%nat with
                     | Some chat => [chatId chat]
                     | None => []
                     end) (seq 0 n).

Definition read_call (chat : string) : Call := CGetChatMessages chat 60.

Definition concurrent_calls (testData : list Chat) (n : nat) : list Call :=
  map read_call (chats_round_robin testData n).

Definition calls_of (concurrentUsers : nat) (ph : Phase) (testData : list Chat)
  : list Call :=
  match ph with
  | AddMessages => add_calls testData
  | ReadMessages => read_calls testData
  | EditMessages => edit_calls testData
  | DeleteMessages => delete_calls testData
  | ConcurrentReads => concurrent_calls testData concurrentUsers
  end.

(** The position of a variant in [['way1', 'way2', 'way3']]. *)
Definition way_index (w : Way) : nat :=
  match w with way1 => 0%nat | way2 => 1%nat | way3 => 2%nat end.

(** [a] is listed ahead of [b] by a stable ascending sort on the keys
    [f] of an array whose elements stood in the order of [i]: its key is
    smaller, or it is not greater and [a] stood before [b]. *)
Definition ahead {A} (f : A -> number) (i : A -> nat) (a b : A) : Prop :=
  ltb (f a) (f b) = true \/ (leb (f a) (f b) = true /\ (i a < i b)%nat).

(** The variants that have a bundle for [operation]. *)
Definition recorded (res : PerWay WayResults) (operation : string) : list Way :=
  List.filter (fun way => bool_decide (is_Some (bundles (get_way res way) !! operation)))
              ways.

(** Whether a call is a read of the chat [chat]. *)
Definition reads (chat : string) (c : Call) : bool :=
  match c with
  | CGetChatMessages chat' _ => bool_decide (chat' = chat)
  | _ => false
  end.

(** The events that are not console lines. *)
Definition traffic (evs : list Event) : list Event :=
  List.filter (fun e => match e with Console _ => false | _ => true end) evs.

(** The console lines, in the order printed. *)
Definition printed (evs : list Event) : list Line :=
  flat_map (fun e => match e with Console l => [l] | _ => [] end) evs.

(** The number of calls a phase sends to each variant when every chat
    holds [m] messages. *)
Definition calls_in (concurrentUsers : nat) (ph : Phase) (chats m : nat) : nat :=
  match ph with
  | AddMessages => (chats * m)%nat
  | ReadMessages => chats
  | EditMessages => (chats * Nat.min 10 m)%nat
  | DeleteMessages => (chats * Nat.min 5 m)%nat
  | ConcurrentReads => concurrentUsers
  end.

(** The stages of a whole run, in order. *)
Definition nine_stages : list Stage :=
  [SInitialize; SPhase AddMessages; SPhase ReadMessages; SPhase EditMessages;
   SPhase DeleteMessages; SPhase ConcurrentReads; SStats; SReport; SCleanup].

(** The calls a whole run over [testData] sends to a variant. *)
Definition calls_of_run (testData : list Chat) : list Call :=
  [CInitialize] ++ add_calls testData ++ read_calls testData
  ++ edit_calls testData ++ delete_calls testData
  ++ concurrent_calls testData 50 ++ [CGetStats; CClose].

Section Reading.
Context {St : Type}.
Variable env : Env.
Variable adapters : PerWay (Store.Adapter St).

(** The adapter operation behind a timed call. *)
Definition perform (a : Store.Adapter St) (c : Call) (s : St) : St * OpResult :=
  match c with
  | CAddMessage chat m => Store.addMessage a s chat m
  | CGetChatMessages chat limit => Store.getChatMessages a s chat limit
  | CEditMessage chat msg newContent => Store.editMessage a s chat msg newContent
  | CDeleteMessage chat msg => Store.deleteMessage a s chat msg
  | _ => (s, mkResult false zero)
  end.

(** The adapter running a list of calls one after the other. *)
Fixpoint run_calls (a : Store.Adapter St) (cs : list Call) (s : St)
  : St * list OpResult :=
  match cs with
  | [] => (s, [])
  | c :: rest =>
      let '(s1, r) := perform a c s in
      let '(s2, rs) := run_calls a rest s1 in
      (s2, r :: rs)
  end.

(** The world once [evs] more has been observed. *)
Definition seen (w : World St) (evs : list Event) : World St :=
  mkWorld (stores w) (results w) (events w ++ evs)
          (randoms w) (clocks w) (uuids w).

(** From [w] to [w'] the run went through the stages [st] and issued
    the calls [calls] to every variant. *)
Definition went (w w' : World St) (st : list Stage) (calls : list Call) : Prop :=
  exists new, events w' = events w ++ new
    /\ stages new = st
    /\ forall way, issued way new = calls.

(** The events of calls awaited one after the other. *)
Definition awaited (way : Way) (cs : list Call) (rs : list OpResult) : list Event :=
  flat_map (fun cr => [Issued way (fst cr); Settled way (fst cr) (snd cr)])
           (zip cs rs).

(** The events of calls issued together and completed later, in the
    order [done] of their positions. *)
Definition gathered (way : Way) (cs : list Call) (done : list Call)
    (rs : list OpResult) : list Event :=
  map (Issued way) cs
  ++ map (fun cr => Settled way (fst cr) (snd cr)) (zip done rs).

(** The world after [way] went through one phase: the adapter has run
    the calls [done] in that order, the bundle of the successful
    durations is recorded under [operation], and [evs] was observed
    between the two console lines of the variant. *)
Definition after_way (operation : string) (done : list Call)
    (evs : list OpResult -> list Event) (way : Way) (w : World St) : World St :=
  let out := run_calls (get_way adapters way) done (get_way (stores w) way) in
  let b := bundle (successes (snd out)) in
  let r := get_way (results w) way in
  mkWorld (set_way (stores w) way (fst out))
          (set_way (results w) way
             (mkWayResults (<[operation := b]> (bundles r)) (stats r)))
          (events w ++ [Console (LTesting way)] ++ evs (snd out)
                    ++ [Console (LAverage way (average b))])
          (randoms w) (clocks w) (uuids w).

(** The world after a phase: its header line, then the three variants
    in turn. *)
Definition after_phase (header : Line) (operation : string)
    (done : Way -> list Call) (evs : Way -> list OpResult -> list Event)
    (w : World St) : World St :=
  fold_left (fun w way => after_way operation (done way) (evs way) way w) ways
    (mkWorld (stores w) (results w) (events w ++ [Console header])
             (randoms w) (clocks w) (uuids w)).

(** The elements of [l] at the positions [positions], skipping
    positions outside of [l]. *)
Definition at_positions {A} (l : list A) (positions : list nat) : list A :=
  omap (fun k => l !! k) positions.

(** The order in which the [n] concurrent reads of [way] complete. *)
Definition completions (way : Way) (n : nat) : list nat :=
  completion_order (pick env way) (seq 0 n) n.

(** The calls the adapter of [way] runs in phase [ph], in the order in
    which it runs them. *)
Definition served (n : nat) (ph : Phase) (testData : list Chat) (way : Way)
  : list Call :=
  match ph with
  | ConcurrentReads =>
      at_positions (concurrent_calls testData n)
                   (completions way (length (concurrent_calls testData n)))
  | _ => calls_of n ph testData
  end.

(** The console line that opens the phase [ph]. *)
Definition header_of (concurrentUsers : nat) (ph : Phase) : Line :=
  match ph with
  | ConcurrentReads => LBenchmarkingConcurrent concurrentUsers
  | _ => LBenchmarking ph
  end.

(** The events between the harness and [way] in phase [ph], given the
    results [rs] in the order in which the adapter produced them: calls
    awaited one by one or, in the concurrent phase, issued together and
    gathered. *)
Definition exchange (n : nat) (ph : Phase) (testData : list Chat) (way : Way)
    (rs : list OpResult) : list Event :=
  match ph with
  | ConcurrentReads =>
      gathered way (calls_of n ph testData) (served n ph testData way) rs
  | _ => awaited way (calls_of n ph testData) rs
  end.

(** The phase [ph] of the source. *)
Definition benchmark (concurrentUsers : nat) (ph : Phase) (testData : list Chat)
  : M St unit :=
  match ph with
  | AddMessages => benchmarkAddMessages adapters testData
  | ReadMessages => benchmarkReadMessages adapters testData
  | EditMessages => benchmarkEditMessages adapters testData
  | DeleteMessages => benchmarkDeleteMessages adapters testData
  | ConcurrentReads => benchmarkConcurrentReads env adapters testData concurrentUsers
  end.

End Reading.

End Bench.

(* ===================================================================== *)
(** * A store adapter over the engine *)
(* ===================================================================== *)

Module MessageStore.
Import JSNumber Bench.

(** [String(n).padStart(width, '0')] for a number [n] that is not
    negative. *)
Definition padded (width : nat) (n : Z) : string :=
  let digits := pretty n in
  String.concat "" (replicate (width - String.length digits) "0"%string) +:+ digits.

(** [new Date(t).toISOString()] for a valid time value [t]:
    [YYYY-MM-DDTHH:mm:ss.sssZ] in UTC, the year written with a sign and
    six digits outside 0 .. 9999.  The date of a day number is computed
    by 400-year eras that begin on a first of March. *)
Definition toISOString (t : Z) : string :=
  let ms := t mod 86400000 in
  let z := t / 86400000 + 719468 in
  let era := z / 146097 in
  let doe := z mod 146097 in
  let yoe := (doe - doe / 1460 + doe / 36524 - doe / 146096) / 365 in
  let doy := doe - (365 * yoe + yoe / 4 - yoe / 100) in
  let mp := (5 * doy + 2) / 153 in
  let d := doy - (153 * mp + 2) / 5 + 1 in
  let m := if mp <? 10 then mp + 3 else mp - 9 in
  let y := yoe + era * 400 + (if m <=? 2 then 1 else 0) in
  let year := if (0 <=? y) && (y <=? 9999) then padded 4 y
              else (if y <? 0 then "-"%string else "+"%string) +:+ padded 6 (Z.abs y) in
  year +:+ "-" +:+ padded 2 m +:+ "-" +:+ padded 2 d
  +:+ "T" +:+ padded 2 (ms / 3600000)
  +:+ ":" +:+ padded 2 (ms / 60000 mod 60)
  +:+ ":" +:+ padded 2 (ms / 1000 mod 60)
  +:+ "." +:+ padded 3 (ms mod 1000) +:+ "Z".

(** [message[p]]: the five properties of a message are strings, the
    time stamp in the form [toISOString()] gave it. *)
Definition prop (m : Message) (p : string) : option string :=
  if decide (p = "id"%string) then Some (id m)
  else if decide (p = "content"%string) then Some (content m)
  else if decide (p = "sender"%string) then Some (sender m)
  else if decide (p = "timestamp"%string) then Some (toISOString (timestamp m))
  else if decide (p = "type"%string) then Some (type m)
  else None.

(** Modelled from the spec: [deleteMessage(chatId, messageId)] of a store
    adapter (storage/way*.js).  The spec asks that it "removes the
    message; no-op (not an error) if already absent".  The adapter keeps the messages in an
    object store of the engine keyed by message identifier (identifiers
    are globally unique); removing is the engine's [delete] request, and
    the timing wrapper reports its completion as a success that took
    [elapsed] milliseconds. *)
Definition deleteMessage (elapsed : number) (chatId messageId : string)
    (s : MockIDB.objectStore (V := Message)) : MockIDB.objectStore * OpResult :=
  (MockIDB.delete (Some messageId) s, mkResult true elapsed).

(** The object store the adapter creates: [{ keyPath: 'id' }]. *)
Definition empty : MockIDB.objectStore (V := Message) :=
  MockIDB.mkStore "messages" (Some "id"%string) [] ∅.

End MessageStore.

(* ===================================================================== *)
(** * Sample environments, adapters and results *)
(* ===================================================================== *)

Module Samples.
Import JSNumber Bench.

(** An environment: every random draw is [1/2], the clock advances by one
    millisecond per reading, and pending reads complete last-issued
    first. *)
Definition env_lifo : Env :=
  {| random := fun _ => (1 # 2)%Q;
     now := fun k => 1700000000000 + Z.of_nat k;
     uuidv4 := fun k => "uuid-" +:+ pretty k;
     toString36 := fun _ => "0.i";
     pick := fun _ pending => (pending - 1)%nat |}.

(** The same environment with reads completing in issue order. *)
Definition env_fifo : Env :=
  {| random := random env_lifo;
     now := now env_lifo;
     uuidv4 := uuidv4 env_lifo;
     toString36 := toString36 env_lifo;
     pick := fun _ _ => 0%nat |}.

(** An adapter that only counts its calls: call number [k] takes [k]
    milliseconds and fails when [fails k]. *)
Definition counting (fails : nat -> bool) : Store.Adapter nat :=
  let timed := fun k : nat => (S k, mkResult (negb (fails k)) (of_nat k)) in
  {| Store.initialize := fun k => Some k;
     Store.addMessage := fun k _ _ => timed k;
     Store.getChatMessages := fun k _ _ => timed k;
     Store.editMessage := fun k _ _ _ => timed k;
     Store.deleteMessage := fun k _ _ => timed k;
     Store.getStats := fun k => (k, mkStoreStats 1 k 0);
     Store.close := fun k => k |}.

(** An adapter whose reads of [chat-1] take one millisecond and all
    other reads two. *)
Definition by_chat : Store.Adapter nat :=
  let timed := fun k : nat => (S k, mkResult true (of_nat k)) in
  {| Store.initialize := fun k => Some k;
     Store.addMessage := fun k _ _ => timed k;
     Store.getChatMessages := fun k chat _ =>
       (S k, mkResult true (if decide (chat = "chat-1"%string)
                            then of_nat 1 else of_nat 2));
     Store.editMessage := fun k _ _ _ => timed k;
     Store.deleteMessage := fun k _ _ => timed k;
     Store.getStats := fun k => (k, mkStoreStats 1 k 0);
     Store.close := fun k => k |}.

Definition never (k : nat) : bool := false.
Definition always (k : nat) : bool := true.
Definition odd_calls (k : nat) : bool := Nat.odd k.

(** An adapter whose backing store cannot be opened. *)
Definition unavailable : Store.Adapter nat :=
  {| Store.initialize := fun _ => None;
     Store.addMessage := Store.addMessage (counting never);
     Store.getChatMessages := Store.getChatMessages (counting never);
     Store.editMessage := Store.editMessage (counting never);
     Store.deleteMessage := Store.deleteMessage (counting never);
     Store.getStats := Store.getStats (counting never);
     Store.close := Store.close (counting never) |}.

(** An adapter every timed call of which takes [ms] milliseconds and
    answers [{ success: ok }]. *)
Definition steady (ms : nat) (ok : bool) : Store.Adapter nat :=
  let timed := fun k : nat => (S k, mkResult ok (of_nat ms)) in
  {| Store.initialize := fun k => Some k;
     Store.addMessage := fun k _ _ => timed k;
     Store.getChatMessages := fun k _ _ => timed k;
     Store.editMessage := fun k _ _ _ => timed k;
     Store.deleteMessage := fun k _ _ => timed k;
     Store.getStats := fun k => (k, mkStoreStats 1 k 0);
     Store.close := fun k => k |}.

(** The calls of the first variant take two milliseconds and those of
    the third one; the second variant answers every call with a
    failure. *)
Definition second_never_succeeds : PerWay (Store.Adapter nat) :=
  mkPerWay (steady 2 true) (steady 2 false) (steady 1 true).

(** Three adapters that never fail. *)
Definition sound : PerWay (Store.Adapter nat) :=
  mkPerWay (counting never) (counting never) (counting never).

(** The second variant fails every call, the third every other call. *)
Definition flaky : PerWay (Store.Adapter nat) :=
  mkPerWay (counting never) (counting always) (counting odd_calls).

Definition by_chats : PerWay (Store.Adapter nat) := mkPerWay by_chat by_chat by_chat.

(** The second variant cannot be opened. *)
Definition second_unavailable : PerWay (Store.Adapter nat) :=
  mkPerWay (counting never) unavailable (counting never).

Definition start : World nat := fresh (mkPerWay 0%nat 0%nat 0%nat).

Definition message (n : nat) : Message :=
  mkMessage ("m" +:+ pretty n) "hello" "user-1" 1700000000000 "text".

(** Two chats of three and one messages. *)
Definition two_chats : list Chat :=
  [mkChat "chat-1" [message 1; message 2; message 3];
   mkChat "chat-2" [message 4]].

Definition only (operation : string) (b : Stats) : WayResults :=
  mkWayResults {[ operation := b ]} None.

Definition everywhere (b : Stats) : WayResults :=
  mkWayResults (list_to_map (map (fun op => (op, b)) operations)) None.

(** Results in which the second variant never succeeded, while the
    calls of the first took two milliseconds and those of the third
    one. *)
Definition one_variant_failed : PerWay WayResults :=
  mkPerWay (everywhere (bundle [of_nat 2]))
           (everywhere (bundle []))
           (everywhere (bundle [of_nat 1])).

(** Results with three proper averages for every operation. *)
Definition all_succeeded : PerWay WayResults :=
  mkPerWay (everywhere (bundle [of_nat 3]))
           (everywhere (bundle [of_nat 1; of_nat 2]))
           (everywhere (bundle [of_nat 2])).

(** A store holding the messages 1, 2 and 3. *)
Definition three_messages : MockIDB.objectStore (V := Message) :=
  MockIDB.put MessageStore.prop (message 3)
    (MockIDB.put MessageStore.prop (message 2)
       (MockIDB.put MessageStore.prop (message 1) MessageStore.empty)).

(** The message [n] with another content. *)
Definition rewritten (n : nat) : Message :=
  mkMessage ("m" +:+ pretty n) "EDITED: hello" "user-1" 1700000000000 "text".

(** An engine whose database [chat-db] holds the three messages in its
    store [messages]. *)
Definition stocked : MockIDB.heap (V := Message) (C := nat) :=
  MockIDB.mkHeap
    {[ "chat-db"%string :=
         MockIDB.mkDatabase "chat-db" 1 {[ "messages"%string := three_messages ]} ]}
    0%nat.

(** Results with the same average for every variant and operation. *)
Definition all_tied : PerWay WayResults :=
  mkPerWay (everywhere (bundle [of_nat 2]))
           (everywhere (bundle [of_nat 2]))
           (everywhere (bundle [of_nat 2])).

(** One chat of twelve messages. *)
Definition long_chat : list Chat :=
  [mkChat "chat-1" (map message (seq 1 12))].

(** Results in which the first and the third variant share the least
    average. *)
Definition first_and_third_tied : PerWay WayResults :=
  mkPerWay (everywhere (bundle [of_nat 1]))
           (everywhere (bundle [of_nat 2]))
           (everywhere (bundle [of_nat 1])).


(** A caller of [indexedDB.open] that counts how often its upgrade
    handler runs, and creates its store there. *)
Definition counting_upgrades : MockIDB.request (V := Message) (C := nat) :=
  {| MockIDB.onupgradeneeded :=
       Some (fun dbName h =>
               MockIDB.mkHeap
                 (alter (MockIDB.createObjectStore "messages" (Some "id"%string))
                        dbName (MockIDB.dbs h))
                 (S (MockIDB.caller h)));
     MockIDB.onsuccess := None |}.

Definition no_database : MockIDB.heap (V := Message) (C := nat) :=
  MockIDB.mkHeap ∅ 0%nat.

End Samples.

(* ===================================================================== *)
(** * Facts about numbers, [Math.min], [Math.max] and [sort] *)
(* ===================================================================== *)

Module JSNumberFacts.
Import JSNumber.

Lemma ltb_Fin (x y : Q) : ltb (Fin x) (Fin y) = true <-> (x < y)%Q.
Proof.
  cbn [ltb]. rewrite Qlt_alt. destruct (x ?= y)%Q; split; congruence.
Qed.

Lemma leb_Fin (x y : Q) : leb (Fin x) (Fin y) = true <-> (x <= y)%Q.
Proof. cbn [leb]. apply Qle_bool_iff. Qed.

Lemma leb_refl (a : number) : is_nan a = false -> leb a a = true.
Proof.
  destruct a; cbn [leb is_nan]; try easy. intros _. apply Qle_bool_iff, Qle_refl.
Qed.

Lemma leb_not_nan_l (a b : number) : leb a b = true -> is_nan a = false.
Proof. destruct a, b; cbn [leb is_nan]; congruence. Qed.


Lemma ltb_leb (a b : number) : ltb a b = true -> leb a b = true.
Proof.
  destruct a as [| |x|], b as [| |y|]; try easy.
  rewrite ltb_Fin, leb_Fin. apply Qlt_le_weak.
Qed.

Lemma leb_trans (a b c : number) :
  leb a b = true -> leb b c = true -> leb a c = true.
Proof.
  destruct a, b, c; try easy.
  rewrite !leb_Fin. apply Qle_trans.
Qed.

(** The order is total on numbers proper. *)
Lemma not_ltb_leb (a b : number) :
  is_nan a = false -> is_nan b = false -> ltb a b = false -> leb b a = true.
Proof.
  destruct a as [| |x|], b as [| |y|]; try easy. intros _ _ H.
  apply leb_Fin, Qnot_lt_le. intros Hlt.
  apply ltb_Fin in Hlt. congruence.
Qed.

Lemma min_from_spec (l : list number) : forall lowest,
  no_nan l -> is_nan lowest = false ->
  leb (min_from lowest l) lowest = true
  /\ Forall (fun d => leb (min_from lowest l) d = true) l
  /\ (min_from lowest l = lowest \/ In (min_from lowest l) l).
Proof.
  induction l as [|x rest IH]; intros lowest Hl Hlow; simpl.
  - split; [now apply leb_refl|]. split; [constructor | now left].
  - inversion Hl as [|? ? Hx Hrest]; subst. rewrite Hx.
    destruct (ltb x lowest) eqn:E.
    + destruct (IH x Hrest Hx) as (H1 & H2 & H3).
      split; [eapply leb_trans; [exact H1 | now apply ltb_leb]|].
      split; [constructor; assumption|].
      destruct H3 as [-> | H3]; right; [now left | now right].
    + destruct (IH lowest Hrest Hlow) as (H1 & H2 & H3).
      split; [assumption|].
      split.
      * constructor; [|assumption].
        eapply leb_trans; [exact H1 | now apply not_ltb_leb].
      * destruct H3 as [-> | H3]; [now left | right; now right].
Qed.

Lemma max_from_spec (l : list number) : forall highest,
  no_nan l -> is_nan highest = false ->
  leb highest (max_from highest l) = true
  /\ Forall (fun d => leb d (max_from highest l) = true) l
  /\ (max_from highest l = highest \/ In (max_from highest l) l).
Proof.
  induction l as [|x rest IH]; intros highest Hl Hhigh; simpl.
  - split; [now apply leb_refl|]. split; [constructor | now left].
  - inversion Hl as [|? ? Hx Hrest]; subst. rewrite Hx.
    destruct (ltb highest x) eqn:E.
    + destruct (IH x Hrest Hx) as (H1 & H2 & H3).
      split; [eapply leb_trans; [apply ltb_leb; exact E | exact H1]|].
      split; [constructor; assumption|].
      destruct H3 as [-> | H3]; right; [now left | now right].
    + destruct (IH highest Hrest Hhigh) as (H1 & H2 & H3).
      split; [assumption|].
      split.
      * constructor; [|assumption].
        eapply leb_trans; [apply not_ltb_leb; [exact Hhigh | exact Hx | exact E] | exact H1].
      * destruct H3 as [-> | H3]; [now left | right; now right].
Qed.

(** [Math.min] of a list of numbers proper bounds the list from below
    and, unless the list is empty, is one of its elements. *)
Lemma Math_min_spec (l : list number) :
  no_nan l ->
  Forall (fun d => leb (Math_min l) d = true) l
  /\ (l <> [] -> In (Math_min l) l).
Proof.
  intros Hl. destruct (min_from_spec l PosInf Hl eq_refl) as (H1 & H2 & H3).
  split; [exact H2|]. intros Hne.
  destruct H3 as [H3 | H3]; [|exact H3].
  unfold Math_min. rewrite H3.
  destruct l as [|x rest]; [congruence|].
  inversion H2 as [|? ? Hx _]; subst. fold (Math_min (x :: rest)) in Hx.
  unfold Math_min in Hx. rewrite H3 in Hx.
  destruct x; try discriminate. now left.
Qed.

Lemma Math_max_spec (l : list number) :
  no_nan l ->
  Forall (fun d => leb d (Math_max l) = true) l
  /\ (l <> [] -> In (Math_max l) l).
Proof.
  intros Hl. destruct (max_from_spec l NegInf Hl eq_refl) as (H1 & H2 & H3).
  split; [exact H2|]. intros Hne.
  destruct H3 as [H3 | H3]; [|exact H3].
  unfold Math_max. rewrite H3.
  destruct l as [|x rest]; [congruence|].
  inversion H2 as [|? ? Hx _]; subst. fold (Math_max (x :: rest)) in Hx.
  unfold Math_max in Hx. rewrite H3 in Hx.
  destruct x; try discriminate. now left.
Qed.

(** ** Sorting with [(a, b) => f(a) - f(b)] *)

Section SortBy.
Context {A : Type} (f : A -> number).

Lemma insert_perm (cmp : A -> A -> number) (x : A) (l : list A) :
  Permutation (insert cmp x l) (x :: l).
Proof.
  induction l as [|y rest IH]; simpl; [reflexivity|].
  destruct (positive (SortCompare cmp x y)); [|reflexivity].
  rewrite IH. apply perm_swap.
Qed.

Lemma sort_perm (cmp : A -> A -> number) (l : list A) :
  Permutation (sort cmp l) l.
Proof.
  induction l as [|x rest IH]; simpl; [reflexivity|].
  rewrite insert_perm. now apply perm_skip.
Qed.

(** On numbers proper the comparator answers a positive number exactly
    when its first argument is the greater one. *)
Lemma positive_minus (x y : A) :
  is_nan (f x) = false -> is_nan (f y) = false ->
  positive (SortCompare (minus_by f) x y) = ltb (f y) (f x).
Proof.
  unfold positive, SortCompare, minus_by, sub, zero.
  destruct (f x) as [| |a|], (f y) as [| |b|]; try easy.
  intros _ _. cbn [neg add].
  destruct (ltb (Fin b) (Fin a)) eqn:E.
  - apply ltb_Fin in E. apply ltb_Fin.
    apply (Qplus_lt_l _ _ b). ring_simplify. exact E.
  - destruct (ltb (Fin 0) (Fin (a + - b))) eqn:E'; [|reflexivity].
    apply ltb_Fin in E'. apply (Qplus_lt_l _ _ b) in E'. ring_simplify in E'.
    apply ltb_Fin in E'. congruence.
Qed.

Lemma insert_sorted (x : A) (l : list A) :
  is_nan (f x) = false -> proper f l ->
  StronglySorted (le_by f) l -> StronglySorted (le_by f) (insert (minus_by f) x l).
Proof.
  intros Hx Hl Hs. induction Hs as [|y rest Hs IH Hy]; simpl.
  - repeat constructor.
  - inversion Hl as [|? ? Hny Hrest]; subst.
    rewrite positive_minus by assumption.
    destruct (ltb (f y) (f x)) eqn:E.
    + constructor; [now apply IH|].
      rewrite (insert_perm (minus_by f) x rest).
      constructor; [now apply ltb_leb | exact Hy].
    + assert (Hxy : le_by f x y) by now apply not_ltb_leb.
      constructor; [now constructor|].
      constructor; [exact Hxy|].
      eapply Forall_impl; [exact Hy|].
      intros z Hz. eapply leb_trans; [exact Hxy | exact Hz].
Qed.

Lemma sort_proper (l : list A) : proper f l -> proper f (sort (minus_by f) l).
Proof.
  intros H. unfold proper. now rewrite (sort_perm (minus_by f) l).
Qed.

(** With numbers proper as keys, the sorted array is ascending. *)
Lemma sort_sorted (l : list A) :
  proper f l -> StronglySorted (le_by f) (sort (minus_by f) l).
Proof.
  induction l as [|x rest IH]; intros Hl; simpl; [constructor|].
  inversion Hl; subst.
  apply insert_sorted; [assumption | now apply sort_proper | now apply IH].
Qed.

(** Its first element is a least one. *)
Lemma sort_head_least (l : list A) (first : A) (others : list A) :
  proper f l -> sort (minus_by f) l = first :: others ->
  forall a, In a l -> le_by f first a.
Proof.
  intros Hl Hsort a Ha.
  pose proof (sort_sorted l Hl) as Hs. rewrite Hsort in Hs.
  assert (Hin : In a (first :: others)).
  { rewrite <- Hsort. eapply Permutation_in; [|exact Ha].
    symmetry. apply sort_perm. }
  pose proof (sort_proper l Hl) as Hp. rewrite Hsort in Hp.
  apply StronglySorted_inv in Hs. destruct Hs as [_ Hall].
  destruct Hin as [<- | Hin].
  - apply leb_refl. now inversion Hp.
  - rewrite List.Forall_forall in Hall. now apply Hall.
Qed.

End SortBy.

End JSNumberFacts.

(* ===================================================================== *)
(** * Facts about the in-memory IndexedDB *)
(* ===================================================================== *)

Module MockIDBFacts.
Import MockIDB.

Section Engine.
Context {V : Type} (prop : V -> string -> option string).

Lemma map_delete_twice (k : key) (m : list (key * V)) :
  map_delete k (map_delete k m) = map_delete k m.
Proof.
  unfold map_delete. induction m as [|[k' v] m IH]; [reflexivity|].
  cbn [List.filter fst]. destruct (bool_decide (k' = k)) eqn:E; cbn [negb].
  - exact IH.
  - cbn [List.filter fst]. rewrite E. cbn [negb]. now rewrite IH.
Qed.

Lemma map_get_deleted (k : key) (m : list (key * V)) :
  map_get k (map_delete k m) = None.
Proof.
  unfold map_delete. induction m as [|[k' v] m IH]; [reflexivity|].
  cbn [List.filter fst]. destruct (bool_decide (k' = k)) eqn:E; cbn [negb].
  - exact IH.
  - cbn [map_get]. apply bool_decide_eq_false in E.
    destruct (decide (k' = k)); [contradiction | exact IH].
Qed.

Lemma map_delete_absent (k : key) (m : list (key * V)) :
  map_get k m = None -> map_delete k m = m.
Proof.
  unfold map_delete. induction m as [|[k' v] m IH]; [reflexivity|].
  cbn [map_get List.filter fst]. destruct (decide (k' = k)) as [E|E]; [discriminate|].
  intros H. rewrite bool_decide_eq_false_2 by exact E. cbn [negb].
  now rewrite IH.
Qed.

Lemma map_get_other (k k' : key) (m : list (key * V)) :
  k' <> k -> map_get k' (map_delete k m) = map_get k' m.
Proof.
  intros Hne. unfold map_delete. induction m as [|[k0 v] m IH]; [reflexivity|].
  cbn [List.filter fst map_get]. destruct (bool_decide (k0 = k)) eqn:E; cbn [negb].
  - apply bool_decide_eq_true in E. subst k0.
    destruct (decide (k = k')); [congruence | exact IH].
  - cbn [map_get]. now rewrite IH.
Qed.

(** The [delete] request of an object store: the key is gone afterwards,
    the other keys are kept, a second [delete] changes nothing, and a
    [delete] of an absent key changes nothing. *)
Lemma delete_request (k : key) (s : objectStore (V := V)) :
  get k (delete k s) = None
  /\ (forall k', k' <> k -> get k' (delete k s) = get k' s)
  /\ delete k (delete k s) = delete k s
  /\ (get k s = None -> delete k s = s).
Proof.
  unfold get, delete. cbn [data name keyPath indexes].
  split; [apply map_get_deleted|].
  split; [intros k' Hk'; now apply map_get_other|].
  split; [now rewrite map_delete_twice|].
  intros H. rewrite (map_delete_absent k (data s) H). now destruct s.
Qed.

(** [open] on a database that exists leaves the engine's databases as
    they are, then fires the handlers. *)
Lemma open_existing {C} (dbName : string) (ver : Z) (req : request (V := V) (C := C))
    (h : heap) (db : database) :
  dbs h !! dbName = Some db ->
  open dbName ver req h = fire_success req (fire_upgrade req dbName h).
Proof.
  intros H. unfold open, ensure. rewrite H. now destruct h.
Qed.

Lemma open_absent {C} (dbName : string) (ver : Z) (req : request (V := V) (C := C))
    (h : heap) :
  dbs h !! dbName = None ->
  open dbName ver req h
  = fire_success req
      (fire_upgrade req dbName
         (mkHeap (<[dbName := mkDatabase dbName ver ∅]> (dbs h)) (caller h))).
Proof.
  intros H. unfold open, ensure. now rewrite H.
Qed.

End Engine.

End MockIDBFacts.

(* ===================================================================== *)
(** * Facts about the benchmark *)
(* ===================================================================== *)

Module BenchFacts.
Import JSNumber JSNumberFacts Bench.
Local Open Scope bench_scope.

Lemma get_set_way {A} (o : PerWay A) (w w' : Way) (x : A) :
  get_way (set_way o w x) w' = if decide (w' = w) then x else get_way o w'.
Proof. destruct w, w'; reflexivity. Qed.

Lemma set_set_way {A} (o : PerWay A) (w : Way) (x y : A) :
  set_way (set_way o w x) w y = set_way o w y.
Proof. destruct w; reflexivity. Qed.

Lemma set_get_way {A} (o : PerWay A) (w : Way) : set_way o w (get_way o w) = o.
Proof. destruct o, w; reflexivity. Qed.

Section Loops.
Context {St : Type}.
Variable env : Env.
Variable adapters : PerWay (Store.Adapter St).

Lemma fold_m_app {A B} (body : B -> A -> M St B) (l1 l2 : list A) :
  forall acc w,
  fold_m body acc (l1 ++ l2) w
  = bind (fold_m body acc l1) (fun acc' => fold_m body acc' l2) w.
Proof.
  induction l1 as [|x l1 IH]; intros acc w; simpl; [reflexivity|].
  unfold bind. destruct (body acc x w) as [[acc'|e] w']; [|reflexivity].
  rewrite IH. reflexivity.
Qed.

Lemma fold_m_ext {A B} (body1 body2 : B -> A -> M St B) (l : list A) :
  (forall acc x w, In x l -> body1 acc x w = body2 acc x w) ->
  forall acc w, fold_m body1 acc l w = fold_m body2 acc l w.
Proof.
  induction l as [|x l IH]; intros H acc w; simpl; [reflexivity|].
  unfold bind. rewrite H by now left.
  destruct (body2 acc x w) as [[acc'|e] w']; [|reflexivity].
  apply IH. intros; apply H; now right.
Qed.

Lemma fold_m_map {A A' B} (g : A -> A') (body : B -> A' -> M St B) (l : list A) :
  forall acc w,
  fold_m body acc (map g l) w = fold_m (fun acc x => body acc (g x)) acc l w.
Proof.
  induction l as [|x l IH]; intros acc w; simpl; [reflexivity|].
  unfold bind. destruct (body acc (g x) w) as [[acc'|e] w']; [|reflexivity].
  apply IH.
Qed.

(** A loop nested in a loop is one loop over the pairs visited. *)
Lemma fold_m_nested {A B C} (inner : A -> list B) (body : C -> A * B -> M St C)
    (l : list A) :
  forall acc w,
  fold_m (fun acc a => fold_m (fun acc b => body acc (a, b)) acc (inner a)) acc l w
  = fold_m body acc (flat_map (fun a => map (pair a) (inner a)) l) w.
Proof.
  induction l as [|a l IH]; intros acc w; simpl; [reflexivity|].
  rewrite fold_m_app. unfold bind. rewrite fold_m_map.
  destruct (fold_m _ acc (inner a) w) as [[acc'|e] w']; [|reflexivity].
  apply IH.
Qed.

Lemma run_calls_app (a : Store.Adapter St) (cs1 cs2 : list Call) (s : St) :
  run_calls a (cs1 ++ cs2) s
  = let out1 := run_calls a cs1 s in
    let out2 := run_calls a cs2 (fst out1) in
    (fst out2, snd out1 ++ snd out2).
Proof.
  revert s. induction cs1 as [|c cs1 IH]; intros s; simpl.
  - now destruct (run_calls a cs2 s).
  - destruct (perform a c s) as [s1 r]. rewrite IH. simpl.
    destruct (run_calls a cs1 s1) as [s2 rs]. simpl.
    now destruct (run_calls a cs2 s2).
Qed.

Lemma run_calls_length (a : Store.Adapter St) (cs : list Call) :
  forall s, length (snd (run_calls a cs s)) = length cs.
Proof.
  induction cs as [|c cs IH]; intros s; simpl; [reflexivity|].
  destruct (perform a c s) as [s1 r]. specialize (IH s1).
  destruct (run_calls a cs s1) as [s2 rs]. simpl in *. now rewrite IH.
Qed.

Lemma successes_app (rs1 rs2 : list OpResult) :
  successes (rs1 ++ rs2) = successes rs1 ++ successes rs2.
Proof. unfold successes. now rewrite List.filter_app, map_app. Qed.

Lemma push_successes (ds : list number) (r : OpResult) (rs : list OpResult) :
  push_if_success ds r ++ successes rs = ds ++ successes (r :: rs).
Proof.
  unfold push_if_success, successes. simpl.
  destruct (success r); simpl; [now rewrite <- app_assoc | reflexivity].
Qed.

(** Awaiting the calls [map mk xs] one by one. *)
Lemma fold_await (way : Way) {X} (mk : X -> Call)
    (op : X -> Store.Adapter St -> St -> St * OpResult) (xs : list X) :
  (forall x a s, op x a s = perform a (mk x) s) ->
  forall ds w,
  fold_m (fun durations x =>
            let* result := await_call adapters way (mk x) (op x) in
            ret (push_if_success durations result)) ds xs w
  = let out := run_calls (get_way adapters way) (map mk xs)
                         (get_way (stores w) way) in
    (Ok (ds ++ successes (snd out)),
     mkWorld (set_way (stores w) way (fst out)) (results w)
             (events w ++ awaited way (map mk xs) (snd out))
             (randoms w) (clocks w) (uuids w)).
Proof.
  intros Hop. induction xs as [|x xs IH]; intros ds w.
  - simpl. unfold ret. rewrite set_get_way, !app_nil_r. now destruct w.
  - cbn [fold_m map run_calls].
    unfold bind at 1. unfold await_call, settle, on_store, emit, bind, ret.
    cbn [stores results events randoms clocks uuids].
    rewrite Hop. destruct (perform _ (mk x) _) as [s1 r] eqn:E.
    cbn [fst snd]. rewrite IH.
    cbn [stores results events randoms clocks uuids].
    rewrite get_set_way. destruct (decide (way = way)) as [_|]; [|congruence].
    destruct (run_calls _ (map mk xs) s1) as [s2 rs].
    cbn [fst snd]. rewrite set_set_way, push_successes.
    unfold awaited. cbn [zip zip_with flat_map fst snd].
    now rewrite <- !app_assoc.
Qed.

(** One variant's share of a phase, given what its loop does. *)
Lemma way_iteration (way : Way) (operation : string) (done : list Call)
    (evs : list OpResult -> list Event) (loop : M St (list number)) :
  (forall w0,
     loop w0
     = let out := run_calls (get_way adapters way) done (get_way (stores w0) way) in
       (Ok (successes (snd out)),
        mkWorld (set_way (stores w0) way (fst out)) (results w0)
                (events w0 ++ evs (snd out))
                (randoms w0) (clocks w0) (uuids w0))) ->
  forall w,
  (console (LTesting way);;
   let* durations := loop in
   record way operation (bundle durations);;
   console (LAverage way (average (bundle durations)))) w
  = (Ok tt, after_way adapters operation done evs way w).
Proof.
  intros Hloop w. unfold bind, console, emit. rewrite Hloop.
  cbn [stores results events randoms clocks uuids].
  unfold record, after_way.
  cbn [stores results events randoms clocks uuids].
  now rewrite <- !app_assoc.
Qed.

(** A whole phase, given what the loop of each variant does. *)
Lemma phase_shape (header : Line) (operation : string)
    (done : Way -> list Call) (evs : Way -> list OpResult -> list Event)
    (loop : Way -> M St (list number)) :
  (forall way w0,
     loop way w0
     = let out := run_calls (get_way adapters way) (done way)
                            (get_way (stores w0) way) in
       (Ok (successes (snd out)),
        mkWorld (set_way (stores w0) way (fst out)) (results w0)
                (events w0 ++ evs way (snd out))
                (randoms w0) (clocks w0) (uuids w0))) ->
  forall w,
  (console header;;
   for_each ways (fun way =>
     console (LTesting way);;
     let* durations := loop way in
     record way operation (bundle durations);;
     console (LAverage way (average (bundle durations))))) w
  = (Ok tt, after_phase adapters header operation done evs w).
Proof.
  intros Hloop w. unfold after_phase. cbn [ways fold_left for_each].
  unfold bind at 1. unfold console at 1, emit at 1.
  set (w0 := mkWorld _ _ (events w ++ [Console header]) _ _ _).
  unfold bind at 1. rewrite (way_iteration way1 operation _ _ _ (Hloop way1)).
  unfold bind at 1. rewrite (way_iteration way2 operation _ _ _ (Hloop way2)).
  unfold bind at 1. rewrite (way_iteration way3 operation _ _ _ (Hloop way3)).
  reflexivity.
Qed.

Lemma map_flat_map_pairs {A B C} (g : A -> list B) (mk : A * B -> C) (l : list A) :
  map mk (flat_map (fun a => map (pair a) (g a)) l)
  = flat_map (fun a => map (fun b => mk (a, b)) (g a)) l.
Proof.
  induction l as [|a l IH]; simpl; [reflexivity|].
  now rewrite map_app, IH, map_map.
Qed.

Lemma benchmarkAddMessages_spec (testData : list Chat) (w : World St) :
  benchmarkAddMessages adapters testData w
  = (Ok tt,
     after_phase adapters (LBenchmarking AddMessages) "addMessage"
       (fun _ => add_calls testData)
       (fun way => awaited way (add_calls testData)) w).
Proof.
  unfold benchmarkAddMessages. apply phase_shape. intros way w0.
  etransitivity.
  { exact (fold_m_nested messages
             (fun durations p =>
                let* result :=
                  await_call adapters way (CAddMessage (chatId (fst p)) (snd p))
                    (fun a s => Store.addMessage a s (chatId (fst p)) (snd p)) in
                ret (push_if_success durations result))
             testData [] w0). }
  rewrite (fold_await way (fun p => CAddMessage (chatId (fst p)) (snd p))
             (fun p a s => Store.addMessage a s (chatId (fst p)) (snd p)))
    by reflexivity.
  rewrite map_flat_map_pairs. reflexivity.
Qed.

Lemma benchmarkReadMessages_spec (testData : list Chat) (w : World St) :
  benchmarkReadMessages adapters testData w
  = (Ok tt,
     after_phase adapters (LBenchmarking ReadMessages) "readMessages"
       (fun _ => read_calls testData)
       (fun way => awaited way (read_calls testData)) w).
Proof.
  unfold benchmarkReadMessages. apply phase_shape. intros way w0.
  rewrite (fold_await way (fun chat => CGetChatMessages (chatId chat) 60)
             (fun chat a s => Store.getChatMessages a s (chatId chat) 60%nat))
    by reflexivity.
  reflexivity.
Qed.

(** A loop over positions inside the array is a loop over the elements
    at these positions. *)
Lemma fold_m_positions {C} (ms : list Message) (body : C -> Message -> M St C)
    (positions : list nat) :
  Forall (fun i => (i < length ms)%nat) positions ->
  forall acc w,
  fold_m (fun acc i => let* m := message_at ms i in body acc m) acc positions w
  = fold_m body acc (at_positions ms positions) w.
Proof.
  induction 1 as [|i positions Hi _ IH]; intros acc w; [reflexivity|].
  apply lookup_lt_is_Some_2 in Hi. destruct Hi as [m Hm].
  unfold at_positions. cbn [fold_m omap list_omap]. rewrite Hm. cbn [fold_m].
  unfold message_at. rewrite Hm. unfold bind at 1 2. unfold ret at 1.
  unfold bind. destruct (body acc m w) as [[acc'|e] w']; [|reflexivity].
  apply IH.
Qed.

Lemma at_positions_seq {A} (l : list A) (k : nat) :
  forall j, (j + k <= length l)%nat -> at_positions l (seq j k) = take k (drop j l).
Proof.
  unfold at_positions.
  induction k as [|k IH]; intros j Hj; [now rewrite take_0|].
  cbn [seq omap list_omap].
  destruct (lookup_lt_is_Some_2 l j) as [x Hx]; [lia|].
  rewrite Hx, (drop_S l x j Hx). cbn [take]. f_equal. apply IH. lia.
Qed.

Lemma at_positions_reverse {A} (l : list A) (positions : list nat) :
  at_positions l (reverse positions) = reverse (at_positions l positions).
Proof.
  unfold at_positions. induction positions as [|i positions IH]; [reflexivity|].
  rewrite reverse_cons, omap_app, IH. cbn [omap list_omap].
  destruct (l !! i); [now rewrite reverse_cons | now rewrite app_nil_r].
Qed.

(** [for (let i = 0; i < Math.min(10, messages.length); i++)] visits the
    first ten messages. *)
Lemma first_ten (ms : list Message) :
  at_positions ms (seq 0 (Nat.min 10 (length ms))) = take 10 ms.
Proof.
  rewrite at_positions_seq by lia. rewrite drop_0.
  destruct (Nat.le_ge_cases 10 (length ms)) as [H|H].
  - now rewrite Nat.min_l.
  - rewrite Nat.min_r by exact H. now rewrite !take_ge by lia.
Qed.

(** The delete loop visits the last five messages, the last one first. *)
Lemma last_five_messages (ms : list Message) :
  at_positions ms (last_five (length ms)) = take 5 (reverse ms).
Proof.
  unfold last_five. rewrite at_positions_reverse, at_positions_seq by lia.
  rewrite take_ge by (rewrite length_drop; lia).
  now rewrite take_reverse.
Qed.

Lemma last_five_in_range (n : nat) : Forall (fun i => (i < n)%nat) (last_five n).
Proof.
  unfold last_five. apply Forall_forall. intros i Hi.
  apply elem_of_reverse, elem_of_seq in Hi. lia.
Qed.

Lemma first_ten_in_range (n : nat) :
  Forall (fun i => (i < n)%nat) (seq 0 (Nat.min 10 n)).
Proof. apply Forall_forall. intros i Hi. apply elem_of_seq in Hi. lia. Qed.

Lemma benchmarkEditMessages_spec (testData : list Chat) (w : World St) :
  benchmarkEditMessages adapters testData w
  = (Ok tt,
     after_phase adapters (LBenchmarking EditMessages) "editMessage"
       (fun _ => edit_calls testData)
       (fun way => awaited way (edit_calls testData)) w).
Proof.
  unfold benchmarkEditMessages. apply phase_shape. intros way w0.
  pose (body := fun (durations : list number) (p : Chat * Message) =>
    let* result :=
      await_call adapters way (edit_call (fst p) (snd p))
        (fun a s => Store.editMessage a s (chatId (fst p)) (id (snd p))
                      (edited (snd p))) in
    ret (push_if_success durations result)).
  etransitivity.
  { apply fold_m_ext. intros acc chat w1 _.
    rewrite (fold_m_positions (messages chat)
               (fun durations m => body durations (chat, m)))
      by apply first_ten_in_range.
    rewrite first_ten. reflexivity. }
  etransitivity.
  { exact (fold_m_nested (fun chat => take 10 (messages chat)) body testData [] w0). }
  unfold body.
  rewrite (fold_await way (fun p => edit_call (fst p) (snd p))
             (fun p a s => Store.editMessage a s (chatId (fst p)) (id (snd p))
                             (edited (snd p))))
    by reflexivity.
  rewrite map_flat_map_pairs. reflexivity.
Qed.

Lemma benchmarkDeleteMessages_spec (testData : list Chat) (w : World St) :
  benchmarkDeleteMessages adapters testData w
  = (Ok tt,
     after_phase adapters (LBenchmarking DeleteMessages) "deleteMessage"
       (fun _ => delete_calls testData)
       (fun way => awaited way (delete_calls testData)) w).
Proof.
  unfold benchmarkDeleteMessages. apply phase_shape. intros way w0.
  pose (body := fun (durations : list number) (p : Chat * Message) =>
    let* result :=
      await_call adapters way (delete_call (fst p) (snd p))
        (fun a s => Store.deleteMessage a s (chatId (fst p)) (id (snd p))) in
    ret (push_if_success durations result)).
  etransitivity.
  { apply fold_m_ext. intros acc chat w1 _.
    rewrite (fold_m_positions (messages chat)
               (fun durations m => body durations (chat, m)))
      by apply last_five_in_range.
    rewrite last_five_messages. reflexivity. }
  etransitivity.
  { exact (fold_m_nested (fun chat => take 5 (reverse (messages chat))) body
             testData [] w0). }
  unfold body.
  rewrite (fold_await way (fun p => delete_call (fst p) (snd p))
             (fun p a s => Store.deleteMessage a s (chatId (fst p)) (id (snd p))))
    by reflexivity.
  rewrite map_flat_map_pairs. reflexivity.
Qed.

Lemma bind_assoc {A B C} (m : M St A) (k : A -> M St B) (h : B -> M St C)
    (w : World St) :
  bind (bind m k) h w = bind m (fun a => bind (k a) h) w.
Proof.
  unfold bind. destruct (m w) as [[a|e] w']; reflexivity.
Qed.

Lemma bind_ext {A B} (m1 m2 : M St A) (k1 k2 : A -> M St B) (w : World St) :
  m1 w = m2 w -> (forall a w', k1 a w' = k2 a w') -> bind m1 k1 w = bind m2 k2 w.
Proof.
  intros Hm Hk. unfold bind. rewrite Hm.
  destruct (m2 w) as [[a|e] w']; [apply Hk | reflexivity].
Qed.

Lemma for_each_ext {A} (l : list A) (body1 body2 : A -> M St unit) :
  (forall x w, body1 x w = body2 x w) ->
  forall w, for_each l body1 w = for_each l body2 w.
Proof.
  intros H. induction l as [|x l IH]; intros w; simpl; [reflexivity|].
  apply bind_ext; [apply H | intros _ w'; apply IH].
Qed.

(** The synchronous loop that issues the reads. *)
Lemma issue_loop (way : Way) (testData : list Chat) (positions : list nat) :
  testData <> [] ->
  forall promises (w : World St),
  fold_m (fun promises i =>
            let* chat := chat_for testData i in
            emit (Issued way (CGetChatMessages chat 60));;
            ret (promises ++ [chat])) promises positions w
  = let chats :=
      flat_map (fun i => match testData !! (i mod length testData)%nat with
                         | Some chat => [chatId chat]
                         | None => []
                         end) positions in
    (Ok (promises ++ chats),
     mkWorld (stores w) (results w)
             (events w ++ map (Issued way) (map read_call chats))
             (randoms w) (clocks w) (uuids w)).
Proof.
  intros Hne. induction positions as [|i positions IH]; intros promises w.
  - simpl. unfold ret. rewrite !app_nil_r. now destruct w.
  - cbn [fold_m flat_map].
    destruct (lookup_lt_is_Some_2 testData (i mod length testData)) as [chat Hc].
    { apply Nat.mod_upper_bound. destruct testData; [congruence | simpl; lia]. }
    unfold bind at 1. unfold chat_for at 1. rewrite Hc.
    unfold bind at 1. unfold ret at 1. unfold bind at 1. unfold emit at 1.
    unfold ret at 1. rewrite IH.
    cbn [stores results events randoms clocks uuids app map].
    now rewrite <- !app_assoc.
Qed.

Lemma at_positions_map {A B} (g : A -> B) (l : list A) (positions : list nat) :
  at_positions (map g l) positions = map g (at_positions l positions).
Proof.
  unfold at_positions. induction positions as [|k positions IH]; [reflexivity|].
  cbn [omap list_omap]. rewrite list_lookup_fmap.
  destruct (l !! k); simpl; now rewrite IH.
Qed.

(** The completions, in whatever order [order] they come. *)
Lemma gather_loop (way : Way) (promises : list string) (order : list nat) :
  forall ds w,
  fold_m (fun durations k =>
            match promises !! k with
            | Some chat =>
                let* result :=
                  settle adapters way (CGetChatMessages chat 60)
                    (fun a s => Store.getChatMessages a s chat 60%nat) in
                ret (push_if_success durations result)
            | None => ret durations
            end) ds order w
  = let done := at_positions (map read_call promises) order in
    let out := run_calls (get_way adapters way) done (get_way (stores w) way) in
    (Ok (ds ++ successes (snd out)),
     mkWorld (set_way (stores w) way (fst out)) (results w)
             (events w ++ map (fun cr => Settled way (fst cr) (snd cr))
                              (zip done (snd out)))
             (randoms w) (clocks w) (uuids w)).
Proof.
  induction order as [|k order IH]; intros ds w.
  - simpl. unfold ret. rewrite set_get_way, !app_nil_r. now destruct w.
  - rewrite at_positions_map. unfold at_positions.
    cbn [fold_m omap list_omap]. destruct (promises !! k) as [chat|] eqn:Hk.
    + cbn [map run_calls perform read_call option_bind mbind].
      unfold bind at 1. unfold settle, on_store, emit, bind, ret.
      cbn [stores results events randoms clocks uuids].
      destruct (Store.getChatMessages _ _ chat 60%nat) as [s1 r] eqn:E.
      rewrite IH. cbn [stores results events randoms clocks uuids].
      rewrite get_set_way. destruct (decide (way = way)) as [_|]; [|congruence].
      rewrite at_positions_map. unfold at_positions.
      destruct (run_calls _ _ s1) as [s2 rs]. cbn [fst snd].
      rewrite set_set_way, push_successes. cbn [zip zip_with map fst snd].
      now rewrite <- !app_assoc.
    + unfold bind at 1. unfold ret at 1. rewrite IH.
      rewrite at_positions_map. reflexivity.
Qed.

Lemma benchmarkConcurrentReads_spec (testData : list Chat) (n : nat) (w : World St) :
  testData <> [] ->
  benchmarkConcurrentReads env adapters testData n w
  = (Ok tt,
     let cs := concurrent_calls testData n in
     let done := fun way => at_positions cs (completions env way (length cs)) in
     after_phase adapters (LBenchmarkingConcurrent n) "concurrentReads"
       done (fun way => gathered way cs (done way)) w).
Proof.
  intros Hne. unfold benchmarkConcurrentReads.
  pose (loop := fun way : Way =>
       let* promises :=
         fold_m (fun promises i =>
                   let* chat := chat_for (St := St) testData i in
                   emit (Issued way (CGetChatMessages chat 60));;
                   ret (promises ++ [chat])) [] (seq 0 n) in
       gather env adapters way promises).
  transitivity
    ((console (LBenchmarkingConcurrent n);;
      for_each ways (fun way =>
        console (LTesting way);;
        let* durations := loop way in
        record way "concurrentReads" (bundle durations);;
        console (LAverage way (average (bundle durations))))) w).
  { apply bind_ext; [reflexivity|]. intros u w'.
    apply for_each_ext. intros way w0.
    apply bind_ext; [reflexivity|]. intros u' w1.
    unfold loop. symmetry. apply bind_assoc. }
  apply phase_shape. intros way w0.
  unfold loop, bind at 1. rewrite issue_loop by exact Hne.
  cbn [app]. unfold gather. rewrite gather_loop.
  cbn [stores results events randoms clocks uuids app].
  unfold gathered, concurrent_calls, chats_round_robin, completions.
  rewrite !length_map. now rewrite <- !app_assoc.
Qed.

(** Without any chat, the first read cannot be issued. *)
Lemma benchmarkConcurrentReads_no_chat (n : nat) (w : World St) :
  fst (benchmarkConcurrentReads env adapters [] (S n) w)
  = Throw (TypeError "Cannot read properties of undefined (reading 'chatId')").
Proof. reflexivity. Qed.

(** *** Reading the events of a phase *)

Lemma issued_app (way : Way) (e1 e2 : list Event) :
  issued way (e1 ++ e2) = issued way e1 ++ issued way e2.
Proof. apply flat_map_app. Qed.

Lemma settled_app (way : Way) (e1 e2 : list Event) :
  settled way (e1 ++ e2) = settled way e1 ++ settled way e2.
Proof. apply flat_map_app. Qed.

Lemma issued_cons (way : Way) (e : Event) (l : list Event) :
  issued way (e :: l) = issued way [e] ++ issued way l.
Proof. apply (issued_app way [e] l). Qed.

Lemma settled_cons (way : Way) (e : Event) (l : list Event) :
  settled way (e :: l) = settled way [e] ++ settled way l.
Proof. apply (settled_app way [e] l). Qed.

Lemma awaited_read (way way' : Way) (cs : list Call) :
  forall rs, length rs = length cs ->
  issued way (awaited way' cs rs) = (if decide (way' = way) then cs else [])
  /\ settled way (awaited way' cs rs) = (if decide (way' = way) then rs else []).
Proof.
  unfold awaited.
  induction cs as [|c cs IH]; intros [|r rs] Hlen; try discriminate.
  - destruct (decide (way' = way)); now split.
  - injection Hlen as Hlen. destruct (IH rs Hlen) as [IH1 IH2].
    cbn [zip zip_with flat_map fst snd app].
    rewrite (issued_cons way (Issued _ _)), (issued_cons way (Settled _ _ _)).
    rewrite (settled_cons way (Issued _ _)), (settled_cons way (Settled _ _ _)).
    rewrite IH1, IH2. cbn [issued settled flat_map app].
    destruct (decide (way' = way)); now split.
Qed.

Lemma gathered_read (way way' : Way) (cs done : list Call) (rs : list OpResult) :
  length rs = length done ->
  issued way (gathered way' cs done rs) = (if decide (way' = way) then cs else [])
  /\ settled way (gathered way' cs done rs) = (if decide (way' = way) then rs else []).
Proof.
  intros Hlen. unfold gathered. rewrite issued_app, settled_app.
  assert (H1 : issued way (map (Issued way') cs)
               = if decide (way' = way) then cs else []).
  { induction cs as [|c cs IH]; [now destruct (decide (way' = way))|].
    cbn [map]. rewrite issued_cons, IH. cbn [issued flat_map app].
    now destruct (decide (way' = way)). }
  assert (H2 : settled way (map (Issued way') cs) = []).
  { clear H1. induction cs as [|c cs IH]; [reflexivity|].
    cbn [map]. rewrite settled_cons, IH. reflexivity. }
  assert (H3 : forall rs, length rs = length done ->
            issued way (map (fun cr => Settled way' (fst cr) (snd cr)) (zip done rs)) = []
            /\ settled way (map (fun cr => Settled way' (fst cr) (snd cr)) (zip done rs))
               = if decide (way' = way) then rs else []).
  { clear Hlen. induction done as [|c done IH]; intros [|r rs'] Hlen'; try discriminate.
    - now destruct (decide (way' = way)).
    - injection Hlen' as Hlen'. destruct (IH rs' Hlen') as [IH1 IH2].
      cbn [zip zip_with map fst snd]. rewrite issued_cons, settled_cons, IH1, IH2.
      cbn [issued settled flat_map app]. now destruct (decide (way' = way)). }
  destruct (H3 rs Hlen) as [H3a H3b].
  rewrite H1, H2, H3a, H3b, app_nil_r. now split.
Qed.

(** What a phase leaves behind, variant by variant. *)
Lemma after_phase_reading (header : Line) (operation : string)
    (sent done : Way -> list Call) (evs : Way -> list OpResult -> list Event)
    (w : World St) (way : Way) :
  (forall way' rs, length rs = length (done way') ->
     issued way (evs way' rs) = (if decide (way' = way) then sent way' else [])
     /\ settled way (evs way' rs) = (if decide (way' = way) then rs else [])) ->
  let w' := after_phase adapters header operation done evs w in
  let out := run_calls (get_way adapters way) (done way) (get_way (stores w) way) in
  issued way (observed w w') = sent way
  /\ settled way (observed w w') = snd out
  /\ get_way (stores w') way = fst out
  /\ bundles (get_way (results w') way)
     = <[operation := bundle (successes (snd out))]> (bundles (get_way (results w) way))
  /\ stats (get_way (results w') way) = stats (get_way (results w) way)
  /\ (randoms w', clocks w', uuids w') = (randoms w, clocks w, uuids w).
Proof.
  intros Hevs w' out.
  assert (Hev : exists new, events w' = events w ++ new
            /\ issued way new = sent way /\ settled way new = snd out).
  { eexists. split.
    - unfold w', after_phase, after_way.
      cbn [ways fold_left stores results events randoms clocks uuids].
      rewrite <- !app_assoc. reflexivity.
    - rewrite !issued_app, !settled_app.
      cbn [issued settled flat_map app].
      destruct (Hevs way1 (snd (run_calls (get_way adapters way1) (done way1)
                                  (get_way (stores w) way1))))
        as [Hi1 Hs1]; [apply run_calls_length|].
      destruct (Hevs way2 (snd (run_calls (get_way adapters way2) (done way2)
                                  (get_way (stores w) way2))))
        as [Hi2 Hs2]; [apply run_calls_length|].
      destruct (Hevs way3 (snd (run_calls (get_way adapters way3) (done way3)
                                  (get_way (stores w) way3))))
        as [Hi3 Hs3]; [apply run_calls_length|].
      cbn [get_way set_way at1 at2 at3] in *.
      rewrite Hi1, Hi2, Hi3, Hs1, Hs2, Hs3.
      unfold out. destruct way; cbn; rewrite ?app_nil_r; now split. }
  destruct Hev as (new & Hnew & Hi & Hs).
  unfold observed. rewrite Hnew, drop_app_length.
  split; [exact Hi|]. split; [exact Hs|].
  unfold w', out, after_phase, after_way.
  cbn [ways fold_left stores results events randoms clocks uuids].
  destruct way; cbn; repeat split; reflexivity.
Qed.

End Loops.

(** ** The five phases at once *)

Section Phases.
Context {St : Type}.
Variable env : Env.
Variable adapters : PerWay (Store.Adapter St).


(** Whatever the environment picks, every pending read completes, once. *)
Lemma completion_order_perm (choose : nat -> nat) (fuel : nat) :
  forall pending, length pending = fuel ->
  Permutation (completion_order choose pending fuel) pending.
Proof.
  induction fuel as [|fuel IH]; intros pending Hlen.
  - destruct pending; [reflexivity | discriminate].
  - cbn [completion_order].
    destruct (lookup_lt_is_Some_2 pending (choose (length pending) mod length pending))
      as [i Hi].
    { apply Nat.mod_upper_bound. lia. }
    rewrite Hi.
    etransitivity; [|symmetry; apply (delete_Permutation pending _ i Hi)].
    apply perm_skip. apply IH. rewrite length_delete by eauto. lia.
Qed.

Lemma completions_perm (way : Way) (n : nat) :
  Permutation (completions env way n) (seq 0 n).
Proof. apply completion_order_perm. apply length_seq. Qed.

Lemma at_positions_all {A} (l : list A) : at_positions l (seq 0 (length l)) = l.
Proof.
  rewrite at_positions_seq by lia. rewrite drop_0. now apply take_ge.
Qed.

Lemma completed_perm {A} (way : Way) (l : list A) :
  Permutation (at_positions l (completions env way (length l))) l.
Proof.
  unfold at_positions. rewrite (completions_perm way (length l)).
  fold (at_positions l (seq 0 (length l))). now rewrite at_positions_all.
Qed.

Lemma chats_round_robin_length (testData : list Chat) (n : nat) :
  testData <> [] -> length (chats_round_robin testData n) = n.
Proof.
  intros Hne. unfold chats_round_robin.
  assert (H : forall l : list nat,
            length (flat_map (fun i => match testData !! (i mod length testData)%nat with
                                       | Some chat => [chatId chat]
                                       | None => []
                                       end) l) = length l).
  { induction l as [|i l IH]; [reflexivity|]. cbn [flat_map].
    destruct (lookup_lt_is_Some_2 testData (i mod length testData)) as [c ->].
    - apply Nat.mod_upper_bound. destruct testData; [congruence | simpl; lia].
    - simpl. now rewrite IH. }
  now rewrite H, length_seq.
Qed.

Lemma concurrent_calls_length (testData : list Chat) (n : nat) :
  testData <> [] -> length (concurrent_calls testData n) = n.
Proof.
  intros Hne. unfold concurrent_calls.
  now rewrite length_map, chats_round_robin_length.
Qed.

Lemma served_perm (n : nat) (ph : Phase) (testData : list Chat) (way : Way) :
  Permutation (served env n ph testData way) (calls_of n ph testData).
Proof. destruct ph; try reflexivity. apply completed_perm. Qed.

(** Every phase returns; each variant is sent the calls of the phase,
    answers them in the order [served], and the bundle recorded for it is
    the bundle of the successful answers. *)
Lemma benchmark_reading (n : nat) (ph : Phase) (testData : list Chat)
    (w : World St) (way : Way) :
  (ph = ConcurrentReads -> testData <> []) ->
  exists w',
    benchmark env adapters n ph testData w = (Ok tt, w')
    /\ issued way (observed w w') = calls_of n ph testData
    /\ settled way (observed w w')
       = snd (run_calls (get_way adapters way) (served env n ph testData way)
                        (get_way (stores w) way))
    /\ bundles (get_way (results w') way) !! operation_of ph
       = Some (bundle (successes (settled way (observed w w')))).
Proof.
  intros Hne. destruct ph; cbn [benchmark calls_of served operation_of].
  - rewrite benchmarkAddMessages_spec. eexists. split; [reflexivity|].
    destruct (after_phase_reading adapters (LBenchmarking AddMessages) "addMessage"
                (fun _ => add_calls testData) (fun _ => add_calls testData)
                (fun way' => awaited way' (add_calls testData)) w way)
      as (H1 & H2 & _ & H4 & _).
    { intros way' rs Hlen. now apply awaited_read. }
    rewrite H1, H2, H4, lookup_insert_eq. auto.
  - rewrite benchmarkReadMessages_spec. eexists. split; [reflexivity|].
    destruct (after_phase_reading adapters (LBenchmarking ReadMessages) "readMessages"
                (fun _ => read_calls testData) (fun _ => read_calls testData)
                (fun way' => awaited way' (read_calls testData)) w way)
      as (H1 & H2 & _ & H4 & _).
    { intros way' rs Hlen. now apply awaited_read. }
    rewrite H1, H2, H4, lookup_insert_eq. auto.
  - rewrite benchmarkEditMessages_spec. eexists. split; [reflexivity|].
    destruct (after_phase_reading adapters (LBenchmarking EditMessages) "editMessage"
                (fun _ => edit_calls testData) (fun _ => edit_calls testData)
                (fun way' => awaited way' (edit_calls testData)) w way)
      as (H1 & H2 & _ & H4 & _).
    { intros way' rs Hlen. now apply awaited_read. }
    rewrite H1, H2, H4, lookup_insert_eq. auto.
  - rewrite benchmarkDeleteMessages_spec. eexists. split; [reflexivity|].
    destruct (after_phase_reading adapters (LBenchmarking DeleteMessages)
                "deleteMessage" (fun _ => delete_calls testData)
                (fun _ => delete_calls testData)
                (fun way' => awaited way' (delete_calls testData)) w way)
      as (H1 & H2 & _ & H4 & _).
    { intros way' rs Hlen. now apply awaited_read. }
    rewrite H1, H2, H4, lookup_insert_eq. auto.
  - rewrite benchmarkConcurrentReads_spec by auto. cbv beta zeta.
    eexists. split; [reflexivity|].
    destruct (after_phase_reading adapters (LBenchmarkingConcurrent n)
                "concurrentReads" (fun _ => concurrent_calls testData n)
                (fun way' => served env n ConcurrentReads testData way')
                (fun way' => gathered way' (concurrent_calls testData n)
                               (served env n ConcurrentReads testData way'))
                w way)
      as (H1 & H2 & _ & H4 & _).
    { intros way' rs Hlen. now apply gathered_read. }
    cbn [served] in H1, H2, H4. cbv beta.
    rewrite H1, H2, H4, lookup_insert_eq. auto.
Qed.

Lemma share_app (way : Way) (e1 e2 : list Event) :
  share way (e1 ++ e2) = share way e1 ++ share way e2.
Proof. apply List.filter_app. Qed.

Lemma share_gathered (way way' : Way) (cs done : list Call) (rs : list OpResult) :
  share way (gathered way' cs done rs)
  = if decide (way' = way) then gathered way' cs done rs else [].
Proof.
  unfold gathered. rewrite share_app.
  assert (H1 : share way (map (Issued way') cs)
               = if decide (way' = way) then map (Issued way') cs else []).
  { induction cs as [|c cs IH]; [now destruct (decide (way' = way))|].
    cbn [map share List.filter about]. fold (share way (map (Issued way') cs)).
    rewrite IH. destruct (decide (way' = way)) as [E|E].
    - now rewrite bool_decide_eq_true_2.
    - now rewrite bool_decide_eq_false_2. }
  assert (H2 : forall l : list (Call * OpResult),
            share way (map (fun cr => Settled way' (fst cr) (snd cr)) l)
            = if decide (way' = way)
              then map (fun cr => Settled way' (fst cr) (snd cr)) l else []).
  { induction l as [|cr l IH]; [now destruct (decide (way' = way))|].
    cbn [map share List.filter about].
    fold (share way (map (fun cr => Settled way' (fst cr) (snd cr)) l)).
    rewrite IH. destruct (decide (way' = way)) as [E|E].
    - now rewrite bool_decide_eq_true_2.
    - now rewrite bool_decide_eq_false_2. }
  rewrite H1, H2. now destruct (decide (way' = way)).
Qed.

(** The share of one variant in the concurrent phase: its reads are all
    issued, then all settled, in completion order. *)
Lemma concurrent_share (n : nat) (testData : list Chat) (w : World St) (way : Way) :
  testData <> [] ->
  exists w',
    benchmarkConcurrentReads env adapters testData n w = (Ok tt, w')
    /\ let done := served env n ConcurrentReads testData way in
       let rs := snd (run_calls (get_way adapters way) done (get_way (stores w) way)) in
       share way (observed w w') = gathered way (concurrent_calls testData n) done rs
       /\ length rs = length done
       /\ bundles (get_way (results w') way) !! "concurrentReads"
          = Some (bundle (successes rs)).
Proof.
  intros Hne. rewrite benchmarkConcurrentReads_spec by exact Hne. cbv beta zeta.
  eexists. split; [reflexivity|]. cbn [served].
  split; [|split; [apply run_calls_length|]].
  - unfold observed, after_phase, after_way.
    cbn [ways fold_left stores results events randoms clocks uuids].
    rewrite <- !app_assoc, drop_app_length.
    rewrite !share_app, !share_gathered.
    cbn [share List.filter about app get_way set_way at1 at2 at3].
    destruct way; cbn; now rewrite ?app_nil_r.
  - unfold after_phase, after_way.
    cbn [ways fold_left stores results events randoms clocks uuids].
    destruct way; cbn [get_way set_way at1 at2 at3 bundles];
      now rewrite lookup_insert_eq.
Qed.

End Phases.

(** ** Stages and calls of the parts of a run *)

Section Steps.
Context {St : Type}.
Variable env : Env.
Variable adapters : PerWay (Store.Adapter St).

Lemma stages_app (e1 e2 : list Event) : stages (e1 ++ e2) = stages e1 ++ stages e2.
Proof. apply flat_map_app. Qed.

Lemma went_nowhere (w w' : World St) : events w' = events w -> went w w' [] [].
Proof. intros H. exists []. rewrite app_nil_r. now repeat split. Qed.

Lemma went_on (w1 w2 w3 : World St) (st1 st2 : list Stage) (c1 c2 : list Call) :
  went w1 w2 st1 c1 -> went w2 w3 st2 c2 -> went w1 w3 (st1 ++ st2) (c1 ++ c2).
Proof.
  intros (n1 & H1 & S1 & I1) (n2 & H2 & S2 & I2). exists (n1 ++ n2).
  split; [rewrite H2, H1; now rewrite app_assoc|].
  split; [rewrite stages_app; congruence|].
  intros way. rewrite issued_app. now rewrite I1, I2.
Qed.

Lemma went_console (w : World St) (l : Line) :
  went w (seen w [Console l]) (stage_of (Console l)) [].
Proof.
  exists [Console l]. split; [reflexivity|].
  split; [apply app_nil_r | reflexivity].
Qed.

Lemma awaited_stages (way : Way) (cs : list Call) :
  forall rs, stages (awaited way cs rs) = [].
Proof.
  unfold awaited. induction cs as [|c cs IH]; intros [|r rs]; try reflexivity.
  cbn [zip zip_with flat_map fst snd app]. exact (IH rs).
Qed.

Lemma gathered_stages (way : Way) (cs done : list Call) (rs : list OpResult) :
  stages (gathered way cs done rs) = [].
Proof.
  unfold gathered. rewrite stages_app.
  assert (H1 : stages (map (Issued way) cs) = []).
  { induction cs as [|c cs IH]; [reflexivity | exact IH]. }
  rewrite H1. cbn [app]. revert rs.
  induction done as [|c done IH]; intros [|r rs]; try reflexivity.
  cbn [zip zip_with map fst snd]. exact (IH rs).
Qed.

(** A phase announces itself once and sends its calls to each variant. *)
Lemma after_phase_went (header : Line) (operation : string) (sent : list Call)
    (done : Way -> list Call) (evs : Way -> list OpResult -> list Event)
    (w : World St) :
  (forall way way' rs, length rs = length (done way') ->
     issued way (evs way' rs) = (if decide (way' = way) then sent else [])) ->
  (forall way' rs, stages (evs way' rs) = []) ->
  went w (after_phase adapters header operation done evs w)
       (stage_of (Console header)) sent.
Proof.
  intros Hi Hs. eexists. split.
  - unfold after_phase, after_way.
    cbn [ways fold_left stores results events randoms clocks uuids].
    rewrite <- !app_assoc. reflexivity.
  - split.
    + rewrite !stages_app, !Hs. cbn [stages flat_map stage_of app].
      now rewrite !app_nil_r.
    + intros way. rewrite !issued_app.
      rewrite !Hi by apply run_calls_length.
      cbn [issued flat_map app]. destruct way; cbn; now rewrite ?app_nil_r.
Qed.

Lemma sequential_went (header : Line) (operation : string) (cs : list Call)
    (w : World St) :
  went w (after_phase adapters header operation (fun _ => cs)
            (fun way => awaited way cs) w)
       (stage_of (Console header)) cs.
Proof.
  apply after_phase_went.
  - intros way way' rs Hlen. now apply awaited_read.
  - intros way' rs. apply awaited_stages.
Qed.

Lemma concurrent_went (header : Line) (operation : string) (cs : list Call)
    (done : Way -> list Call) (w : World St) :
  went w (after_phase adapters header operation done
            (fun way => gathered way cs (done way)) w)
       (stage_of (Console header)) cs.
Proof.
  apply after_phase_went.
  - intros way way' rs Hlen. now apply gathered_read.
  - intros way' rs. apply gathered_stages.
Qed.

End Steps.

(** ** The test data generator *)

Section Generator.
Context {St : Type}.
Variable env : Env.

Lemma sender_in_pool (r : Q) :
  (0 <= r)%Q -> (r < 1)%Q ->
  In ("user-" +:+ pretty (Qfloor (r * 5) + 1)) senders.
Proof.
  intros H0 H1.
  assert (Hlo : 0 <= Qfloor (r * 5)).
  { change 0 with (Qfloor (inject_Z 0)). apply Qfloor_resp_le.
    change (inject_Z 0) with (0 * 5)%Q. apply Qmult_le_compat_r; [exact H0 | easy]. }
  assert (Hhi : Qfloor (r * 5) < 5).
  { apply Z.lt_nge. intros Hge.
    assert (Hq : (inject_Z 5 <= r * 5)%Q).
    { eapply Qle_trans; [|apply Qfloor_le]. now rewrite <- Zle_Qle. }
    apply (Qlt_not_le _ _ H1). apply (Qmult_le_r _ _ 5); [easy|].
    exact Hq. }
  assert (Hcases : Qfloor (r * 5) = 0 \/ Qfloor (r * 5) = 1 \/ Qfloor (r * 5) = 2
                   \/ Qfloor (r * 5) = 3 \/ Qfloor (r * 5) = 4) by lia.
  unfold senders.
  destruct Hcases as [-> | [-> | [-> | [-> | ->]]]]; vm_compute; tauto.
Qed.

Lemma timestamp_in_day (t : Z) (r : Q) :
  (0 <= r)%Q -> (r < 1)%Q ->
  t - day <= Qtrunc (inject_Z t - r * 86400000) <= t.
Proof.
  intros H0 H1. set (x := (inject_Z t - r * 86400000)%Q).
  assert (Hup : (x <= inject_Z t)%Q) by (unfold x; lra).
  assert (Hdown : (inject_Z (t - day) <= x)%Q).
  { unfold x, day, Z.sub. rewrite inject_Z_plus, inject_Z_opp.
    change (inject_Z 86400000) with 86400000%Q. lra. }
  unfold Qtrunc. fold x. destruct (Qle_bool 0 x).
  - split.
    + rewrite <- (Qfloor_Z (t - day)). now apply Qfloor_resp_le.
    + rewrite Zle_Qle. eapply Qle_trans; [apply Qfloor_le | exact Hup].
  - split.
    + rewrite Zle_Qle. eapply Qle_trans; [exact Hdown | apply Qle_ceiling].
    + rewrite <- (Qceiling_Z t). now apply Qceiling_resp_le.
Qed.

Lemma generated_mono (lo hi hi' : nat) (m : Message) :
  (hi <= hi')%nat -> generated env lo hi m -> generated env lo hi' m.
Proof.
  intros Hle (Hs & Ht & k & Hk & Hw). repeat split; try assumption.
  exists k. split; [lia | exact Hw].
Qed.

(** A loop that keeps an invariant indexed by the number of rounds. *)
Lemma fold_m_invariant {A B} (P : nat -> B -> World St -> Prop)
    (body : B -> A -> M St B) (l : list A) :
  forall j,
  (forall k acc x w, l !! k = Some x -> P (j + k)%nat acc w ->
     exists acc' w', body acc x w = (Ok acc', w') /\ P (S (j + k)) acc' w') ->
  forall acc w, P j acc w ->
  exists acc' w', fold_m body acc l w = (Ok acc', w') /\ P (j + length l)%nat acc' w'.
Proof.
  induction l as [|x l IH]; intros j Hstep acc w HP.
  - exists acc, w. split; [reflexivity|]. now rewrite Nat.add_0_r.
  - destruct (Hstep 0%nat acc x w eq_refl) as (acc1 & w1 & Hb & HP1).
    { now rewrite Nat.add_0_r. }
    rewrite Nat.add_0_r in HP1.
    destruct (IH (S j)) with (acc := acc1) (w := w1) as (acc2 & w2 & Hf & HP2).
    + intros k acc' y w' Hy HPk.
      replace (S (S j + k)) with (S (j + S k)) by lia.
      apply (Hstep (S k)); [exact Hy|].
      now rewrite Nat.add_succ_r.
    + exact HP1.
    + exists acc2, w2. split.
      * cbn [fold_m]. unfold bind. now rewrite Hb.
      * cbn [length]. now rewrite Nat.add_succ_r.
Qed.

Lemma new_message_generated (i j : nat) (w : World St) :
  unit_interval env ->
  exists m w', new_message env i j w = (Ok m, w')
    /\ untouched w w'
    /\ clocks w' = S (clocks w)
    /\ generated env (clocks w) (S (clocks w)) m.
Proof.
  intros random_range.
  eexists. eexists. split; [reflexivity|].
  cbn [stores results events clocks].
  split; [now repeat split|]. split; [reflexivity|].
  unfold generated. cbn [sender type timestamp].
  split; [apply sender_in_pool; apply random_range|].
  split; [reflexivity|].
  exists (clocks w). split; [lia|].
  apply timestamp_in_day; apply random_range.
Qed.

Lemma new_message_returns (i j : nat) (w : World St) :
  exists m w', new_message env i j w = (Ok m, w')
    /\ untouched w w'
    /\ clocks w' = S (clocks w)
    /\ True.
Proof.
  eexists. eexists. split; [reflexivity|].
  cbn [stores results events clocks]. now repeat split.
Qed.

Section Property.
(** A property [G lo hi] of the messages generated between the clock
    readings [lo] and [hi]. *)
Variable G : nat -> nat -> Message -> Prop.
Hypothesis G_mono : forall lo hi hi' m, (hi <= hi')%nat -> G lo hi m -> G lo hi' m.
Hypothesis G_widen : forall lo lo' hi m, (lo <= lo')%nat -> G lo' hi m -> G lo hi m.
Hypothesis G_new : forall i j (w : World St),
  exists m w', new_message env i j w = (Ok m, w')
    /\ untouched w w'
    /\ clocks w' = S (clocks w)
    /\ G (clocks w) (S (clocks w)) m.

(** The messages of one chat. *)
Lemma chat_messages_generated (i n : nat) (w : World St) :
  exists ms w',
    fold_m (fun msgs j => let* m := new_message env i j in ret (msgs ++ [m]))
           [] (seq 0 n) w = (Ok ms, w')
    /\ length ms = n
    /\ untouched w w'
    /\ (clocks w <= clocks w')%nat
    /\ Forall (G (clocks w) (clocks w')) ms.
Proof.
  destruct (fold_m_invariant
    (fun k msgs w' => length msgs = k /\ untouched w w'
                      /\ (clocks w <= clocks w')%nat
                      /\ Forall (G (clocks w) (clocks w')) msgs)
    (fun msgs j => let* m := new_message env i j in ret (msgs ++ [m]))
    (seq 0 n) 0%nat) with (acc := @nil Message) (w := w)
    as (ms & w' & Hf & Hlen & Hu & Hc & Hg).
  - intros k msgs j w1 _ (Hlen & (Hu1 & Hu2 & Hu3) & Hc & Hg).
    destruct (G_new i j w1) as (m & w2 & Hm & (Hv1 & Hv2 & Hv3) & Hc2 & Hgm).
    exists (msgs ++ [m]), w2. split; [unfold bind; now rewrite Hm|].
    split; [rewrite length_app; simpl; lia|].
    split; [repeat split; congruence|].
    split; [lia|].
    apply Forall_app. split.
    + eapply Forall_impl; [exact Hg|]. intros m'. apply G_mono. lia.
    + constructor; [|constructor]. rewrite Hc2.
      apply (G_widen _ (clocks w1)); [exact Hc | exact Hgm].
  - repeat split; [lia | constructor].
  - exists ms, w'. rewrite length_seq in Hlen.
    repeat (split; [assumption|]); assumption.
Qed.

(** What [generateTestData] returns and leaves behind. *)
Lemma generateTestData_generic (numChats messagesPerChat : Z) (w : World St) :
  exists testData w',
    generateTestData env numChats messagesPerChat w = (Ok testData, w')
    /\ length testData = Z.to_nat numChats
    /\ Forall (fun chat =>
                 length (messages chat) = Z.to_nat messagesPerChat
                 /\ Forall (G (clocks w) (clocks w')) (messages chat))
              testData
    /\ untouched w w'.
Proof.
  unfold generateTestData.
  destruct (fold_m_invariant
    (fun k chats w' =>
       length chats = k /\ untouched w w' /\ (clocks w <= clocks w')%nat
       /\ Forall (fun chat =>
                    length (messages chat) = Z.to_nat messagesPerChat
                    /\ Forall (G (clocks w) (clocks w')) (messages chat))
                 chats)
    (fun testData i =>
       let* chatMessages :=
         fold_m (fun msgs j => let* m := new_message env i j in ret (msgs ++ [m]))
                [] (seq 0 (Z.to_nat messagesPerChat)) in
       ret (testData ++ [mkChat ("chat-" +:+ pretty (i + 1)%nat) chatMessages]))
    (seq 0 (Z.to_nat numChats)) 0%nat) with (acc := @nil Chat) (w := w)
    as (td & w' & Hf & Hlen & Hu & Hc & Hg).
  - intros k chats i w1 _ (Hlen & (Hu1 & Hu2 & Hu3) & Hc & Hg).
    destruct (chat_messages_generated i (Z.to_nat messagesPerChat) w1)
      as (ms & w2 & Hm & Hl & (Hv1 & Hv2 & Hv3) & Hc2 & Hgm).
    eexists. exists w2. split; [cbv beta; unfold bind at 1; rewrite Hm; reflexivity|].
    split; [rewrite length_app; simpl; lia|].
    split; [repeat split; congruence|].
    split; [lia|].
    apply Forall_app. split.
    + eapply Forall_impl; [exact Hg|]. intros chat [Hl' Hg'].
      split; [exact Hl'|]. eapply Forall_impl; [exact Hg'|].
      intros m. apply G_mono. lia.
    + constructor; [|constructor]. cbn [messages]. split; [exact Hl|].
      eapply Forall_impl; [exact Hgm|].
      intros m. apply G_widen. exact Hc.
  - repeat split; [lia | constructor].
  - exists td, w'. rewrite length_seq in Hlen.
    repeat (split; [assumption|]); assumption.
Qed.

End Property.

(** The generator always returns, with the requested shape. *)
Lemma generateTestData_shape (numChats messagesPerChat : Z) (w : World St) :
  exists testData w',
    generateTestData env numChats messagesPerChat w = (Ok testData, w')
    /\ length testData = Z.to_nat numChats
    /\ Forall (fun chat => length (messages chat) = Z.to_nat messagesPerChat)
              testData
    /\ untouched w w'.
Proof.
  destruct (generateTestData_generic (fun _ _ _ => True)) with
    (numChats := numChats) (messagesPerChat := messagesPerChat) (w := w)
    as (td & w' & H1 & H2 & H3 & H4); try easy.
  - apply new_message_returns.
  - exists td, w'. repeat (split; [assumption|]). split; [|assumption].
    eapply Forall_impl; [exact H3|]. now intros chat [? _].
Qed.

End Generator.

(** ** The report *)

Section Report.
Context {St : Type}.

Lemma seen_nil (w : World St) : seen w [] = w.
Proof. unfold seen. rewrite app_nil_r. now destruct w. Qed.

Lemma seen_seen (w : World St) (e1 e2 : list Event) :
  seen (seen w e1) e2 = seen w (e1 ++ e2).
Proof. unfold seen. cbn. now rewrite app_assoc. Qed.

Lemma console_seen (l : Line) (w : World St) :
  console l w = (Ok tt, seen w [Console l]).
Proof. reflexivity. Qed.

Lemma for_each_console {A} (g : A -> Line) (l : list A) :
  forall w : World St,
  for_each l (fun x => console (g x)) w
  = (Ok tt, seen w (map (fun x => Console (g x)) l)).
Proof.
  induction l as [|x l IH]; intros w; cbn [for_each map].
  - unfold ret. now rewrite seen_nil.
  - unfold bind. rewrite console_seen, IH, seen_seen. reflexivity.
Qed.

Lemma map_imap_pair {A B} (g : nat -> A -> B) (l : list A) :
  map (fun p => g (fst p) (snd p)) (imap (fun i x => (i, x)) l) = imap g l.
Proof.
  enough (H : forall h : nat -> nat,
            map (fun p => g (fst p) (snd p)) (imap (fun i x => (h i, x)) l)
            = imap (fun i => g (h i)) l) by apply (H (fun i => i)).
  induction l as [|x l IH]; intros h; [reflexivity|].
  cbn [imap map fst snd]. f_equal. apply (IH (fun i => h (S i))).
Qed.

Lemma for_each_indexed_console {A} (g : nat -> A -> Line) (l : list A)
    (w : World St) :
  for_each_indexed l (fun index x => console (g index x)) w
  = (Ok tt, seen w (map Console (imap g l))).
Proof.
  unfold for_each_indexed.
  rewrite (for_each_console (fun p => g (fst p) (snd p))).
  rewrite <- (map_imap_pair g l), map_map. reflexivity.
Qed.

Lemma bind_console {B} (l : Line) (k : unit -> M St B) (w : World St) :
  bind (console l) k w = k tt (seen w [Console l]).
Proof. reflexivity. Qed.

Lemma bind_ret {A B} (a : A) (k : A -> M St B) (w : World St) :
  bind (ret a) k w = k a w.
Proof. reflexivity. Qed.

Lemma bind_get_results {B} (k : PerWay WayResults -> M St B) (w : World St) :
  bind get_results k w = k (results w) w.
Proof. reflexivity. Qed.

Lemma bind_for_each_indexed_console {A B} (g : nat -> A -> Line) (l : list A)
    (k : unit -> M St B) (w : World St) :
  bind (for_each_indexed l (fun index x => console (g index x))) k w
  = k tt (seen w (map Console (imap g l))).
Proof. unfold bind. now rewrite for_each_indexed_console. Qed.

Lemma results_seen (w : World St) (evs : list Event) : results (seen w evs) = results w.
Proof. reflexivity. Qed.

(** The lines of one operation. *)
Lemma operation_block (operation : string) (w : World St) :
  (console (LOperation operation);;
   console LRule40;;
   let* res := get_results in
   for_each_indexed (ranking res operation)
     (fun index result => console (ranked_line index result))) w
  = (Ok tt, seen w (map Console (operation_lines (results w) operation))).
Proof.
  rewrite !bind_console, bind_get_results, results_seen.
  rewrite for_each_indexed_console, !seen_seen. reflexivity.
Qed.

Lemma operation_blocks (ops : list string) :
  forall w : World St,
  for_each ops (fun operation =>
    console (LOperation operation);;
    console LRule40;;
    let* res := get_results in
    for_each_indexed (ranking res operation)
      (fun index result => console (ranked_line index result))) w
  = (Ok tt, seen w (map Console (flat_map (operation_lines (results w)) ops))).
Proof.
  induction ops as [|op ops IH]; intros w; cbn [for_each flat_map].
  - unfold ret. now rewrite seen_nil.
  - unfold bind at 1. rewrite operation_block, IH, seen_seen, results_seen.
    now rewrite map_app.
Qed.

(** What [generateReport] prints, and when it throws. *)
Lemma generateReport_spec (w : World St) :
  generateReport w
  = match analyzeResults (results w) with
    | Ok recs =>
        (Ok tt, seen w (map Console (report_lines (results w)
                                     ++ recommendation_lines recs)))
    | Throw e => (Throw e, seen w (map Console (report_lines (results w))))
    end.
Proof.
  unfold generateReport, report_lines.
  rewrite !bind_console. unfold bind at 1.
  rewrite operation_blocks, !seen_seen, results_seen.
  rewrite !bind_console, bind_get_results, !seen_seen, results_seen.
  unfold lift, bind, recommendation_lines.
  destruct (analyzeResults (results w)) as [recs|e].
  - rewrite for_each_indexed_console, seen_seen. rewrite !map_app.
    repeat first [rewrite <- app_assoc | progress cbn [app map]].
    reflexivity.
  - rewrite !map_app.
    repeat first [rewrite <- app_assoc | progress cbn [app map]].
    reflexivity.
Qed.

End Report.

Section Analysis.

Lemma score_sum (res : PerWay WayResults) (way : Way) :
  score res way = sum (averages_of res way).
Proof.
  unfold score, averages_of, sum, operations. cbn [fold_left omap list_omap].
  repeat match goal with
  | |- context [bundles ?r !! ?k] =>
      destruct (bundles r !! k); cbn [fmap option_fmap option_map fold_left app
                                       option_bind mbind]
  end; reflexivity.
Qed.

Lemma collect_all (res : PerWay WayResults) (op : string) (b1 b2 b3 : Stats) :
  bundles (at1 res) !! op = Some b1 ->
  bundles (at2 res) !! op = Some b2 ->
  bundles (at3 res) !! op = Some b3 ->
  collect res op = [entry way1 b1; entry way2 b2; entry way3 b3].
Proof.
  intros H1 H2 H3. unfold collect, ways. cbn [flat_map get_way].
  now rewrite H1, H2, H3.
Qed.

Lemma three_sorted {A} (R : A -> A -> Prop) (l : list A) (x y z : A) :
  Permutation l [x; y; z] -> StronglySorted R l ->
  exists a b c, l = [a; b; c] /\ R a b /\ R b c.
Proof.
  intros Hp Hs. pose proof (Permutation_length Hp) as Hlen.
  destruct l as [|a [|b [|c [|d l]]]]; try discriminate.
  exists a, b, c. split; [reflexivity|].
  apply StronglySorted_inv in Hs. destruct Hs as [Hs Ha].
  apply StronglySorted_inv in Hs. destruct Hs as [_ Hb].
  split; [now inversion Ha | now inversion Hb].
Qed.

Lemma overallScores_proper (res : PerWay WayResults) :
  (forall way, is_nan (score res way) = false) ->
  proper snd (overallScores res).
Proof.
  intros H. unfold proper, overallScores, ways. cbn [map snd].
  repeat constructor; apply H.
Qed.

Lemma overall_least (res : PerWay WayResults) :
  (forall way, is_nan (score res way) = false) ->
  exists winner, overallWinner res = Ok winner
    /\ forall way, leb (score res winner) (score res way) = true.
Proof.
  intros Hnan. unfold overallWinner.
  pose proof (sort_perm (minus_by snd) (overallScores res)) as Hp.
  change (fun a b : Way * number => sub (snd a) (snd b)) with (minus_by (A := Way * number) snd).
  destruct (sort (minus_by snd) (overallScores res)) as [|first others] eqn:E.
  { apply Permutation_length in Hp. discriminate. }
  exists (fst first). split; [reflexivity|].
  assert (Hfirst : snd first = score res (fst first)).
  { assert (Hin : In first (overallScores res)).
    { eapply Permutation_in; [exact Hp | now left]. }
    unfold overallScores in Hin. apply in_map_iff in Hin.
    destruct Hin as (w & <- & _). reflexivity. }
  intros way. rewrite <- Hfirst.
  apply (sort_head_least snd (overallScores res) first others
           (overallScores_proper res Hnan) E (way, score res way)).
  unfold overallScores.
  apply (List.in_map (fun w => (w, score res w)) ways way).
  destruct way; simpl; tauto.
Qed.

Lemma winner_of_recorded (res : PerWay WayResults) (op : string) :
  collect res op <> [] -> exists w, winner_of res op = Ok w.
Proof.
  intros Hne. unfold winner_of, ranking, by_average.
  pose proof (sort_perm (fun a b => sub (avg a) (avg b)) (collect res op)) as Hp.
  destruct (sort _ (collect res op)) as [|first others].
  - apply Permutation_nil in Hp. congruence.
  - now exists (rway first).
Qed.

Lemma analyzeResults_head (res : PerWay WayResults) (recs : list Recommendation) :
  analyzeResults res = Ok recs ->
  exists winner rest, overallWinner res = Ok winner /\ recs = OverallBest winner :: rest.
Proof.
  unfold analyzeResults. intros H.
  destruct (winners_of res operations ∅) as [winners|]; [|discriminate].
  destruct (overallWinner res) as [winner|]; [|discriminate].
  destruct (winner_named winners "readMessages"); [|discriminate].
  destruct (winner_named winners "addMessage"); [|discriminate].
  destruct (winner_named winners "concurrentReads"); [|discriminate].
  injection H as <-. eauto.
Qed.

(** With every operation recorded for some variant, the analysis
    returns its four recommendations. *)
Lemma analyzeResults_returns (res : PerWay WayResults) :
  (forall op, In op operations -> collect res op <> []) ->
  exists recs, analyzeResults res = Ok recs /\ length recs = 4%nat.
Proof.
  intros H. unfold analyzeResults, operations. cbn [winners_of].
  destruct (winner_of_recorded res "addMessage") as [w1 ->]; [apply H; simpl; tauto|].
  destruct (winner_of_recorded res "readMessages") as [w2 ->]; [apply H; simpl; tauto|].
  destruct (winner_of_recorded res "editMessage") as [w3 ->]; [apply H; simpl; tauto|].
  destruct (winner_of_recorded res "deleteMessage") as [w4 ->]; [apply H; simpl; tauto|].
  destruct (winner_of_recorded res "concurrentReads") as [w5 ->]; [apply H; simpl; tauto|].
  assert (Hw : exists w, overallWinner res = Ok w).
  { unfold overallWinner.
    pose proof (sort_perm (fun a b : Way * number => sub (snd a) (snd b))
                  (overallScores res)) as Hp.
    destruct (sort _ (overallScores res)) as [|first others]; [|eauto].
    apply Permutation_length in Hp. discriminate. }
  destruct Hw as [w ->].
  unfold winner_named.
  rewrite (lookup_insert_ne _ "concurrentReads" "readMessages") by done.
  rewrite (lookup_insert_ne _ "deleteMessage" "readMessages") by done.
  rewrite (lookup_insert_ne _ "editMessage" "readMessages") by done.
  rewrite lookup_insert_eq.
  rewrite (lookup_insert_ne _ "concurrentReads" "addMessage") by done.
  rewrite (lookup_insert_ne _ "deleteMessage" "addMessage") by done.
  rewrite (lookup_insert_ne _ "editMessage" "addMessage") by done.
  rewrite (lookup_insert_ne _ "readMessages" "addMessage") by done.
  rewrite !lookup_insert_eq.
  eexists. split; reflexivity.
Qed.

End Analysis.

(** ** The full run *)

Section Run.
Context {St : Type}.
Variable env : Env.
Variable adapters : PerWay (Store.Adapter St).

Lemma issued_console (way : Way) (lines : list Line) :
  issued way (map Console lines) = [].
Proof. induction lines as [|l lines IH]; [reflexivity | exact IH]. Qed.

Lemma stages_quiet (lines : list Line) :
  Forall (fun l => stage_of (Console l) = []) lines ->
  stages (map Console lines) = [].
Proof.
  induction 1 as [|l lines Hl _ IH]; [reflexivity|].
  cbn [map stages flat_map]. fold (stages (map Console lines)).
  now rewrite Hl, IH.
Qed.

Lemma imap_quiet {A} (g : nat -> A -> Line) (l : list A) :
  (forall i x, stage_of (Console (g i x)) = []) ->
  Forall (fun line => stage_of (Console line) = []) (imap g l).
Proof.
  revert g. induction l as [|x l IH]; intros g Hg; cbn [imap]; constructor.
  - apply Hg.
  - apply IH. intros i y. apply Hg.
Qed.

Lemma report_stages (res : PerWay WayResults) (recs : list Recommendation) :
  stages (map Console (report_lines res ++ recommendation_lines recs)) = [SReport].
Proof.
  unfold report_lines. rewrite <- !app_assoc, map_app, stages_app.
  change (stages (map Console [LRule80; LReportTitle; LRule80])) with [SReport].
  rewrite stages_quiet; [reflexivity|].
  unfold operations, operation_lines, recommendation_lines. cbn [flat_map].
  repeat (apply Forall_app; split);
    try (apply imap_quiet; reflexivity);
    repeat constructor.
Qed.

Lemma went_report (w : World St) (recs : list Recommendation) :
  went w (seen w (map Console (report_lines (results w) ++ recommendation_lines recs)))
       [SReport] [].
Proof.
  eexists. split; [reflexivity|]. split; [apply report_stages|].
  intros way. apply issued_console.
Qed.

Lemma getStorageStats_spec (w : World St) :
  exists w', getStorageStats adapters w = (Ok tt, w')
    /\ went w w' [SStats] [CGetStats]
    /\ forall way, bundles (get_way (results w') way)
                   = bundles (get_way (results w) way).
Proof.
  unfold getStorageStats. cbn [for_each ways].
  unfold bind, console, emit, on_store, record_stats, ret.
  cbn [stores results events randoms clocks uuids get_way set_way at1 at2 at3].
  destruct (Store.getStats (at1 adapters) (at1 (stores w))) as [s1 st1].
  cbn [stores results events randoms clocks uuids get_way set_way at1 at2 at3].
  destruct (Store.getStats (at2 adapters) (at2 (stores w))) as [s2 st2].
  cbn [stores results events randoms clocks uuids get_way set_way at1 at2 at3].
  destruct (Store.getStats (at3 adapters) (at3 (stores w))) as [s3 st3].
  cbn [stores results events randoms clocks uuids get_way set_way at1 at2 at3].
  eexists. split; [reflexivity|]. split.
  - eexists. cbn [events]. split; [rewrite <- !app_assoc; reflexivity|].
    split; [reflexivity|]. intros way. destruct way; reflexivity.
  - intros way. destruct way; reflexivity.
Qed.

Lemma initialize_spec (w : World St) :
  (forall way, is_Some (Store.initialize (get_way adapters way)
                                        (get_way (stores w) way))) ->
  exists w', initialize adapters w = (Ok tt, w')
    /\ went w w' [SInitialize] [CInitialize]
    /\ results w' = results w.
Proof.
  intros H. unfold initialize, initialize_way.
  unfold bind, console, emit.
  cbn [stores results events randoms clocks uuids get_way set_way at1 at2 at3].
  destruct (H way1) as [s1 H1]. destruct (H way2) as [s2 H2].
  destruct (H way3) as [s3 H3]. cbn [get_way] in H1, H2, H3.
  rewrite H1.
  cbn [stores results events randoms clocks uuids get_way set_way at1 at2 at3].
  rewrite H2.
  cbn [stores results events randoms clocks uuids get_way set_way at1 at2 at3].
  rewrite H3.
  cbn [stores results events randoms clocks uuids get_way set_way at1 at2 at3].
  eexists. split; [reflexivity|]. split; [|reflexivity].
  eexists. cbn [events]. split; [rewrite <- !app_assoc; reflexivity|].
  split; [reflexivity|]. intros way. destruct way; reflexivity.
Qed.

Lemma close_way_spec (way : Way) (w : World St) :
  close_way adapters way w
  = (Ok tt,
     mkWorld (set_way (stores w) way
                (Store.close (get_way adapters way) (get_way (stores w) way)))
             (results w) (events w ++ [Issued way CClose])
             (randoms w) (clocks w) (uuids w)).
Proof. reflexivity. Qed.

Lemma cleanup_spec (w : World St) :
  exists w', cleanup adapters w = (Ok tt, w') /\ went w w' [SCleanup] [CClose].
Proof.
  unfold cleanup. rewrite bind_console.
  unfold bind at 1. rewrite close_way_spec.
  unfold bind at 1. rewrite close_way_spec.
  unfold bind at 1. rewrite close_way_spec.
  rewrite console_seen.
  eexists. split; [reflexivity|].
  eexists. cbn [events seen]. split; [rewrite <- ?app_assoc; reflexivity|].
  split; [reflexivity|]. intros way. destruct way; reflexivity.
Qed.

Lemma after_phase_recorded (header : Line) (operation : string)
    (done : Way -> list Call) (evs : Way -> list OpResult -> list Event)
    (w : World St) (way : Way) (op : string) :
  op = operation \/ is_Some (bundles (get_way (results w) way) !! op) ->
  is_Some (bundles (get_way (results (after_phase adapters header operation
                                        done evs w)) way) !! op).
Proof.
  intros H. unfold after_phase, after_way.
  cbn [ways fold_left stores results events randoms clocks uuids].
  destruct way; cbn [get_way set_way at1 at2 at3 bundles];
    apply lookup_insert_is_Some; destruct H as [-> | H]; auto;
    destruct (decide (operation = op)); auto.
Qed.

Lemma collect_recorded (res : PerWay WayResults) (op : string) :
  is_Some (bundles (get_way res way1) !! op) -> collect res op <> [].
Proof.
  intros [b Hb]. unfold collect, ways. cbn [flat_map]. now rewrite Hb.
Qed.

(** The full benchmark over at least one chat: it returns whatever the
    adapters answer, after the seven stages below. *)
Lemma runFullBenchmark_spec (numChats messagesPerChat : Z) (w : World St) :
  1 <= numChats ->
  exists testData w',
    runFullBenchmark env adapters numChats messagesPerChat w = (Ok (results w'), w')
    /\ length testData = Z.to_nat numChats
    /\ Forall (fun chat => length (messages chat) = Z.to_nat messagesPerChat)
              testData
    /\ went w w'
         [SPhase AddMessages; SPhase ReadMessages; SPhase EditMessages;
          SPhase DeleteMessages; SPhase ConcurrentReads; SStats; SReport]
         (add_calls testData ++ read_calls testData ++ edit_calls testData
          ++ delete_calls testData ++ concurrent_calls testData 50
          ++ [CGetStats]).
Proof.
  intros Hn. unfold runFullBenchmark. rewrite bind_console.
  set (w0 := seen w [Console (LStarting numChats messagesPerChat)]).
  destruct (generateTestData_shape env numChats messagesPerChat w0)
    as (td & w1 & Hgen & Hlen & Hshape & Hu1 & Hu2 & Hu3).
  assert (Hne : td <> []).
  { intros ->. simpl in Hlen. lia. }
  unfold bind at 1. rewrite Hgen.
  unfold bind at 1. rewrite benchmarkAddMessages_spec.
  set (w2 := after_phase _ _ "addMessage" _ _ w1).
  unfold bind at 1. rewrite benchmarkReadMessages_spec.
  set (w3 := after_phase _ _ "readMessages" _ _ w2).
  unfold bind at 1. rewrite benchmarkEditMessages_spec.
  set (w4 := after_phase _ _ "editMessage" _ _ w3).
  unfold bind at 1. rewrite benchmarkDeleteMessages_spec.
  set (w5 := after_phase _ _ "deleteMessage" _ _ w4).
  unfold bind at 1. rewrite (benchmarkConcurrentReads_spec env adapters td 50 w5 Hne).
  cbv zeta.
  set (w6 := after_phase _ _ "concurrentReads" _ _ w5).
  destruct (getStorageStats_spec w6) as (w7 & Hstats & Hwent7 & Hb7).
  unfold bind at 1. rewrite Hstats.
  unfold bind at 1. rewrite generateReport_spec.
  destruct (analyzeResults_returns (results w7)) as (recs & Hrecs & _).
  { intros op Hop. apply collect_recorded. rewrite Hb7.
    unfold operations in Hop. simpl in Hop.
    destruct Hop as [<- | [<- | [<- | [<- | [<- | []]]]]];
      unfold w6, w5, w4, w3, w2;
      repeat first [ apply after_phase_recorded; left; reflexivity
                   | apply after_phase_recorded; right ]. }
  rewrite Hrecs. unfold get_results.
  exists td, (seen w7 (map Console (report_lines (results w7)
                                    ++ recommendation_lines recs))).
  split; [reflexivity|]. split; [exact Hlen|]. split; [exact Hshape|].
  apply (went_on w w0 _ [] _ [] _ (went_console w _)).
  apply (went_on w0 w1 _ [] _ [] _ (went_nowhere w0 w1 Hu3)).
  apply (went_on w1 w2 _ _ _ _ _ (sequential_went adapters _ _ _ w1)).
  apply (went_on w2 w3 _ _ _ _ _ (sequential_went adapters _ _ _ w2)).
  apply (went_on w3 w4 _ _ _ _ _ (sequential_went adapters _ _ _ w3)).
  apply (went_on w4 w5 _ _ _ _ _ (sequential_went adapters _ _ _ w4)).
  apply (went_on w5 w6 _ _ _ _ _ (concurrent_went adapters _ _ _ _ w5)).
  apply (went_on w6 w7 _ [SStats] [SReport] [CGetStats] [] Hwent7).
  apply went_report.
Qed.

End Run.

End BenchFacts.

(* ===================================================================== *)
(** * The benchmark against its specification *)
(* ===================================================================== *)

Module Conformance.
Import JSNumber JSNumberFacts Bench BenchFacts Samples.
Local Open Scope bench_scope.

(** ** Helpers on bundles *)

Lemma successes_none (rs : list OpResult) :
  Forall (fun r => success r = false) rs -> successes rs = [].
Proof.
  unfold successes. induction 1 as [|r rs Hr _ IH]; [reflexivity|].
  cbn [List.filter]. now rewrite Hr.
Qed.

Lemma successes_some (rs : list OpResult) :
  Exists (fun r => success r = true) rs -> successes rs <> [].
Proof.
  unfold successes. induction 1 as [r rs Hr | r rs _ IH]; cbn [List.filter].
  - now rewrite Hr.
  - destruct (success r); [discriminate | exact IH].
Qed.

Lemma successes_Forall (P : number -> Prop) (rs : list OpResult) :
  Forall (fun r => P (duration r)) rs -> Forall P (successes rs).
Proof.
  unfold successes. induction 1 as [|r rs Hr _ IH]; [constructor|].
  cbn [List.filter]. destruct (success r); [now constructor | exact IH].
Qed.


Lemma sum_finite (l : list number) :
  Forall (fun d => is_finite d = true) l -> is_finite (sum l) = true.
Proof.
  unfold sum, zero. generalize 0%Q as acc.
  induction l as [|d l IH]; intros acc Hl; [reflexivity|].
  inversion Hl as [|? ? Hd Hrest]; subst. destruct d; try discriminate.
  cbn [fold_left add]. now apply IH.
Qed.

Lemma div_by_length (a : number) (n : nat) :
  is_finite a = true -> is_finite (div a (of_nat (S n))) = true.
Proof.
  destruct a; try discriminate. intros _. unfold of_nat. cbn [div].
  destruct (Qeq_bool (inject_Z (Z.of_nat (S n))) 0) eqn:E; [|reflexivity].
  apply Qeq_bool_eq in E. unfold Qeq, inject_Z in E. simpl in E. lia.
Qed.

Lemma finite_no_nan (l : list number) :
  Forall (fun d => is_finite d = true) l -> no_nan l.
Proof.
  intros H. eapply Forall_impl; [exact H|]. intros d Hd. now destruct d.
Qed.


(** With at least one finite duration, the bundle holds finite numbers. *)
Lemma bundle_finite (ds : list number) :
  ds <> [] -> Forall (fun d => is_finite d = true) ds ->
  is_finite (average (bundle ds)) = true
  /\ is_finite (min (bundle ds)) = true
  /\ is_finite (max (bundle ds)) = true.
Proof.
  intros Hne Hfin. cbn [bundle average min max].
  destruct (Math_min_spec ds (finite_no_nan ds Hfin)) as [_ Hmin].
  destruct (Math_max_spec ds (finite_no_nan ds Hfin)) as [_ Hmax].
  rewrite List.Forall_forall in Hfin.
  split; [|split; apply Hfin; auto].
  destruct ds as [|d ds]; [congruence|]. cbn [length].
  apply div_by_length, sum_finite. now apply List.Forall_forall.
Qed.

(** ** C1 *)




(** ** C2 *)

(** C2: whatever the adapters answer, a phase returns; every call of the
    phase is issued to the variant exactly once and in order, so that a
    failure neither repeats a call nor stops the calls after it; every
    call is answered; and the bundle is computed from the durations of
    the successful answers only.  The full benchmark over at least one
    chat returns as well, whatever fails. *)
Theorem C2_failures_are_skipped {St} (env : Env) (adapters : PerWay (Store.Adapter St))
    (n : nat) (ph : Phase) (testData : list Chat) (w : World St) (way : Way) :
  (ph = ConcurrentReads -> testData <> []) ->
  exists w' b,
    benchmark env adapters n ph testData w = (Ok tt, w')
    /\ issued way (observed w w') = calls_of n ph testData
    /\ length (settled way (observed w w')) = length (calls_of n ph testData)
    /\ bundles (get_way (results w') way) !! operation_of ph = Some b
    /\ b = bundle (map duration (List.filter success (settled way (observed w w'))))
    /\ (forall numChats messagesPerChat, 1 <= numChats ->
        exists res w'',
          runFullBenchmark env adapters numChats messagesPerChat w = (Ok res, w'')).
Proof.
  intros Hne.
  destruct (benchmark_reading env adapters n ph testData w way Hne)
    as (w' & Hrun & Hissued & Hset & Hb).
  exists w', (bundle (successes (settled way (observed w w')))).
  split; [exact Hrun|]. split; [exact Hissued|].
  split.
  { rewrite Hset, run_calls_length.
    apply Permutation_length, served_perm. }
  split; [exact Hb|]. split; [reflexivity|].
  intros numChats messagesPerChat Hn.
  destruct (runFullBenchmark_spec env adapters numChats messagesPerChat w Hn)
    as (td & w'' & Hfull & _).
  eauto.
Qed.

(** C2 at work, on the second sample variant, which fails every call:
    its four adds are all issued, none is counted. *)
Lemma C2_witness :
  exists w' b,
    benchmark env_fifo flaky 50 AddMessages two_chats start = (Ok tt, w')
    /\ issued way2 (observed start w') = add_calls two_chats
    /\ length (settled way2 (observed start w')) = 4%nat
    /\ bundles (get_way (results w') way2) !! "addMessage" = Some b
    /\ count b = 0%nat.
Proof.
  destruct (C2_failures_are_skipped env_fifo flaky 50 AddMessages two_chats
              start way2) as (w' & b & Hrun & Hi & Hs & Hb & Hdef & _).
  { discriminate. }
  exists w', b. split; [exact Hrun|]. split; [exact Hi|]. split; [exact Hs|].
  split; [exact Hb|].
  assert (Hw : w' = snd (benchmark env_fifo flaky 50 AddMessages two_chats start))
    by (rewrite Hrun; reflexivity).
  rewrite Hdef, Hw. vm_compute. reflexivity.
Defined.

(** ** C3 *)




(** ** C4 *)

Lemma overallWinner_averages (res res' : PerWay WayResults) :
  (forall way, averages_of res' way = averages_of res way) ->
  overallWinner res' = overallWinner res.
Proof.
  intros H. unfold overallWinner, overallScores, ways. cbn [map].
  now rewrite !score_sum, !H.
Qed.

(** What the sort of the scores is written for.  The score of a variant
    is the sum of the averages recorded for it; when the three scores
    are numbers (none is [NaN]), the overall winner is a variant whose
    score is least, it heads the recommendations, and it is the same
    for any results with the same averages. *)
Lemma overallWinner_of_numbers (res : PerWay WayResults) :
  (forall way, is_nan (score res way) = false) ->
  exists winner,
    overallWinner res = Ok winner
    /\ (forall way, score res way = sum (averages_of res way))
    /\ (forall way, leb (score res winner) (score res way) = true)
    /\ (forall recs, analyzeResults res = Ok recs ->
        exists rest, recs = OverallBest winner :: rest)
    /\ (forall res', (forall way, averages_of res' way = averages_of res way) ->
        overallWinner res' = Ok winner).
Proof.
  intros Hnan. destruct (overall_least res Hnan) as (winner & Hw & Hleast).
  exists winner. split; [exact Hw|]. split; [apply score_sum|].
  split; [exact Hleast|]. split.
  - intros recs Hrecs.
    destruct (analyzeResults_head res recs Hrecs) as (w' & rest & Hw' & ->).
    rewrite Hw in Hw'. injection Hw' as <-. now exists rest.
  - intros res' Hsame. now rewrite (overallWinner_averages res res' Hsame).
Qed.

(** On the sample with proper averages the second variant has the least
    sum. *)
Lemma overallWinner_of_numbers_example :
  exists winner,
    overallWinner all_succeeded = Ok winner /\ winner = way2.
Proof.
  destruct (overallWinner_of_numbers all_succeeded) as (winner & Hw & _).
  { intros way. destruct way; vm_compute; reflexivity. }
  exists winner. split; [exact Hw|].
  vm_compute in Hw. now injection Hw as <-.
Qed.

(** C4: the variant named overall best is not the one with the least
    sum once a variant has had no successful call.  The average of an
    empty list of durations is [0 / 0], the sum of that variant is
    [NaN], and the comparator [a[1] - b[1]] answers [NaN] next to it,
    which the sort reads as a tie.  With the averages 2, [NaN] and 1
    recorded for every operation the sums are 10, [NaN] and 5, and
    [analyzeResults] names the first variant although the sum of the
    third is lower.  A run over one chat of one message, in which the
    second variant answers every call with a failure, records such
    results and prints that recommendation. *)
Theorem C4_overall_best_beside_a_failed_variant :
  map (score one_variant_failed) ways = [of_nat 10; NaN; of_nat 5]
  /\ overallWinner one_variant_failed = Ok way1
  /\ ltb (score one_variant_failed way3) (score one_variant_failed way1) = true
  /\ (exists rest, analyzeResults one_variant_failed = Ok (OverallBest way1 :: rest))
  /\ let out := runFullBenchmark env_fifo second_never_succeeds 1 1 start in
     let res := results (snd out) in
     fst out = Ok res
     /\ map (averages_of res) ways
        = [[Fin 2; Fin 2; Fin 2; Fin 2; Fin (100 # 50)];
           [NaN; NaN; NaN; NaN; NaN];
           [Fin 1; Fin 1; Fin 1; Fin 1; Fin (50 # 50)]]
     /\ map (score res) ways = [Fin (500 # 50); NaN; Fin (250 # 50)]
     /\ ltb (score res way3) (score res way1) = true
     /\ overallWinner res = Ok way1
     /\ In (LRecommendation 1 (OverallBest way1)) (printed (events (snd out))).
Proof.
  split; [vm_compute; reflexivity|]. split; [vm_compute; reflexivity|].
  split; [vm_compute; reflexivity|].
  split; [eexists; vm_compute; reflexivity|].
  cbv zeta.
  split; [vm_compute; reflexivity|]. split; [vm_compute; reflexivity|].
  split; [vm_compute; reflexivity|]. split; [vm_compute; reflexivity|].
  split; [vm_compute; reflexivity|].
  vm_compute. repeat first [left; reflexivity | right].
Qed.

(** ** C5 *)

Lemma report_prints (res : PerWay WayResults) (op : string) :
  In op operations ->
  exists before after, report_lines res = before ++ operation_lines res op ++ after.
Proof.
  intros Hop. unfold report_lines.
  apply in_split in Hop. destruct Hop as (l1 & l2 & ->).
  rewrite flat_map_app. cbn [flat_map].
  exists ([LRule80; LReportTitle; LRule80] ++ flat_map (operation_lines res) l1).
  eexists. rewrite <- !app_assoc. reflexivity.
Qed.

(** What the sort of a ranking is written for.  When the three variants
    have a bundle for the operation and the three averages are numbers
    (none is [NaN]), the report lists the three variants, each once,
    with the averages in ascending order: gold, silver, bronze; these
    are the lines [generateReport] prints for the operation. *)
Lemma ranking_of_numbers (res : PerWay WayResults) (op : string)
    (b1 b2 b3 : Stats) :
  bundles (at1 res) !! op = Some b1 ->
  bundles (at2 res) !! op = Some b2 ->
  bundles (at3 res) !! op = Some b3 ->
  is_nan (average b1) = false ->
  is_nan (average b2) = false ->
  is_nan (average b3) = false ->
  exists r1 r2 r3,
    ranking res op = [r1; r2; r3]
    /\ Permutation [r1; r2; r3] [entry way1 b1; entry way2 b2; entry way3 b3]
    /\ leb (avg r1) (avg r2) = true
    /\ leb (avg r2) (avg r3) = true
    /\ operation_lines res op
       = [LOperation op; LRule40;
          LRanked Gold (rway r1) (avg r1) (rmin r1) (rmax r1);
          LRanked Silver (rway r2) (avg r2) (rmin r2) (rmax r2);
          LRanked Bronze (rway r3) (avg r3) (rmin r3) (rmax r3)]
    /\ (In op operations ->
        forall St (w : World St), results w = res ->
        exists before after,
          events (snd (generateReport w))
          = events w ++ map Console (before ++ operation_lines res op ++ after)).
Proof.
  intros H1 H2 H3 N1 N2 N3.
  pose proof (collect_all res op b1 b2 b3 H1 H2 H3) as Hc.
  assert (Hp : Permutation (ranking res op)
                 [entry way1 b1; entry way2 b2; entry way3 b3]).
  { unfold ranking, by_average. rewrite <- Hc. apply sort_perm. }
  assert (Hs : StronglySorted (le_by avg) (ranking res op)).
  { unfold ranking, by_average. apply (sort_sorted avg). rewrite Hc.
    repeat constructor; assumption. }
  destruct (three_sorted _ _ _ _ _ Hp Hs) as (r1 & r2 & r3 & Hr & R12 & R23).
  exists r1, r2, r3. split; [exact Hr|].
  split; [now rewrite <- Hr|]. split; [exact R12|]. split; [exact R23|].
  split; [unfold operation_lines; now rewrite Hr|].
  intros Hop St w <-.
  destruct (report_prints (results w) op Hop) as (before & after & Hlines).
  rewrite generateReport_spec.
  destruct (analyzeResults (results w)) as [recs|e]; cbn [snd seen events].
  - exists before, (after ++ recommendation_lines recs).
    now rewrite Hlines, <- !app_assoc.
  - exists before, after. now rewrite Hlines.
Qed.

(** The sample with three proper averages (3, 1.5, 2). *)
Lemma ranking_of_numbers_example :
  exists r1 r2 r3,
    ranking all_succeeded "addMessage" = [r1; r2; r3]
    /\ map rway [r1; r2; r3] = [way2; way3; way1].
Proof.
  destruct (ranking_of_numbers all_succeeded "addMessage"
              (bundle [of_nat 3]) (bundle [of_nat 1; of_nat 2]) (bundle [of_nat 2]))
    as (r1 & r2 & r3 & Hr & _); try reflexivity.
  exists r1, r2, r3. split; [exact Hr|].
  rewrite <- Hr. vm_compute. reflexivity.
Qed.

(** C5: the ranking of an operation is not in ascending order of the
    averages once a variant has had no successful call in its phase.
    Its average is [0 / 0], and the comparator [a.avg - b.avg] answers
    [NaN] next to it, which the sort reads as a tie, against the comment
    "Sort by average performance (lower is better)".  With the averages
    2, [NaN] and 1 recorded for the three variants the report lists the
    first variant (2 ms) before the third (1 ms).  A run over one chat
    of one message, in which the second variant answers every call with
    a failure, records such averages and prints that ranking. *)
Theorem C5_ranking_beside_a_failed_variant :
  (forall way, is_Some (bundles (get_way one_variant_failed way) !! "addMessage"))
  /\ map rway (ranking one_variant_failed "addMessage") = [way1; way2; way3]
  /\ map avg (ranking one_variant_failed "addMessage") = [of_nat 2; NaN; of_nat 1]
  /\ ltb (of_nat 1) (of_nat 2) = true
  /\ ~ StronglySorted (le_by avg) (ranking one_variant_failed "addMessage")
  /\ let out := runFullBenchmark env_fifo second_never_succeeds 1 1 start in
     let res := results (snd out) in
     fst out = Ok res
     /\ operation_lines res "addMessage"
        = [LOperation "addMessage"; LRule40;
           LRanked Gold way1 (Fin 2) (Fin 2) (Fin 2);
           LRanked Silver way2 NaN PosInf NegInf;
           LRanked Bronze way3 (Fin 1) (Fin 1) (Fin 1)]
     /\ exists before after,
          printed (events (snd out))
          = before ++ operation_lines res "addMessage" ++ after.
Proof.
  split; [intros way; destruct way; vm_compute; eauto|].
  split; [vm_compute; reflexivity|]. split; [vm_compute; reflexivity|].
  split; [reflexivity|].
  split; [|cbv zeta; split; [vm_compute; reflexivity|];
           split; [vm_compute; reflexivity|];
           exists (take 43 (printed (events (snd (runFullBenchmark env_fifo
                     second_never_succeeds 1 1 start))))),
                  (drop 48 (printed (events (snd (runFullBenchmark env_fifo
                     second_never_succeeds 1 1 start)))));
           vm_compute; reflexivity].
  intros Hs.
  assert (E : ranking one_variant_failed "addMessage"
              = [mkRanked way1 (of_nat 2) (of_nat 2) (of_nat 2);
                 mkRanked way2 NaN PosInf NegInf;
                 mkRanked way3 (of_nat 1) (of_nat 1) (of_nat 1)])
    by (vm_compute; reflexivity).
  rewrite E in Hs. apply StronglySorted_inv in Hs. destruct Hs as [_ Hall].
  inversion Hall as [|? ? Hbad _]. discriminate Hbad.
Qed.

(** ** C6 *)

(** C6: for counts that are not negative and random draws in [[0, 1)],
    the generator returns [numChats] chats of [messagesPerChat] messages
    each; every message has one of the five senders, a timestamp within
    the 24 hours before a clock reading taken during the call, and the
    type [text]; no adapter, result or observer is touched. *)
Theorem C6_generated_test_data {St} (env : Env) (numChats messagesPerChat : Z)
    (w : World St) :
  0 <= numChats -> 0 <= messagesPerChat -> unit_interval env ->
  exists testData w',
    generateTestData env numChats messagesPerChat w = (Ok testData, w')
    /\ Z.of_nat (length testData) = numChats
    /\ Forall (fun chat =>
                 Z.of_nat (length (messages chat)) = messagesPerChat
                 /\ Forall (generated env (clocks w) (clocks w')) (messages chat))
              testData
    /\ untouched w w'.
Proof.
  intros Hn Hm Hrandom.
  destruct (generateTestData_generic (St := St) env (generated env)) with
    (numChats := numChats) (messagesPerChat := messagesPerChat) (w := w)
    as (td & w' & Hrun & Hlen & Hall & Hu).
  - intros lo hi hi' m. apply generated_mono.
  - intros lo lo' hi m Hlo (Hs & Ht & k & Hk & Hw).
    repeat split; try assumption. exists k. split; [lia | exact Hw].
  - intros i j w0. now apply new_message_generated.
  - exists td, w'. split; [exact Hrun|]. split; [lia|]. split; [|exact Hu].
    eapply Forall_impl; [exact Hall|]. intros chat [Hl Hg]. split; [lia | exact Hg].
Qed.

Lemma env_fifo_unit_interval : unit_interval env_fifo.
Proof. intros k. split; unfold Qle, Qlt; simpl; lia. Qed.

(** C6 at work: two chats of three messages. *)
Lemma C6_witness :
  exists testData w',
    generateTestData env_fifo 2 3 start = (Ok testData, w')
    /\ Z.of_nat (length testData) = 2
    /\ Forall (fun chat =>
                 Z.of_nat (length (messages chat)) = 3
                 /\ Forall (generated env_fifo (clocks start) (clocks w'))
                           (messages chat))
              testData
    /\ untouched start w'.
Proof.
  apply (C6_generated_test_data env_fifo 2 3 start); [lia | lia |].
  apply env_fifo_unit_interval.
Defined.

(** ** C7 *)

(** C7 (amended): with at least one chat, the concurrent phase returns;
    for each variant it issues exactly [concurrentUsers] reads, all of
    them before the first one settles; every read settles, once, in the
    order in which the environment completes them; the bundle is
    computed from all the results, and the durations it is computed
    from are in completion order. *)
Theorem C7_reads_gathered_in_completion_order {St} (env : Env)
    (adapters : PerWay (Store.Adapter St)) (testData : list Chat)
    (concurrentUsers : nat) (w : World St) (way : Way) :
  testData <> [] ->
  exists w' rs,
    benchmarkConcurrentReads env adapters testData concurrentUsers w = (Ok tt, w')
    /\ length (concurrent_calls testData concurrentUsers) = concurrentUsers
    /\ Permutation (completions env way concurrentUsers) (seq 0 concurrentUsers)
    /\ length rs = concurrentUsers
    /\ share way (observed w w')
       = map (Issued way) (concurrent_calls testData concurrentUsers)
         ++ map (fun cr => Settled way (fst cr) (snd cr))
                (zip (at_positions (concurrent_calls testData concurrentUsers)
                                   (completions env way concurrentUsers))
                     rs)
    /\ bundles (get_way (results w') way) !! "concurrentReads"
       = Some (bundle (successes rs)).
Proof.
  intros Hne.
  destruct (concurrent_share env adapters concurrentUsers testData w way Hne)
    as (w' & Hrun & Hshare & Hlen & Hb).
  cbn [served] in Hshare, Hlen, Hb.
  pose proof (concurrent_calls_length testData concurrentUsers Hne) as Hn.
  rewrite Hn in Hshare, Hlen, Hb.
  eexists w', _. split; [exact Hrun|]. split; [exact Hn|].
  split; [apply completions_perm|].
  split; [|split; [exact Hshare | exact Hb]].
  rewrite Hlen.
  pose proof (Permutation_length
                (completed_perm env way (concurrent_calls testData concurrentUsers)))
    as Hp.
  rewrite Hn in Hp. exact Hp.
Qed.

(** C7 at work: two readers over the two sample chats. *)
Lemma C7_witness :
  exists w' rs,
    benchmarkConcurrentReads env_lifo by_chats two_chats 2 start = (Ok tt, w')
    /\ length rs = 2%nat
    /\ bundles (get_way (results w') way1) !! "concurrentReads"
       = Some (bundle (successes rs)).
Proof.
  destruct (C7_reads_gathered_in_completion_order env_lifo by_chats two_chats 2
              start way1) as (w' & rs & Hrun & _ & _ & Hlen & _ & Hb).
  { discriminate. }
  exists w', rs. auto.
Defined.

(** C7 as stated fails on the order of the durations: two readers read
    [chat-1] (1 ms) and [chat-2] (2 ms), issued in this order; the
    second read completes first, and the durations gathered are 2, 1:
    completion order, not issue order. *)
Lemma C7_counterexample :
  let w' := snd (benchmarkConcurrentReads env_lifo by_chats two_chats 2 start) in
  issued way1 (events w') = [read_call "chat-1"; read_call "chat-2"]
  /\ map (fun c => duration (snd (perform by_chat c 0%nat))) (issued way1 (events w'))
     = [of_nat 1; of_nat 2]
  /\ successes (settled way1 (events w')) = [of_nat 2; of_nat 1]
  /\ (total <$> bundles (get_way (results w') way1) !! "concurrentReads")
     = Some (of_nat 3).
Proof. vm_compute. repeat split; reflexivity. Qed.

(** Without any chat the phase throws before it issues a read. *)
Lemma concurrent_reads_need_a_chat :
  let out := benchmarkConcurrentReads env_lifo by_chats [] 2 start in
  fst out = Throw (TypeError "Cannot read properties of undefined (reading 'chatId')")
  /\ issued way1 (events (snd out)) = [].
Proof. vm_compute. split; reflexivity. Qed.

(** ** C8 *)

(** C8: deleting a message always reports success, whether the
    identifier is stored or not; afterwards the identifier is absent
    and the other messages are kept; deleting an absent identifier
    leaves the store as it is, so that deleting twice leaves the same
    store as deleting once. *)
Theorem C8_deleteMessage_idempotent (elapsed : number) (chatId messageId : string)
    (s : MockIDB.objectStore (V := Message)) :
  let once := MessageStore.deleteMessage elapsed chatId messageId s in
  let twice := MessageStore.deleteMessage elapsed chatId messageId (fst once) in
  success (snd once) = true
  /\ success (snd twice) = true
  /\ fst twice = fst once
  /\ MockIDB.get (Some messageId) (fst once) = None
  /\ (forall other, other <> Some messageId ->
      MockIDB.get other (fst once) = MockIDB.get other s)
  /\ (MockIDB.get (Some messageId) s = None ->
      fst once = s /\ success (snd once) = true).
Proof.
  cbn zeta. unfold MessageStore.deleteMessage. cbn [fst snd success].
  destruct (MockIDBFacts.delete_request (Some messageId) s) as (H1 & H2 & H3 & H4).
  repeat split; auto.
Qed.

(** C8 at work: [m9] is not among the three stored messages. *)
Lemma C8_witness :
  let once := MessageStore.deleteMessage zero "chat-1" "m9" three_messages in
  MockIDB.get (Some "m9"%string) three_messages = None
  /\ fst once = three_messages
  /\ success (snd once) = true.
Proof.
  destruct (C8_deleteMessage_idempotent zero "chat-1" "m9" three_messages)
    as (_ & _ & _ & _ & _ & Habsent).
  assert (H : MockIDB.get (Some "m9"%string) three_messages = None)
    by (vm_compute; reflexivity).
  destruct (Habsent H) as [H1 H2]. auto.
Defined.

(** ** C9 *)

(** C9 (amended): [open] opens or creates: afterwards the database
    exists; a database that was absent is created empty at the version
    asked; a database that exists is left as it is, whatever version is
    asked, and so are the other databases.  The upgrade handler, when
    one is attached, is called on every [open], before the success
    handler. *)
Theorem C9_open_or_create {V C} (dbName : string) (ver : Z)
    (req : MockIDB.request (V := V) (C := C)) (h : MockIDB.heap) :
  is_Some (MockIDB.ensure dbName ver (MockIDB.dbs h) !! dbName)
  /\ (MockIDB.dbs h !! dbName = None ->
      MockIDB.ensure dbName ver (MockIDB.dbs h) !! dbName
      = Some (MockIDB.mkDatabase dbName ver ∅))
  /\ (forall db, MockIDB.dbs h !! dbName = Some db ->
      MockIDB.ensure dbName ver (MockIDB.dbs h) = MockIDB.dbs h)
  /\ (forall other, other <> dbName ->
      MockIDB.ensure dbName ver (MockIDB.dbs h) !! other = MockIDB.dbs h !! other)
  /\ (forall handler, MockIDB.onupgradeneeded req = Some handler ->
      MockIDB.open dbName ver req h
      = MockIDB.fire_success req
          (handler dbName
             (MockIDB.mkHeap (MockIDB.ensure dbName ver (MockIDB.dbs h))
                             (MockIDB.caller h))))
  /\ (MockIDB.onupgradeneeded req = None ->
      MockIDB.open dbName ver req h
      = MockIDB.fire_success req
          (MockIDB.mkHeap (MockIDB.ensure dbName ver (MockIDB.dbs h))
                          (MockIDB.caller h))).
Proof.
  unfold MockIDB.open, MockIDB.fire_upgrade, MockIDB.ensure.
  destruct (MockIDB.dbs h !! dbName) as [db|] eqn:E; cbv iota;
    unfold MockIDB.databases.
  - split; [eauto|]. split; [discriminate|]. split; [reflexivity|].
    split; [reflexivity|].
    split; [intros handler ->; reflexivity | intros ->; reflexivity].
  - split; [rewrite lookup_insert_eq; eauto|].
    split; [intros _; apply lookup_insert_eq|]. split; [discriminate|].
    split; [intros other Hother; now apply lookup_insert_ne|].
    split; [intros handler ->; reflexivity | intros ->; reflexivity].
Qed.

(** C9 at work: the first [open] of the sample caller creates the
    database and calls the upgrade handler. *)
Lemma C9_witness :
  MockIDB.ensure "chat-db" 1 (MockIDB.dbs no_database) !! "chat-db"
  = Some (MockIDB.mkDatabase "chat-db" 1 ∅)
  /\ MockIDB.caller (MockIDB.open "chat-db" 1 counting_upgrades no_database) = 1%nat.
Proof.
  destruct (C9_open_or_create "chat-db" 1 counting_upgrades no_database)
    as (_ & Hcreate & _ & _ & Hfire & _).
  split; [apply Hcreate; reflexivity|].
  rewrite (Hfire _ eq_refl). reflexivity.
Defined.

(** C9 as stated fails: the database created at version 1 is opened
    again at version 1, and the upgrade handler runs a second time; it
    runs a third time on an [open] at version 2, which leaves the
    recorded version at 1. *)
Lemma C9_counterexample :
  let h1 := MockIDB.open "chat-db" 1 counting_upgrades no_database in
  let h2 := MockIDB.open "chat-db" 1 counting_upgrades h1 in
  let h3 := MockIDB.open "chat-db" 2 counting_upgrades h2 in
  (MockIDB.version <$> MockIDB.dbs h1 !! "chat-db") = Some 1
  /\ MockIDB.caller h1 = 1%nat
  /\ (MockIDB.version <$> MockIDB.dbs h2 !! "chat-db") = Some 1
  /\ MockIDB.caller h2 = 2%nat
  /\ (MockIDB.version <$> MockIDB.dbs h3 !! "chat-db") = Some 1
  /\ MockIDB.caller h3 = 3%nat.
Proof. vm_compute. repeat split; reflexivity. Qed.

(** ** C10 *)

(** C10: in every phase, a variant whose calls all failed gets a bundle
    computed from an empty list of durations: the average is [0 / 0],
    that is [NaN], the minimum is [+Infinity] and the maximum
    [-Infinity]; as soon as one call succeeded, and the adapter reports
    finite durations, the three are finite numbers. *)
Theorem C10_no_success_no_statistics {St} (env : Env)
    (adapters : PerWay (Store.Adapter St)) (n : nat) (ph : Phase)
    (testData : list Chat) (w : World St) (way : Way) :
  (ph = ConcurrentReads -> testData <> []) ->
  exists w' b,
    benchmark env adapters n ph testData w = (Ok tt, w')
    /\ bundles (get_way (results w') way) !! operation_of ph = Some b
    /\ (Forall (fun r => success r = false) (settled way (observed w w')) ->
        average b = div zero (of_nat 0) /\ average b = NaN
        /\ min b = PosInf /\ max b = NegInf /\ count b = 0%nat)
    /\ (Exists (fun r => success r = true) (settled way (observed w w')) ->
        Forall (fun r => is_finite (duration r) = true) (settled way (observed w w')) ->
        is_finite (average b) = true /\ is_finite (min b) = true
        /\ is_finite (max b) = true).
Proof.
  intros Hne.
  destruct (benchmark_reading env adapters n ph testData w way Hne)
    as (w' & Hrun & _ & _ & Hb).
  exists w', (bundle (successes (settled way (observed w w')))).
  split; [exact Hrun|]. split; [exact Hb|]. split.
  - intros Hall. rewrite (successes_none _ Hall). now repeat split.
  - intros Hsome Hfin. apply bundle_finite.
    + now apply successes_some.
    + now apply successes_Forall.
Qed.

(** C10 at work: the second sample variant fails every call, so its
    [addMessage] bundle holds [NaN], [+Infinity] and [-Infinity]. *)
Lemma C10_witness :
  exists w' b,
    benchmark env_fifo flaky 50 AddMessages two_chats start = (Ok tt, w')
    /\ bundles (get_way (results w') way2) !! "addMessage" = Some b
    /\ average b = NaN /\ min b = PosInf /\ max b = NegInf.
Proof.
  destruct (C10_no_success_no_statistics env_fifo flaky 50 AddMessages two_chats
              start way2) as (w' & b & Hrun & Hb & Hnone & _).
  { discriminate. }
  exists w', b. split; [exact Hrun|]. split; [exact Hb|].
  assert (Hw : w' = snd (benchmark env_fifo flaky 50 AddMessages two_chats start))
    by (rewrite Hrun; reflexivity).
  destruct Hnone as (_ & H1 & H2 & H3 & _); [|auto].
  rewrite Hw. vm_compute. repeat constructor.
Defined.

End Conformance.

(* ===================================================================== *)
(** * Laws of the in-memory IndexedDB *)
(* ===================================================================== *)

Module MockIDBLaws.
Import JSNumber Bench MockIDB MockIDBFacts Samples.

Section Maps.
Context {V : Type} (prop : V -> string -> option string).

Lemma map_get_set (k : key) (v : V) (m : list (key * V)) :
  map_get k (map_set k v m) = Some v.
Proof.
  induction m as [|[k' v'] m IH]; cbn [map_set map_get].
  - now rewrite decide_True.
  - destruct (decide (k' = k)) as [E|E]; cbn [map_get].
    + now rewrite decide_True.
    + now rewrite decide_False.
Qed.

Lemma map_get_set_other (k k' : key) (v : V) (m : list (key * V)) :
  k' <> k -> map_get k' (map_set k v m) = map_get k' m.
Proof.
  intros Hne. induction m as [|[k0 v0] m IH]; cbn [map_set map_get].
  - rewrite decide_False; [reflexivity | congruence].
  - destruct (decide (k0 = k)) as [E|E]; cbn [map_get].
    + subst k0. rewrite !decide_False by congruence. reflexivity.
    + now rewrite IH.
Qed.

Lemma map_set_absent (k : key) (v : V) (m : list (key * V)) :
  map_get k m = None -> map_set k v m = m ++ [(k, v)].
Proof.
  induction m as [|[k' v'] m IH]; cbn [map_set map_get app]; [reflexivity|].
  destruct (decide (k' = k)); [discriminate|]. intros H. now rewrite IH.
Qed.

Lemma map_set_set (k : key) (v1 v2 : V) (m : list (key * V)) :
  map_set k v2 (map_set k v1 m) = map_set k v2 m.
Proof.
  induction m as [|[k' v'] m IH]; cbn [map_set].
  - now rewrite decide_True.
  - destruct (decide (k' = k)) as [E|E]; cbn [map_set].
    + now rewrite decide_True.
    + rewrite decide_False by exact E. now rewrite IH.
Qed.

Lemma map_set_keys (k : key) (v : V) (m : list (key * V)) :
  map fst (map_set k v m)
  = match map_get k m with
    | Some _ => map fst m
    | None => map fst m ++ [k]
    end.
Proof.
  induction m as [|[k' v'] m IH]; cbn [map_set map_get map fst app]; [reflexivity|].
  destruct (decide (k' = k)) as [E|E]; cbn [map fst].
  - now subst.
  - rewrite IH. now destruct (map_get k m).
Qed.

Lemma map_get_None (k : key) (m : list (key * V)) :
  map_get k m = None <-> ~ In k (map fst m).
Proof.
  induction m as [|[k' v'] m IH]; cbn [map_get map fst In]; [tauto|].
  destruct (decide (k' = k)) as [E|E].
  - split; [discriminate | tauto].
  - rewrite IH. tauto.
Qed.

Lemma map_get_In (k : key) (v : V) (m : list (key * V)) :
  map_get k m = Some v -> In (k, v) m.
Proof.
  induction m as [|[k' v'] m IH]; cbn [map_get In]; [discriminate|].
  destruct (decide (k' = k)) as [E|E].
  - intros [= ->]. subst. now left.
  - intros H. right. now apply IH.
Qed.

Lemma map_get_NoDup (k : key) (v : V) (m : list (key * V)) :
  NoDup (map fst m) -> In (k, v) m -> map_get k m = Some v.
Proof.
  induction m as [|[k' v'] m IH]; cbn [map_get map fst In]; [tauto|].
  intros Hnd [E | Hin].
  - injection E as -> ->. now rewrite decide_True.
  - apply NoDup_cons in Hnd. destruct Hnd as [Hk Hnd].
    destruct (decide (k' = k)) as [E|E]; [|now apply IH].
    subst k'. exfalso. apply Hk.
    apply list_elem_of_In. apply (List.in_map fst m (k, v)) in Hin. exact Hin.
Qed.

Lemma map_set_at (k : key) (v old : V) (m : list (key * V)) (i : nat) :
  NoDup (map fst m) -> m !! i = Some (k, old) ->
  map_set k v m = <[i := (k, v)]> m.
Proof.
  revert i. induction m as [|[k' v'] m IH]; intros i Hnd Hi; [discriminate|].
  cbn [map_set]. cbn [map fst] in Hnd. apply NoDup_cons in Hnd. destruct Hnd as [Hk Hnd].
  destruct i as [|i]; cbn in Hi.
  - injection Hi as -> ->. now rewrite decide_True.
  - destruct (decide (k' = k)) as [E|E].
    + subst k'. exfalso. apply Hk. apply list_elem_of_In.
      apply (List.in_map fst m (k, old)). apply list_elem_of_In.
      eapply list_elem_of_lookup_2. exact Hi.
    + cbn. now rewrite (IH i Hnd Hi).
Qed.

Lemma map_delete_keys (k : key) (m : list (key * V)) :
  map fst (map_delete k m) = List.filter (fun k' => negb (bool_decide (k' = k))) (map fst m).
Proof.
  unfold map_delete. induction m as [|[k' v'] m IH]; [reflexivity|].
  cbn [List.filter map fst]. destruct (negb (bool_decide (k' = k))); cbn [map fst];
    now rewrite IH.
Qed.

Lemma NoDup_filter_list {A} (f : A -> bool) (l : list A) :
  NoDup l -> NoDup (List.filter f l).
Proof.
  induction 1 as [|x l Hx Hnd IH]; cbn [List.filter]; [constructor|].
  destruct (f x); [|exact IH]. constructor; [|exact IH].
  rewrite list_elem_of_In, List.filter_In. rewrite list_elem_of_In in Hx. tauto.
Qed.

(** [put] and [delete] keep the data keyed. *)
Lemma keyed_created (n : string) (kp : option string) : keyed prop (created n kp).
Proof. split; constructor. Qed.

Lemma keyed_put (value : V) (s : objectStore) :
  keyed prop s -> keyed prop (put prop value s).
Proof.
  intros [Hnd Hk]. split.
  - change (NoDup (map fst (map_set (key_of prop s value) value (data s)))).
    rewrite map_set_keys.
    destruct (map_get (key_of prop s value) (data s)) eqn:E; [exact Hnd|].
    apply NoDup_app. split; [exact Hnd|]. split; [|apply NoDup_singleton].
    intros k Hin Hk'. apply list_elem_of_singleton in Hk'. subst k.
    apply map_get_None in E. apply E. now apply list_elem_of_In.
  - change (Forall (fun e => fst e = key_of prop s (snd e))
              (map_set (key_of prop s value) value (data s))).
    clear Hnd. induction (data s) as [|[k' v'] m IH]; cbn [map_set].
    + repeat constructor.
    + inversion Hk as [|? ? Hh Ht]; subst.
      destruct (decide (k' = key_of prop s value)).
      * constructor; [reflexivity | exact Ht].
      * constructor; [exact Hh | now apply IH].
Qed.

Lemma keyed_delete (k : key) (s : objectStore) :
  keyed prop s -> keyed prop (delete k s).
Proof.
  intros [Hnd Hk]. split.
  - change (NoDup (map fst (map_delete k (data s)))).
    rewrite map_delete_keys. now apply NoDup_filter_list.
  - change (Forall (fun e => fst e = key_of prop s (snd e)) (map_delete k (data s))).
    unfold map_delete. rewrite List.Forall_forall in Hk. apply List.Forall_forall.
    intros e He. apply List.filter_In in He. now apply Hk.
Qed.

Lemma serve_all_shape (rs : list Request) (s : objectStore) :
  name (serve_all prop rs s) = name s /\ keyPath (serve_all prop rs s) = keyPath s.
Proof.
  unfold serve_all. revert s. induction rs as [|r rs IH]; intros s; [now split|].
  cbn [fold_left]. destruct (IH (serve prop s r)) as [H1 H2].
  rewrite H1, H2. now destruct r.
Qed.

Lemma keyed_serve_all (rs : list Request) (s : objectStore) :
  keyed prop s -> keyed prop (serve_all prop rs s).
Proof.
  unfold serve_all. revert s. induction rs as [|r rs IH]; intros s Hs; [exact Hs|].
  cbn [fold_left]. apply IH. destruct r; [now apply keyed_put | now apply keyed_delete].
Qed.

(** In a keyed store [getAll] and [get] agree, and [getAll] answers
    values of distinct keys. *)
Lemma keyed_getAll (s : objectStore) :
  keyed prop s ->
  NoDup (map (key_of prop s) (getAll s))
  /\ forall v, In v (getAll s) <-> get (key_of prop s v) s = Some v.
Proof.
  intros [Hnd Hk]. unfold getAll, map_values, get.
  assert (Hkeys : map (key_of prop s) (map snd (data s)) = map fst (data s)).
  { rewrite map_map. apply map_ext_in. intros e He.
    rewrite List.Forall_forall in Hk. symmetry. now apply Hk. }
  split; [now rewrite Hkeys|].
  intros v. split.
  - intros Hin. apply in_map_iff in Hin. destruct Hin as ([k v'] & Hv & Hin).
    cbn [snd] in Hv. subst v'.
    apply map_get_NoDup; [exact Hnd|].
    rewrite List.Forall_forall in Hk. specialize (Hk _ Hin). cbn [fst snd] in Hk.
    now rewrite <- Hk.
  - intros Hget. apply map_get_In in Hget.
    apply (List.in_map snd (data s) _) in Hget. exact Hget.
Qed.

Lemma map_delete_set_absent (k : key) (v : V) (m : list (key * V)) :
  map_get k m = None -> map_delete k (map_set k v m) = m.
Proof.
  intros H. rewrite (map_set_absent k v m H). unfold map_delete.
  rewrite List.filter_app. fold (map_delete k m). rewrite (map_delete_absent k m H).
  cbn [List.filter fst]. rewrite bool_decide_eq_true_2 by reflexivity.
  apply app_nil_r.
Qed.

Lemma map_values_insert (m : list (key * V)) (i : nat) (k : key) (v : V) :
  map_values (<[i := (k, v)]> m) = <[i := v]> (map_values m).
Proof.
  unfold map_values. revert i. induction m as [|e m IH]; intros i; [reflexivity|].
  destruct i as [|i]; cbn; [reflexivity|]. f_equal. apply IH.
Qed.

(** The requests read and write [data] only: stores that differ in
    their indexes hold the same data after the same requests. *)
Lemma serve_all_data (rs : list Request) (s s' : objectStore) :
  keyPath s' = keyPath s -> data s' = data s ->
  data (serve_all prop rs s') = data (serve_all prop rs s)
  /\ indexes (serve_all prop rs s') = indexes s'.
Proof.
  unfold serve_all. revert s s'. induction rs as [|r rs IH]; intros s s' Hk Hd.
  - now split.
  - cbn [fold_left].
    destruct (IH (serve prop s r) (serve prop s' r)) as [H1 H2].
    + now destruct r.
    + destruct r; cbn [serve put delete data]; unfold key_of; now rewrite ?Hk, Hd.
    + rewrite H1, H2. split; [reflexivity|]. now destruct r.
Qed.

End Maps.

Lemma three_messages_keyed : keyed MessageStore.prop three_messages.
Proof.
  unfold three_messages. repeat apply keyed_put.
  apply (keyed_created MessageStore.prop "messages" (Some "id"%string)).
Qed.

(** [toISOString] at the epoch, one millisecond before it, on a leap
    day, at the time stamp of the sample messages, at the end of 2099
    and at the beginning of the years 10000, 0 and -1. *)
Lemma toISOString_examples :
  MessageStore.toISOString 0 = "1970-01-01T00:00:00.000Z"%string
  /\ MessageStore.toISOString (-1) = "1969-12-31T23:59:59.999Z"%string
  /\ MessageStore.toISOString 951782400000 = "2000-02-29T00:00:00.000Z"%string
  /\ MessageStore.toISOString 1700000000000 = "2023-11-14T22:13:20.000Z"%string
  /\ MessageStore.toISOString 4102444799999 = "2099-12-31T23:59:59.999Z"%string
  /\ MessageStore.toISOString 253402300800000 = "+010000-01-01T00:00:00.000Z"%string
  /\ MessageStore.toISOString (-62167219200000) = "0000-01-01T00:00:00.000Z"%string
  /\ MessageStore.toISOString (-62198755200000) = "-000001-01-01T00:00:00.000Z"%string.
Proof. repeat split; vm_compute; reflexivity. Qed.

(** A store keyed by the time stamp holds one message for each time
    stamp: a message stamped a millisecond later is added, a message
    with the same stamp takes the place of the one stored. *)
Lemma keyed_by_timestamp :
  let s := created "by-time" (Some "timestamp"%string) in
  let later := mkMessage "m2" "hello" "user-1" 1700000000001 "text" in
  getAll (put MessageStore.prop later (put MessageStore.prop (message 1) s))
  = [message 1; later]
  /\ getAll (put MessageStore.prop (message 2) (put MessageStore.prop (message 1) s))
     = [message 2].
Proof. split; vm_compute; reflexivity. Qed.

(** X1: a value that was [put] is what [get] answers under its key,
    [value[store.keyPath]], and the answers of [get] under the other
    keys are what they were before the [put]. *)
Theorem put_then_get {V} (prop : V -> string -> option string) (value : V)
    (s : objectStore) :
  get (key_of prop s value) (put prop value s) = Some value
  /\ forall k, k <> key_of prop s value -> get k (put prop value s) = get k s.
Proof.
  unfold get. change (data (put prop value s))
    with (map_set (key_of prop s value) value (data s)).
  split; [apply map_get_set|]. intros k Hk. now apply map_get_set_other.
Qed.

(** X2: [put] is an upsert that keeps the insertion order [getAll]
    answers in: a value under a new key is appended, a value under a key
    in use takes the place of the old one (the data being a [Map], which
    holds every key once). *)
Theorem put_keeps_insertion_order {V} (prop : V -> string -> option string)
    (value : V) (s : objectStore) :
  NoDup (map fst (data s)) ->
  (get (key_of prop s value) s = None -> getAll (put prop value s) = getAll s ++ [value])
  /\ (forall i old, data s !! i = Some (key_of prop s value, old) ->
      getAll (put prop value s) = <[i := value]> (getAll s)
      /\ length (getAll (put prop value s)) = length (getAll s)).
Proof.
  intros Hnd. unfold getAll, get.
  change (data (put prop value s))
    with (map_set (key_of prop s value) value (data s)).
  split.
  - intros H. rewrite (map_set_absent _ _ _ H). unfold map_values.
    now rewrite map_app.
  - intros i old Hi. rewrite (map_set_at _ _ old _ i Hnd Hi), map_values_insert.
    split; [reflexivity|]. apply length_insert.
Qed.

(** X2 at work on the store of three messages: a fourth message goes to
    the end, a new version of the second takes its place. *)
Lemma put_keeps_insertion_order_witness :
  getAll (put MessageStore.prop (message 4) three_messages)
  = [message 1; message 2; message 3; message 4]
  /\ getAll (put MessageStore.prop (rewritten 2) three_messages)
     = [message 1; rewritten 2; message 3].
Proof.
  destruct (put_keeps_insertion_order MessageStore.prop (message 4) three_messages
              (proj1 three_messages_keyed)) as [H1 _].
  destruct (put_keeps_insertion_order MessageStore.prop (rewritten 2) three_messages
              (proj1 three_messages_keyed)) as [_ H2].
  split.
  - rewrite H1 by reflexivity. reflexivity.
  - destruct (H2 1%nat (message 2) eq_refl) as [-> _]. reflexivity.
Defined.

(** X3: of two values with the same key the one [put] last is the one
    stored: the store is as if the first had never been put.  In
    particular, putting a value twice is putting it once. *)
Theorem put_last_write_wins {V} (prop : V -> string -> option string)
    (v1 v2 : V) (s : objectStore) :
  key_of prop s v1 = key_of prop s v2 ->
  put prop v2 (put prop v1 s) = put prop v2 s.
Proof.
  intros Hk. unfold put at 1 3.
  change (key_of prop (put prop v1 s) v2) with (key_of prop s v2).
  change (data (put prop v1 s)) with (map_set (key_of prop s v1) v1 (data s)).
  cbn [name keyPath indexes put]. now rewrite Hk, map_set_set.
Qed.

(** X3 at work: two versions of the second message. *)
Lemma put_last_write_wins_witness :
  put MessageStore.prop (rewritten 2) (put MessageStore.prop (message 2) three_messages)
  = put MessageStore.prop (rewritten 2) three_messages
  /\ getAll (put MessageStore.prop (rewritten 2) three_messages)
     = [message 1; rewritten 2; message 3].
Proof.
  split; [|reflexivity].
  apply (put_last_write_wins MessageStore.prop (message 2) (rewritten 2) three_messages).
  reflexivity.
Defined.

(** X4: a [delete] of the key of a value that was [put] under a key not
    in use gives back the store as it was before the [put]. *)
Theorem delete_undoes_put {V} (prop : V -> string -> option string)
    (value : V) (s : objectStore) :
  get (key_of prop s value) s = None ->
  delete (key_of prop s value) (put prop value s) = s.
Proof.
  intros H. unfold delete.
  change (data (put prop value s))
    with (map_set (key_of prop s value) value (data s)).
  cbn [name keyPath indexes put].
  rewrite (map_delete_set_absent _ _ _ H). now destruct s.
Qed.

(** X4 at work: a ninth message is put, then deleted. *)
Lemma delete_undoes_put_witness :
  get (Some "m9"%string) three_messages = None
  /\ delete (Some "m9"%string) (put MessageStore.prop (message 9) three_messages)
     = three_messages.
Proof.
  split; [reflexivity|].
  apply (delete_undoes_put MessageStore.prop (message 9) three_messages).
  reflexivity.
Defined.

(** X5: whatever [put] and [delete] requests a created store has
    served, [getAll] answers values of pairwise distinct keys, it
    answers exactly the values that [get] answers under their own key,
    and the store has kept its name and key path. *)
Theorem served_store_is_keyed {V} (prop : V -> string -> option string)
    (n : string) (kp : option string) (rs : list Request) :
  let s := serve_all prop rs (created n kp) in
  NoDup (map (key_of prop s) (getAll s))
  /\ (forall v, In v (getAll s) <-> get (key_of prop s v) s = Some v)
  /\ name s = n /\ keyPath s = kp.
Proof.
  cbv zeta.
  destruct (keyed_getAll prop _ (keyed_serve_all prop rs _ (keyed_created prop n kp)))
    as [H1 H2].
  destruct (serve_all_shape prop rs (created n kp)) as [H3 H4].
  repeat split; try assumption; now apply H2.
Qed.

(** X6: a store created without a key path reads the key of a value
    from its property [undefined]; when no value has such a property,
    all values share the key [undefined], and the store never holds more
    than one value. *)
Theorem store_without_key_path {V} (prop : V -> string -> option string)
    (n : string) (rs : list Request) :
  (forall v, prop v "undefined" = None) ->
  (length (getAll (serve_all prop rs (created n None))) <= 1)%nat.
Proof.
  intros Hprop. set (s := serve_all prop rs (created n None)).
  destruct (keyed_getAll prop s (keyed_serve_all prop rs _ (keyed_created prop n None)))
    as [Hnd _].
  destruct (serve_all_shape prop rs (created n None)) as [_ Hkp]. fold s in Hkp.
  assert (Hkeys : forall v, key_of prop s v = None).
  { intros v. unfold key_of. rewrite Hkp. apply Hprop. }
  destruct (getAll s) as [|a [|b l]]; cbn [length]; [lia | lia |].
  exfalso. cbn [map] in Hnd. rewrite !Hkeys in Hnd.
  apply NoDup_cons in Hnd. destruct Hnd as [Hin _]. apply Hin. left.
Qed.

(** X6 at work: of two messages put into a store without key path, the
    second is the only one left. *)
Lemma store_without_key_path_witness :
  (length (getAll (serve_all MessageStore.prop [Put (message 1); Put (message 2)]
                     (created "messages" None))) <= 1)%nat
  /\ getAll (serve_all MessageStore.prop [Put (message 1); Put (message 2)]
               (created "messages" None))
     = [message 2].
Proof.
  split; [|reflexivity].
  apply (store_without_key_path MessageStore.prop "messages"
           [Put (message 1); Put (message 2)]).
  intros v. reflexivity.
Defined.

(** X7: [createObjectStore] registers an empty store: under a name in
    use it replaces the store and what it held, the stores of the other
    names are left alone; and a transaction finds no store exactly under
    the names for which [objectStoreNames.contains] answers false. *)
Theorem createObjectStore_replaces {V} (n : string) (kp : option string)
    (db : database (V := V)) :
  contains (createObjectStore n kp db) n = true
  /\ objectStore_of (createObjectStore n kp db) n = Some (created n kp)
  /\ (getAll <$> objectStore_of (createObjectStore n kp db) n) = Some []
  /\ (forall n', n' <> n ->
      objectStore_of (createObjectStore n kp db) n' = objectStore_of db n')
  /\ (forall n', contains db n' = false <-> objectStore_of db n' = None).
Proof.
  unfold contains, objectStore_of, createObjectStore. cbn [objectStores].
  rewrite lookup_insert_eq. split; [now apply bool_decide_eq_true_2|].
  split; [reflexivity|]. split; [reflexivity|].
  split; [intros n' Hn'; now apply lookup_insert_ne|].
  intros n'. rewrite bool_decide_eq_false, <- eq_None_not_Some. tauto.
Qed.

(** X8: [createIndex] on a store just created records the index, with
    its key path and its [unique] flag, and that is all: the requests
    never consult the indexes, so that after any [put] and [delete]
    requests the store holds the data it would hold without the index
    ([unique] is not enforced), and the index is still recorded. *)
Theorem indexes_are_recorded_and_never_used {V}
    (prop : V -> string -> option string) (n iname : string)
    (kp0 : option string) (kp : list string) (uniq : bool)
    (db : database (V := V)) (rs : list Request) :
  exists s,
    objectStore_of (createIndex n iname kp uniq (createObjectStore n kp0 db)) n
    = Some s
    /\ indexes s !! iname = Some (mkIndex kp uniq)
    /\ data s = []
    /\ data (serve_all prop rs s) = data (serve_all prop rs (created n kp0))
    /\ indexes (serve_all prop rs s) !! iname = Some (mkIndex kp uniq).
Proof.
  exists (mkStore n kp0 [] (<[iname := mkIndex kp uniq]> ∅)).
  split.
  { unfold objectStore_of, createIndex, createObjectStore. cbn [objectStores].
    rewrite lookup_alter_eq, lookup_insert_eq. reflexivity. }
  split; [apply lookup_insert_eq|]. split; [reflexivity|].
  destruct (serve_all_data prop rs (created n kp0)
              (mkStore n kp0 [] (<[iname := mkIndex kp uniq]> ∅)))
    as [H1 H2]; [reflexivity | reflexivity |].
  split; [exact H1|]. rewrite H2. apply lookup_insert_eq.
Qed.

(** X9: since every [open] calls the upgrade handler, a client whose
    handler creates its store finds the store empty after every [open],
    whatever it held before; the other stores of the database are left
    alone. *)
Theorem reopen_recreates_store {V C} (dbName n : string) (kp : option string)
    (ver : Z) (req : request (V := V) (C := C)) (handler : string -> heap -> heap)
    (h : heap) :
  onupgradeneeded req = Some handler ->
  (forall h', dbs (handler dbName h')
              = alter (createObjectStore n kp) dbName (dbs h')) ->
  (forall done h', onsuccess req = Some done -> dbs (done h') = dbs h') ->
  exists db,
    dbs (open dbName ver req h) !! dbName = Some db
    /\ objectStore_of db n = Some (created n kp)
    /\ forall n', n' <> n ->
       objectStore_of db n'
       = (dbs h !! dbName) ≫= (fun db0 => objectStore_of db0 n').
Proof.
  intros Hup Hhandler Hdone.
  assert (Hdbs : dbs (open dbName ver req h)
                 = alter (createObjectStore n kp) dbName (ensure dbName ver (dbs h))).
  { unfold open, fire_upgrade, fire_success. cbv zeta. rewrite Hup.
    destruct (onsuccess req) as [done|] eqn:E.
    - rewrite (Hdone done _ eq_refl). now rewrite Hhandler.
    - now rewrite Hhandler. }
  rewrite Hdbs. unfold ensure.
  destruct (dbs h !! dbName) as [db0|] eqn:E; cbv iota; unfold databases in *.
  - exists (createObjectStore n kp db0). rewrite lookup_alter_eq, E.
    split; [reflexivity|].
    unfold objectStore_of, createObjectStore. cbn [objectStores mbind option_bind].
    split; [apply lookup_insert_eq|].
    intros n' Hn'. now apply lookup_insert_ne.
  - exists (createObjectStore n kp (mkDatabase dbName ver ∅)).
    rewrite lookup_alter_eq, lookup_insert_eq. split; [reflexivity|].
    unfold objectStore_of, createObjectStore. cbn [objectStores mbind option_bind].
    split; [apply lookup_insert_eq|].
    intros n' Hn'. rewrite lookup_insert_ne by congruence. apply lookup_empty.
Qed.

(** X9 at work: the database holds three messages; after another
    [open] by the client that creates its store in the upgrade handler,
    the store is empty. *)
Lemma reopen_recreates_store_witness :
  (getAll <$> (dbs stocked !! "chat-db" ≫= fun db0 => objectStore_of db0 "messages"))
  = Some [message 1; message 2; message 3]
  /\ exists db,
       dbs (open "chat-db" 1 counting_upgrades stocked) !! "chat-db" = Some db
       /\ (getAll <$> objectStore_of db "messages") = Some [].
Proof.
  split; [reflexivity|].
  destruct (reopen_recreates_store "chat-db" "messages" (Some "id"%string) 1
              counting_upgrades
              (fun dbName h =>
                 mkHeap (alter (createObjectStore "messages" (Some "id"%string))
                               dbName (dbs h))
                        (S (caller h)))
              stocked) as (db & Hdb & Hstore & _).
  - reflexivity.
  - intros h'. reflexivity.
  - intros done h' H. discriminate H.
  - exists db. split; [exact Hdb|]. now rewrite Hstore.
Defined.

End MockIDBLaws.

(* ===================================================================== *)
(** * Laws of the timed phases *)
(* ===================================================================== *)

Module PhaseLaws.
Import JSNumber JSNumberFacts Bench BenchFacts Samples Conformance.
Local Open Scope bench_scope.

Section Effects.
Context {St : Type}.
Variable env : Env.
Variable adapters : PerWay (Store.Adapter St).

(** Every phase is one pass over the three variants. *)
Lemma benchmark_after (n : nat) (ph : Phase) (testData : list Chat) (w : World St) :
  (ph = ConcurrentReads -> testData <> []) ->
  benchmark env adapters n ph testData w
  = (Ok tt, after_phase adapters (header_of n ph) (operation_of ph)
              (served env n ph testData) (exchange env n ph testData) w).
Proof.
  intros Hne. destruct ph; cbn [benchmark].
  - exact (benchmarkAddMessages_spec adapters testData w).
  - exact (benchmarkReadMessages_spec adapters testData w).
  - exact (benchmarkEditMessages_spec adapters testData w).
  - exact (benchmarkDeleteMessages_spec adapters testData w).
  - rewrite benchmarkConcurrentReads_spec by auto. reflexivity.
Qed.

Lemma exchange_read (n : nat) (ph : Phase) (testData : list Chat) (way way' : Way)
    (rs : list OpResult) :
  length rs = length (served env n ph testData way') ->
  issued way (exchange env n ph testData way' rs)
  = (if decide (way' = way) then calls_of n ph testData else [])
  /\ settled way (exchange env n ph testData way' rs)
     = (if decide (way' = way) then rs else []).
Proof.
  intros Hlen. destruct ph; cbn [exchange served] in *;
    first [now apply awaited_read | now apply gathered_read].
Qed.

Lemma share_awaited (way way' : Way) (cs : list Call) (rs : list OpResult) :
  share way (awaited way' cs rs) = if decide (way' = way) then awaited way' cs rs else [].
Proof.
  unfold awaited. induction (zip cs rs) as [|cr l IH]; [now destruct (decide (way' = way))|].
  cbn [flat_map app]. unfold share in *. cbn [List.filter about]. rewrite IH.
  destruct (decide (way' = way)) as [E|E].
  - now rewrite bool_decide_eq_true_2.
  - now rewrite bool_decide_eq_false_2.
Qed.

Lemma share_exchange (n : nat) (ph : Phase) (testData : list Chat) (way way' : Way)
    (rs : list OpResult) :
  share way (exchange env n ph testData way' rs)
  = if decide (way' = way) then exchange env n ph testData way' rs else [].
Proof.
  destruct ph; cbn [exchange]; first [apply share_awaited | apply share_gathered].
Qed.

Lemma traffic_app (e1 e2 : list Event) : traffic (e1 ++ e2) = traffic e1 ++ traffic e2.
Proof. apply List.filter_app. Qed.

Lemma traffic_exchange (n : nat) (ph : Phase) (testData : list Chat) (way : Way)
    (rs : list OpResult) :
  traffic (exchange env n ph testData way rs) = exchange env n ph testData way rs.
Proof.
  assert (Ha : forall cs, traffic (awaited way cs rs) = awaited way cs rs).
  { intros cs. unfold awaited. induction (zip cs rs) as [|cr l IH]; [reflexivity|].
    cbn [flat_map app]. unfold traffic in *. cbn [List.filter]. now rewrite IH. }
  destruct ph; cbn [exchange]; try apply Ha.
  unfold gathered. rewrite traffic_app. f_equal.
  - induction (calls_of _ _ _) as [|c l IH]; [reflexivity|].
    cbn [map]. unfold traffic in *. cbn [List.filter]. now rewrite IH.
  - induction (zip _ rs) as [|c l IH]; [reflexivity|].
    cbn [map]. unfold traffic in *. cbn [List.filter]. now rewrite IH.
Qed.

(** The answers of [way] in a phase starting in [w]. *)
Lemma after_phase_observed (header : Line) (operation : string)
    (done : Way -> list Call) (evs : Way -> list OpResult -> list Event)
    (w : World St) :
  let rs := fun way => snd (run_calls (get_way adapters way) (done way)
                                      (get_way (stores w) way)) in
  let block := fun way =>
    [Console (LTesting way)] ++ evs way (rs way)
    ++ [Console (LAverage way (average (bundle (successes (rs way)))))] in
  observed w (after_phase adapters header operation done evs w)
  = [Console header] ++ block way1 ++ block way2 ++ block way3.
Proof.
  cbv zeta. unfold observed, after_phase, after_way.
  cbn [ways fold_left stores results events randoms clocks uuids
       get_way set_way at1 at2 at3].
  rewrite <- !app_assoc, drop_app_length. reflexivity.
Qed.

(** The events of [way] in a phase, and the rest of its effect. *)
Lemma benchmark_effect (n : nat) (ph : Phase) (testData : list Chat) (w : World St)
    (way : Way) :
  (ph = ConcurrentReads -> testData <> []) ->
  let out := run_calls (get_way adapters way) (served env n ph testData way)
                       (get_way (stores w) way) in
  exists w',
    benchmark env adapters n ph testData w = (Ok tt, w')
    /\ share way (observed w w') = exchange env n ph testData way (snd out)
    /\ length (snd out) = length (calls_of n ph testData)
    /\ get_way (stores w') way = fst out
    /\ bundles (get_way (results w') way)
       = <[operation_of ph := bundle (successes (snd out))]>
           (bundles (get_way (results w) way))
    /\ stats (get_way (results w') way) = stats (get_way (results w) way)
    /\ (randoms w', clocks w', uuids w') = (randoms w, clocks w, uuids w)
    /\ traffic (observed w w')
       = share way1 (observed w w') ++ share way2 (observed w w')
         ++ share way3 (observed w w').
Proof.
  intros Hne out. rewrite (benchmark_after n ph testData w Hne).
  eexists. split; [reflexivity|].
  destruct (after_phase_reading adapters (header_of n ph) (operation_of ph)
              (fun _ => calls_of n ph testData) (served env n ph testData)
              (exchange env n ph testData) w way)
    as (_ & _ & H3 & H4 & H5 & H6).
  { intros way' rs Hlen. now apply exchange_read. }
  pose proof (after_phase_observed (header_of n ph) (operation_of ph)
                (served env n ph testData) (exchange env n ph testData) w) as Hobs.
  cbv zeta in Hobs. rewrite Hobs.
  assert (Hshare : forall way0,
    share way0 ([Console (header_of n ph)]
       ++ ([Console (LTesting way1)] ++ exchange env n ph testData way1
             (snd (run_calls (get_way adapters way1) (served env n ph testData way1)
                     (get_way (stores w) way1)))
           ++ [Console (LAverage way1 (average (bundle (successes
                 (snd (run_calls (get_way adapters way1) (served env n ph testData way1)
                         (get_way (stores w) way1)))))))])
       ++ ([Console (LTesting way2)] ++ exchange env n ph testData way2
             (snd (run_calls (get_way adapters way2) (served env n ph testData way2)
                     (get_way (stores w) way2)))
           ++ [Console (LAverage way2 (average (bundle (successes
                 (snd (run_calls (get_way adapters way2) (served env n ph testData way2)
                         (get_way (stores w) way2)))))))])
       ++ [Console (LTesting way3)] ++ exchange env n ph testData way3
             (snd (run_calls (get_way adapters way3) (served env n ph testData way3)
                     (get_way (stores w) way3)))
           ++ [Console (LAverage way3 (average (bundle (successes
                 (snd (run_calls (get_way adapters way3) (served env n ph testData way3)
                         (get_way (stores w) way3)))))))])
    = exchange env n ph testData way0
        (snd (run_calls (get_way adapters way0) (served env n ph testData way0)
                (get_way (stores w) way0)))).
  { intros way0. rewrite !share_app, !share_exchange.
    cbn [share List.filter about app].
    destruct way0; cbn; now rewrite ?app_nil_r. }
  split; [apply Hshare|].
  split.
  { unfold out. rewrite run_calls_length.
    apply Permutation_length, served_perm. }
  split; [exact H3|]. split; [exact H4|]. split; [exact H5|]. split; [exact H6|].
  rewrite !Hshare. rewrite !traffic_app, !traffic_exchange.
  cbn [traffic List.filter app]. now rewrite <- !app_assoc, ?app_nil_r.
Qed.

Lemma flat_map_length_const {A B} (f : A -> list B) (l : list A) (k : nat) :
  Forall (fun a => length (f a) = k) l -> length (flat_map f l) = (length l * k)%nat.
Proof.
  induction 1 as [|a l Ha _ IH]; [reflexivity|].
  cbn [flat_map length]. rewrite length_app, Ha, IH. lia.
Qed.

Lemma calls_of_length (n : nat) (ph : Phase) (testData : list Chat) (m : nat) :
  testData <> [] ->
  Forall (fun chat => length (messages chat) = m) testData ->
  length (calls_of n ph testData) = calls_in n ph (length testData) m.
Proof.
  intros Hne Hm. destruct ph; cbn [calls_of calls_in].
  - apply flat_map_length_const. eapply Forall_impl; [exact Hm|].
    intros chat Hc. cbn beta in *. now rewrite length_map.
  - apply length_map.
  - apply flat_map_length_const. eapply Forall_impl; [exact Hm|].
    intros chat Hc. cbn beta in *. rewrite length_map, length_take. lia.
  - apply flat_map_length_const. eapply Forall_impl; [exact Hm|].
    intros chat Hc. cbn beta in *. rewrite length_map, length_take, length_reverse. lia.
  - now apply concurrent_calls_length.
Qed.

Lemma issued_Issued (way : Way) (c : Call) (l : list Event) :
  issued way (Issued way c :: l) = c :: issued way l.
Proof. cbn [issued flat_map]. now rewrite decide_True. Qed.

Lemma settled_Settled (way : Way) (c : Call) (r : OpResult) (l : list Event) :
  settled way (Settled way c r :: l) = r :: settled way l.
Proof. cbn [settled flat_map]. now rewrite decide_True. Qed.

Lemma issued_Settled (way : Way) (c : Call) (r : OpResult) (l : list Event) :
  issued way (Settled way c r :: l) = issued way l.
Proof. reflexivity. Qed.

Lemma settled_Issued (way : Way) (c : Call) (l : list Event) :
  settled way (Issued way c :: l) = settled way l.
Proof. reflexivity. Qed.

(** Calls awaited one by one: at any moment at most one is in flight. *)
Lemma awaited_in_flight (way : Way) (cs : list Call) (rs : list OpResult) (k : nat) :
  let seen := take k (awaited way cs rs) in
  (length (settled way seen) <= length (issued way seen)
   <= length (settled way seen) + 1)%nat.
Proof.
  cbv zeta. unfold awaited. revert k.
  induction (zip cs rs) as [|cr l IH]; intros k.
  - cbn [flat_map]. rewrite take_nil. cbn [issued settled flat_map length]. lia.
  - cbn [flat_map app].
    destruct k as [|[|k]]; cbn [take].
    + cbn [issued settled flat_map length]. lia.
    + rewrite issued_Issued, settled_Issued.
      cbn [issued settled flat_map length]. lia.
    + rewrite issued_Issued, settled_Issued, issued_Settled, settled_Settled.
      specialize (IH k). cbn [length]. lia.
Qed.

End Effects.

(** X10: a phase (the concurrent one: given at least one chat) writes
    only the bundle of its own operation: the bundles of the other
    operations and the storage statistics of every variant are what they
    were, the store of a variant is what its adapter made of the calls
    of the phase, and the harness draws no random number, clock reading
    or identifier. *)
Theorem phase_writes_only_its_own {St} (env : Env)
    (adapters : PerWay (Store.Adapter St)) (n : nat) (ph : Phase)
    (testData : list Chat) (w : World St) (way : Way) :
  (ph = ConcurrentReads -> testData <> []) ->
  exists w',
    benchmark env adapters n ph testData w = (Ok tt, w')
    /\ (forall op, op <> operation_of ph ->
        bundles (get_way (results w') way) !! op
        = bundles (get_way (results w) way) !! op)
    /\ stats (get_way (results w') way) = stats (get_way (results w) way)
    /\ get_way (stores w') way
       = fst (run_calls (get_way adapters way) (served env n ph testData way)
                        (get_way (stores w) way))
    /\ (randoms w', clocks w', uuids w') = (randoms w, clocks w, uuids w).
Proof.
  intros Hne.
  destruct (benchmark_effect env adapters n ph testData w way Hne)
    as (w' & Hrun & _ & _ & Hstore & Hb & Hstats & Hdraws & _).
  exists w'. split; [exact Hrun|]. split.
  - intros op Hop. rewrite Hb. now apply lookup_insert_ne.
  - auto.
Qed.

(** X10 at work: the read phase after the add phase keeps the bundle of
    the adds. *)
Lemma phase_writes_only_its_own_witness :
  let w1 := snd (benchmark env_fifo sound 50 AddMessages two_chats start) in
  exists w2,
    benchmark env_fifo sound 50 ReadMessages two_chats w1 = (Ok tt, w2)
    /\ bundles (get_way (results w2) way1) !! "addMessage"
       = Some (bundle [of_nat 0; of_nat 1; of_nat 2; of_nat 3]).
Proof.
  cbv zeta.
  destruct (phase_writes_only_its_own env_fifo sound 50 ReadMessages two_chats
              (snd (benchmark env_fifo sound 50 AddMessages two_chats start)) way1)
    as (w2 & Hrun & Hframe & _).
  { discriminate. }
  exists w2. split; [exact Hrun|].
  rewrite (Hframe "addMessage") by discriminate.
  vm_compute. reflexivity.
Defined.

(** X11: in the add, read, edit and delete phases the calls to a
    variant are awaited one by one: its events are the calls of the
    phase, each followed by its own result, so that at any moment at most
    one call is in flight. *)
Theorem sequential_calls_are_awaited {St} (env : Env)
    (adapters : PerWay (Store.Adapter St)) (n : nat) (ph : Phase)
    (testData : list Chat) (w : World St) (way : Way) :
  ph <> ConcurrentReads ->
  exists w' rs,
    benchmark env adapters n ph testData w = (Ok tt, w')
    /\ length rs = length (calls_of n ph testData)
    /\ share way (observed w w') = awaited way (calls_of n ph testData) rs
    /\ forall k,
       let seen := take k (share way (observed w w')) in
       (length (settled way seen) <= length (issued way seen)
        <= length (settled way seen) + 1)%nat.
Proof.
  intros Hph.
  destruct (benchmark_effect env adapters n ph testData w way)
    as (w' & Hrun & Hshare & Hlen & _); [congruence|].
  eexists w', _. split; [exact Hrun|]. split; [exact Hlen|].
  assert (E : forall rs, exchange env n ph testData way rs
                         = awaited way (calls_of n ph testData) rs).
  { intros rs. destruct ph; try reflexivity. congruence. }
  rewrite Hshare, E. split; [reflexivity|].
  intros k. apply awaited_in_flight.
Qed.

(** X11 at work: the adds of the sample chats. *)
Lemma sequential_calls_are_awaited_witness :
  exists w' rs,
    benchmark env_fifo sound 50 AddMessages two_chats start = (Ok tt, w')
    /\ length rs = 4%nat
    /\ share way2 (observed start w') = awaited way2 (add_calls two_chats) rs.
Proof.
  destruct (sequential_calls_are_awaited env_fifo sound 50 AddMessages two_chats
              start way2) as (w' & rs & Hrun & Hlen & Hshare & _).
  { discriminate. }
  exists w', rs. auto.
Defined.

(** X12: the variants take turns: in every phase (the concurrent one:
    given at least one chat), all the calls to the first variant and
    their results come before those of the second, and these before
    those of the third. *)
Theorem variants_take_turns {St} (env : Env) (adapters : PerWay (Store.Adapter St))
    (n : nat) (ph : Phase) (testData : list Chat) (w : World St) :
  (ph = ConcurrentReads -> testData <> []) ->
  exists w',
    benchmark env adapters n ph testData w = (Ok tt, w')
    /\ traffic (observed w w')
       = share way1 (observed w w') ++ share way2 (observed w w')
         ++ share way3 (observed w w').
Proof.
  intros Hne.
  destruct (benchmark_effect env adapters n ph testData w way1 Hne)
    as (w' & Hrun & _ & _ & _ & _ & _ & _ & Htraffic).
  exists w'. auto.
Qed.

(** X12 at work: three concurrent readers. *)
Lemma variants_take_turns_witness :
  exists w',
    benchmark env_lifo flaky 3 ConcurrentReads two_chats start = (Ok tt, w')
    /\ traffic (observed start w')
       = share way1 (observed start w') ++ share way2 (observed start w')
         ++ share way3 (observed start w').
Proof.
  apply (variants_take_turns env_lifo flaky 3 ConcurrentReads two_chats start).
  discriminate.
Defined.

(** X13: over chats of [m] messages each, a phase sends every variant
    one add per message, one read per chat, one edit for each of the
    first ten messages of a chat, one delete for each of its last five,
    or as many concurrent reads as there are users; every call is
    answered. *)
Theorem calls_sent_in_a_phase {St} (env : Env) (adapters : PerWay (Store.Adapter St))
    (n : nat) (ph : Phase) (testData : list Chat) (m : nat) (w : World St)
    (way : Way) :
  testData <> [] ->
  Forall (fun chat => length (messages chat) = m) testData ->
  exists w',
    benchmark env adapters n ph testData w = (Ok tt, w')
    /\ length (issued way (observed w w')) = calls_in n ph (length testData) m
    /\ length (settled way (observed w w')) = calls_in n ph (length testData) m.
Proof.
  intros Hne Hm.
  destruct (benchmark_reading env adapters n ph testData w way)
    as (w' & Hrun & Hissued & Hsettled & _); [auto|].
  exists w'. split; [exact Hrun|].
  rewrite Hissued, Hsettled, run_calls_length.
  rewrite (Permutation_length (served_perm env n ph testData way)).
  split; now apply calls_of_length.
Qed.

(** X13 at work: one chat of twelve messages gets ten edits and five
    deletes. *)
Lemma calls_sent_in_a_phase_witness :
  (exists w',
     benchmark env_fifo sound 50 EditMessages long_chat start = (Ok tt, w')
     /\ length (issued way1 (observed start w')) = 10%nat)
  /\ exists w',
       benchmark env_fifo sound 50 DeleteMessages long_chat start = (Ok tt, w')
       /\ length (issued way1 (observed start w')) = 5%nat.
Proof.
  split.
  - destruct (calls_sent_in_a_phase env_fifo sound 50 EditMessages long_chat 12
                start way1) as (w' & Hrun & Hi & _).
    + discriminate.
    + repeat constructor.
    + exists w'. split; [exact Hrun | exact Hi].
  - destruct (calls_sent_in_a_phase env_fifo sound 50 DeleteMessages long_chat 12
                start way1) as (w' & Hrun & Hi & _).
    + discriminate.
    + repeat constructor.
    + exists w'. split; [exact Hrun | exact Hi].
Defined.

End PhaseLaws.

(* ===================================================================== *)
(** * The generated data and the concurrent readers *)
(* ===================================================================== *)

Module DataLaws.
Import JSNumber JSNumberFacts Bench BenchFacts Samples Conformance.
Local Open Scope bench_scope.

Section Identifiers.
Context {St : Type}.
Variable env : Env.

Lemma chat_messages_ids (i n : nat) (w : World St) :
  exists ms w',
    fold_m (fun msgs j => let* m := new_message env i j in ret (msgs ++ [m]))
           [] (seq 0 n) w = (Ok ms, w')
    /\ map id ms = map (uuidv4 env) (seq (uuids w) n)
    /\ uuids w' = (uuids w + n)%nat.
Proof.
  destruct (fold_m_invariant
    (fun k msgs (w' : World St) => map id msgs = map (uuidv4 env) (seq (uuids w) k)
                      /\ uuids w' = (uuids w + k)%nat)
    (fun msgs j => let* m := new_message env i j in ret (msgs ++ [m]))
    (seq 0 n) 0%nat) with (acc := @nil Message) (w := w)
    as (ms & w' & Hf & Hids & Hu).
  - intros k msgs j w1 _ (Hids & Hu).
    eexists. eexists. split; [reflexivity|].
    cbn [uuids]. split; [|lia].
    rewrite map_app, Hids. cbn [map id Nat.add].
    rewrite seq_S, map_app. cbn [map]. now rewrite Hu.
  - split; [reflexivity | lia].
  - exists ms, w'. rewrite length_seq in Hids, Hu. auto.
Qed.

Lemma generateTestData_ids (numChats messagesPerChat : Z) (w : World St) :
  exists testData w',
    generateTestData env numChats messagesPerChat w = (Ok testData, w')
    /\ map chatId testData
       = map (fun i => "chat-" +:+ pretty (i + 1)%nat) (seq 0 (Z.to_nat numChats))
    /\ flat_map (fun chat => map id (messages chat)) testData
       = map (uuidv4 env)
             (seq (uuids w) (Z.to_nat numChats * Z.to_nat messagesPerChat)).
Proof.
  unfold generateTestData. set (m := Z.to_nat messagesPerChat).
  destruct (fold_m_invariant
    (fun k chats (w' : World St) =>
       map chatId chats = map (fun i => "chat-" +:+ pretty (i + 1)%nat) (seq 0 k)
       /\ flat_map (fun chat => map id (messages chat)) chats
          = map (uuidv4 env) (seq (uuids w) (k * m))
       /\ uuids w' = (uuids w + k * m)%nat)
    (fun testData i =>
       let* chatMessages :=
         fold_m (fun msgs j => let* m := new_message env i j in ret (msgs ++ [m]))
                [] (seq 0 m) in
       ret (testData ++ [mkChat ("chat-" +:+ pretty (i + 1)%nat) chatMessages]))
    (seq 0 (Z.to_nat numChats)) 0%nat) with (acc := @nil Chat) (w := w)
    as (td & w' & Hf & Hchats & Hids & Hu).
  - intros k chats i w1 Hi (Hchats & Hids & Hu).
    apply lookup_seq in Hi. destruct Hi as [-> _].
    destruct (chat_messages_ids (0 + k) m w1) as (ms & w2 & Hm & Hms & Hu2).
    eexists. exists w2.
    split; [cbv beta; unfold bind at 1; rewrite Hm; reflexivity|].
    cbn [Nat.add]. split; [|split].
    + rewrite map_app, Hchats, seq_S, map_app. reflexivity.
    + rewrite flat_map_app, Hids. cbn [flat_map messages]. rewrite app_nil_r, Hms, Hu.
      rewrite <- map_app, <- seq_app. f_equal. f_equal. lia.
    + rewrite Hu2, Hu. lia.
  - cbn [Nat.add Nat.mul seq map flat_map]. repeat split. lia.
  - exists td, w'. rewrite length_seq in Hchats, Hids, Hu. cbn [Nat.add] in *. auto.
Qed.

End Identifiers.

(** X14: the generated chats are named [chat-1], [chat-2], ... in order,
    so that no two chats share their identifier; the identifiers of the
    messages are the values [uuidv4()] answers, one call per message, in
    the order of the chats and of their messages, so that they are
    pairwise distinct across all chats as soon as [uuidv4()] never
    repeats itself. *)
Theorem generated_identifiers {St} (env : Env) (numChats messagesPerChat : Z)
    (w : World St) :
  exists testData w',
    generateTestData env numChats messagesPerChat w = (Ok testData, w')
    /\ map chatId testData
       = map (fun i => "chat-" +:+ pretty (i + 1)%nat) (seq 0 (Z.to_nat numChats))
    /\ NoDup (map chatId testData)
    /\ flat_map (fun chat => map id (messages chat)) testData
       = map (uuidv4 env)
             (seq (uuids w) (Z.to_nat numChats * Z.to_nat messagesPerChat))
    /\ ((forall a b, uuidv4 env a = uuidv4 env b -> a = b) ->
        NoDup (flat_map (fun chat => map id (messages chat)) testData)).
Proof.
  destruct (generateTestData_ids env numChats messagesPerChat w)
    as (td & w' & Hrun & Hchats & Hids).
  exists td, w'. split; [exact Hrun|]. split; [exact Hchats|].
  split; [|split; [exact Hids|]].
  - rewrite Hchats.
    change (NoDup ((fun i => "chat-" +:+ pretty (i + 1)%nat) <$> seq 0 (Z.to_nat numChats))).
    apply NoDup_fmap_2; [|apply NoDup_seq].
    intros a b Hab. apply (inj (String.app "chat-")) in Hab.
    apply (inj pretty) in Hab. lia.
  - intros Hinj. rewrite Hids.
    change (NoDup (uuidv4 env <$> seq (uuids w)
                     (Z.to_nat numChats * Z.to_nat messagesPerChat))).
    apply NoDup_fmap_2; [exact Hinj | apply NoDup_seq].
Qed.

(** ** Round robin *)

Lemma round_robin_step (k n j : nat) :
  (j < k)%nat ->
  (S n / k + (if decide (j < S n mod k)%nat then 1 else 0)
   = n / k + (if decide (j < n mod k)%nat then 1 else 0)
     + (if decide (n mod k = j)%nat then 1 else 0))%nat.
Proof.
  intros Hj.
  pose proof (Nat.div_mod_eq n k) as Hn.
  pose proof (Nat.mod_upper_bound n k ltac:(lia)) as Hr.
  destruct (decide (S (n mod k) < k)%nat) as [Hlt | Hge].
  - assert (Hq : (S n / k = n / k)%nat).
    { symmetry. apply (Nat.div_unique (S n) k (n / k) (S (n mod k))); lia. }
    assert (Hm : (S n mod k = S (n mod k))%nat).
    { symmetry. apply (Nat.mod_unique (S n) k (n / k) (S (n mod k))); lia. }
    rewrite Hq, Hm. repeat destruct (decide _); lia.
  - assert (Hq : (S n / k = S (n / k))%nat).
    { symmetry. apply (Nat.div_unique (S n) k (S (n / k)) 0); lia. }
    assert (Hm : (S n mod k = 0)%nat).
    { symmetry. apply (Nat.mod_unique (S n) k (S (n / k)) 0); lia. }
    rewrite Hq, Hm. repeat destruct (decide _); lia.
Qed.

Lemma chats_round_robin_S (testData : list Chat) (n : nat) :
  chats_round_robin testData (S n)
  = chats_round_robin testData n
    ++ match testData !! (n mod length testData)%nat with
       | Some chat => [chatId chat]
       | None => []
       end.
Proof.
  unfold chats_round_robin. rewrite seq_S, flat_map_app. cbn [flat_map Nat.add].
  now rewrite app_nil_r.
Qed.

Lemma round_robin_count (testData : list Chat) (j : nat) (chat : Chat) (n : nat) :
  NoDup (map chatId testData) -> testData !! j = Some chat ->
  length (List.filter (fun c => bool_decide (c = chatId chat))
                      (chats_round_robin testData n))
  = (n / length testData
     + (if decide (j < n mod length testData)%nat then 1 else 0))%nat.
Proof.
  intros Hnd Hj.
  assert (Hk : (j < length testData)%nat) by (eapply lookup_lt_Some; exact Hj).
  induction n as [|n IH].
  - rewrite Nat.Div0.div_0_l, Nat.Div0.mod_0_l.
    destruct (decide (j < 0)%nat); [lia | reflexivity].
  - rewrite chats_round_robin_S, List.filter_app, length_app, IH.
    rewrite (round_robin_step (length testData) n j Hk). f_equal.
    destruct (lookup_lt_is_Some_2 testData (n mod length testData)) as [c Hc].
    { apply Nat.mod_upper_bound. lia. }
    rewrite Hc. cbn [List.filter].
    destruct (decide (n mod length testData = j)%nat) as [E|E].
    + rewrite E in Hc. rewrite Hj in Hc. injection Hc as <-.
      now rewrite bool_decide_eq_true_2.
    + rewrite bool_decide_eq_false_2; [reflexivity|].
      intros Heq. apply E.
      apply (NoDup_lookup (map chatId testData) _ _ (chatId chat) Hnd).
      * change (map chatId testData) with (chatId <$> testData).
        rewrite list_lookup_fmap, Hc. cbn. now rewrite Heq.
      * change (map chatId testData) with (chatId <$> testData).
        now rewrite list_lookup_fmap, Hj.
Qed.

(** X15: the concurrent readers are dealt to the chats in turn: with
    [k] chats of distinct identifiers, every variant is sent, for the
    chat at position [j], the reads of the users [j], [j + k],
    [j + 2k], ..., that is [n / k] reads, and one more for the first
    [n mod k] chats. *)
Theorem concurrent_readers_take_the_chats_in_turn {St} (env : Env)
    (adapters : PerWay (Store.Adapter St)) (testData : list Chat) (n : nat)
    (w : World St) (way : Way) (j : nat) (chat : Chat) :
  NoDup (map chatId testData) ->
  testData !! j = Some chat ->
  exists w',
    benchmarkConcurrentReads env adapters testData n w = (Ok tt, w')
    /\ length (List.filter (reads (chatId chat)) (issued way (observed w w')))
       = (n / length testData
          + (if decide (j < n mod length testData)%nat then 1 else 0))%nat.
Proof.
  intros Hnd Hj.
  assert (Hne : testData <> []) by (intros ->; discriminate Hj).
  destruct (benchmark_reading env adapters n ConcurrentReads testData w way)
    as (w' & Hrun & Hissued & _); [auto|].
  exists w'. split; [exact Hrun|].
  rewrite Hissued. cbn [calls_of]. unfold concurrent_calls.
  rewrite <- (round_robin_count testData j chat n Hnd Hj).
  induction (chats_round_robin testData n) as [|c l IH]; [reflexivity|].
  cbn [map List.filter read_call reads].
  destruct (bool_decide (c = chatId chat)); cbn [length]; now rewrite IH.
Qed.

(** X15 at work: three readers over the two sample chats; the first
    chat is read twice, the second once. *)
Lemma concurrent_readers_take_the_chats_in_turn_witness :
  exists w',
    benchmarkConcurrentReads env_lifo by_chats two_chats 3 start = (Ok tt, w')
    /\ length (List.filter (reads "chat-1") (issued way1 (observed start w')))
       = 2%nat.
Proof.
  destruct (concurrent_readers_take_the_chats_in_turn env_lifo by_chats two_chats 3
              start way1 0 (mkChat "chat-1" [message 1; message 2; message 3]))
    as (w' & Hrun & Hcount).
  - apply NoDup_ListNoDup. vm_compute.
    repeat (constructor; [simpl; intuition discriminate|]). constructor.
  - reflexivity.
  - exists w'. split; [exact Hrun|]. cbn [chatId] in Hcount. rewrite Hcount. reflexivity.
Defined.

End DataLaws.

(* ===================================================================== *)
(** * Laws of the statistics, the report and the analysis *)
(* ===================================================================== *)

Module ReportLaws.
Import JSNumber JSNumberFacts Bench BenchFacts Samples Conformance.
Local Open Scope bench_scope.

(** ** A stable sort keeps the order of equal keys *)

Section Stable.
Context {A : Type} (f : A -> number) (i : A -> nat).

Lemma ahead_leb (a b : A) : ahead f i a b -> leb (f a) (f b) = true.
Proof. intros [H | [H _]]; [now apply ltb_leb | exact H]. Qed.

Lemma insert_ahead (x : A) (l : list A) :
  is_nan (f x) = false -> proper f l ->
  Forall (fun y => (i x < i y)%nat) l ->
  StronglySorted (ahead f i) l ->
  StronglySorted (ahead f i) (insert (minus_by f) x l).
Proof.
  intros Hx Hl Hi Hs. induction Hs as [|y rest Hs IH Hy]; simpl.
  - repeat constructor.
  - inversion Hl as [|? ? Hny Hrest]; subst.
    inversion Hi as [|? ? Hiy Hirest]; subst.
    rewrite positive_minus by assumption.
    destruct (ltb (f y) (f x)) eqn:E.
    + constructor; [now apply IH|].
      rewrite (insert_perm (minus_by f) x rest).
      constructor; [now left | exact Hy].
    + assert (Hxy : leb (f x) (f y) = true) by now apply not_ltb_leb.
      constructor; [now constructor|].
      constructor; [right; now split|].
      rewrite List.Forall_forall in Hy, Hirest. apply List.Forall_forall.
      intros z Hz. right. split.
      * eapply leb_trans; [exact Hxy|]. apply ahead_leb. now apply Hy.
      * now apply Hirest.
Qed.

Lemma sort_ahead (l : list A) :
  proper f l -> StronglySorted (fun a b => (i a < i b)%nat) l ->
  StronglySorted (ahead f i) (sort (minus_by f) l).
Proof.
  induction l as [|x rest IH]; intros Hl Hs; simpl; [constructor|].
  inversion Hl; subst. apply StronglySorted_inv in Hs. destruct Hs as [Hs Hx].
  apply insert_ahead; [assumption | now apply sort_proper | | now apply IH].
  now rewrite (sort_perm (minus_by f) rest).
Qed.

End Stable.

(** ** The minimum and the maximum of a bundle *)

(** X16: in a bundle computed from at least one duration, none of them
    [NaN], the minimum and the maximum are durations of the list, no
    duration is below the minimum or above the maximum, the minimum is
    not above the maximum, and the count is the number of durations. *)
Theorem min_and_max_are_recorded_durations (ds : list number) :
  ds <> [] -> no_nan ds ->
  In (min (bundle ds)) ds
  /\ In (max (bundle ds)) ds
  /\ Forall (fun d => leb (min (bundle ds)) d = true
                      /\ leb d (max (bundle ds)) = true) ds
  /\ leb (min (bundle ds)) (max (bundle ds)) = true
  /\ count (bundle ds) = length ds.
Proof.
  intros Hne Hnn. cbn [bundle min max count].
  destruct (Math_min_spec ds Hnn) as [Hlo Hmin].
  destruct (Math_max_spec ds Hnn) as [Hhi Hmax].
  specialize (Hmin Hne). specialize (Hmax Hne).
  split; [exact Hmin|]. split; [exact Hmax|].
  rewrite List.Forall_forall in Hlo, Hhi.
  split; [|split; [now apply Hlo | reflexivity]].
  apply List.Forall_forall. intros d Hd. split; [now apply Hlo | now apply Hhi].
Qed.

(** X16 at work: the durations 2, 1 and 6. *)
Lemma min_and_max_are_recorded_durations_witness :
  (min (bundle [of_nat 2; of_nat 1; of_nat 6]),
   max (bundle [of_nat 2; of_nat 1; of_nat 6])) = (of_nat 1, of_nat 6)
  /\ In (min (bundle [of_nat 2; of_nat 1; of_nat 6])) [of_nat 2; of_nat 1; of_nat 6]
  /\ leb (min (bundle [of_nat 2; of_nat 1; of_nat 6]))
         (max (bundle [of_nat 2; of_nat 1; of_nat 6])) = true.
Proof.
  split; [vm_compute; reflexivity|].
  destruct (min_and_max_are_recorded_durations [of_nat 2; of_nat 1; of_nat 6])
    as (Hmin & _ & _ & Hle & _).
  - discriminate.
  - repeat constructor.
  - split; [exact Hmin | exact Hle].
Defined.

(** ** The entries of a ranking *)

Lemma collect_entries (res : PerWay WayResults) (op : string) (r : Ranked) :
  In r (collect res op) ->
  exists b, bundles (get_way res (rway r)) !! op = Some b /\ r = entry (rway r) b.
Proof.
  unfold collect, ways. cbn [flat_map].
  destruct (bundles (get_way res way1) !! op) as [b1|] eqn:E1;
  destruct (bundles (get_way res way2) !! op) as [b2|] eqn:E2;
  destruct (bundles (get_way res way3) !! op) as [b3|] eqn:E3;
    cbn [app In]; intros H;
    repeat (destruct H as [<- | H]; [cbn [rway]; eauto|]); destruct H.
Qed.

Lemma collect_ways (res : PerWay WayResults) (op : string) :
  map rway (collect res op) = recorded res op.
Proof.
  unfold collect, recorded, ways. cbn [flat_map List.filter].
  destruct (bundles (get_way res way1) !! op) as [b1|];
  destruct (bundles (get_way res way2) !! op) as [b2|];
  destruct (bundles (get_way res way3) !! op) as [b3|]; reflexivity.
Qed.

Lemma collect_in_order (res : PerWay WayResults) (op : string) :
  StronglySorted (fun a b => (way_index (rway a) < way_index (rway b))%nat)
                 (collect res op).
Proof.
  unfold collect, ways. cbn [flat_map].
  destruct (bundles (get_way res way1) !! op) as [b1|];
  destruct (bundles (get_way res way2) !! op) as [b2|];
  destruct (bundles (get_way res way3) !! op) as [b3|];
    cbn [app];
    repeat first [apply SSorted_nil | apply SSorted_cons
                 | apply List.Forall_nil | apply List.Forall_cons];
    simpl; lia.
Qed.

Lemma recorded_NoDup (res : PerWay WayResults) (op : string) : NoDup (recorded res op).
Proof.
  unfold recorded. apply NoDup_ListNoDup, List.NoDup_filter, NoDup_ListNoDup.
  unfold ways. repeat (constructor; [rewrite ?list_elem_of_In; simpl; intuition discriminate|]).
  constructor.
Qed.

Lemma recorded_nil (res : PerWay WayResults) (op : string) :
  recorded res op = [] <-> forall way, bundles (get_way res way) !! op = None.
Proof.
  unfold recorded, ways. cbn [List.filter]. split.
  - intros H way.
    destruct (bundles (get_way res way) !! op) as [b|] eqn:E; [|reflexivity].
    exfalso. destruct way;
      rewrite (bool_decide_eq_true_2 _ (mk_is_Some _ _ E)) in H;
      repeat match type of H with context [bool_decide ?P] => destruct (bool_decide P) end;
      discriminate H.
  - intros H. now rewrite !H.
Qed.

Lemma ranking_nil (res : PerWay WayResults) (op : string) :
  ranking res op = [] <-> recorded res op = [].
Proof.
  rewrite <- collect_ways. unfold ranking, by_average.
  pose proof (sort_perm (fun a b => sub (avg a) (avg b)) (collect res op)) as Hp.
  split; intros H.
  - rewrite H in Hp. apply Permutation_nil in Hp. now rewrite Hp.
  - apply map_eq_nil in H. now rewrite H.
Qed.

Lemma ranking_proper (res : PerWay WayResults) (op : string) :
  (forall way b, bundles (get_way res way) !! op = Some b -> is_nan (average b) = false) ->
  proper avg (collect res op).
Proof.
  intros H. apply List.Forall_forall. intros r Hr.
  destruct (collect_entries res op r Hr) as (b & Hb & E).
  rewrite E. cbn [entry avg]. exact (H (rway r) b Hb).
Qed.

Lemma recorded_In (res : PerWay WayResults) (op : string) (way : Way) :
  In way (recorded res op) <-> is_Some (bundles (get_way res way) !! op).
Proof.
  unfold recorded. rewrite List.filter_In, bool_decide_eq_true.
  split; [tauto|]. intros H. split; [|exact H]. destruct way; simpl; tauto.
Qed.

Lemma winner_of_Ok (res : PerWay WayResults) (op : string) (w : Way) :
  winner_of res op = Ok w <-> (rway <$> head (ranking res op)) = Some w.
Proof.
  unfold winner_of. destruct (ranking res op) as [|first others]; cbn.
  - split; discriminate.
  - split; intros [= <-]; reflexivity.
Qed.

Lemma winner_of_recorded_iff (res : PerWay WayResults) (op : string) :
  (exists w, winner_of res op = Ok w) <-> recorded res op <> [].
Proof.
  rewrite <- ranking_nil. unfold winner_of.
  destruct (ranking res op) as [|first others].
  - split; [intros [w H]; discriminate | congruence].
  - split; [discriminate | eauto].
Qed.

(** The recommendations are the four below, and an analysis that
    returns has found a winner for each of the five operations. *)
Lemma analyzeResults_shape (res : PerWay WayResults) (recs : list Recommendation) :
  analyzeResults res = Ok recs ->
  exists overall reading adding concurrent,
    recs = [OverallBest overall; BestReading reading; BestAdding adding;
            BestConcurrent concurrent]
    /\ overallWinner res = Ok overall
    /\ winner_of res "readMessages" = Ok reading
    /\ winner_of res "addMessage" = Ok adding
    /\ winner_of res "concurrentReads" = Ok concurrent
    /\ forall op, In op operations -> exists w, winner_of res op = Ok w.
Proof.
  unfold analyzeResults, operations. cbn [winners_of].
  destruct (winner_of res "addMessage") as [w1|] eqn:E1; [|discriminate].
  destruct (winner_of res "readMessages") as [w2|] eqn:E2; [|discriminate].
  destruct (winner_of res "editMessage") as [w3|] eqn:E3; [|discriminate].
  destruct (winner_of res "deleteMessage") as [w4|] eqn:E4; [|discriminate].
  destruct (winner_of res "concurrentReads") as [w5|] eqn:E5; [|discriminate].
  destruct (overallWinner res) as [w|]; [|discriminate].
  unfold winner_named.
  rewrite (lookup_insert_ne _ "concurrentReads" "readMessages") by done.
  rewrite (lookup_insert_ne _ "deleteMessage" "readMessages") by done.
  rewrite (lookup_insert_ne _ "editMessage" "readMessages") by done.
  rewrite lookup_insert_eq.
  rewrite (lookup_insert_ne _ "concurrentReads" "addMessage") by done.
  rewrite (lookup_insert_ne _ "deleteMessage" "addMessage") by done.
  rewrite (lookup_insert_ne _ "editMessage" "addMessage") by done.
  rewrite (lookup_insert_ne _ "readMessages" "addMessage") by done.
  rewrite !lookup_insert_eq.
  intros [= <-]. exists w, w2, w1, w5. repeat (split; [reflexivity|]).
  intros op Hop. simpl in Hop.
  destruct Hop as [<- | [<- | [<- | [<- | [<- | []]]]]]; eauto.
Qed.

Lemma analyzeResults_throws (res : PerWay WayResults) (e : Error) :
  analyzeResults res = Throw e -> exists what, e = TypeError what.
Proof.
  unfold analyzeResults, operations. cbn [winners_of]. unfold winner_of, overallWinner.
  repeat match goal with
         | |- context [match ?l with [] => _ | _ :: _ => _ end] => destruct l
         end;
    unfold winner_named;
    repeat match goal with
           | |- context [match ?o with Some _ => _ | None => _ end] => destruct o
           end;
    intros [= <-]; eauto.
Qed.

Lemma analyzeResults_Ok_iff (res : PerWay WayResults) :
  (forall op, In op operations ->
     exists way, is_Some (bundles (get_way res way) !! op))
  <-> exists recs, analyzeResults res = Ok recs.
Proof.
  split.
  - intros H. destruct (analyzeResults_returns res) as (recs & Hrecs & _); [|eauto].
    intros op Hop Hnil. destruct (H op Hop) as [way Hway].
    apply recorded_In in Hway. rewrite <- collect_ways, Hnil in Hway. destruct Hway.
  - intros [recs Hrecs] op Hop.
    destruct (analyzeResults_shape res recs Hrecs) as (_ & _ & _ & _ & _ & _ & _ & _ & _ & H).
    specialize (H op Hop). apply winner_of_recorded_iff in H.
    destruct (recorded res op) as [|way l] eqn:E; [congruence|].
    exists way. apply recorded_In. rewrite E. now left.
Qed.

Lemma operation_lines_length (res : PerWay WayResults) (op : string) :
  length (operation_lines res op) = (2 + length (recorded res op))%nat.
Proof.
  unfold operation_lines. cbn [app length]. rewrite length_imap.
  rewrite <- collect_ways, length_map. cbn [Nat.add]. f_equal. f_equal.
  apply Permutation_length, sort_perm.
Qed.

Lemma traffic_console (lines : list Line) : traffic (map Console lines) = [].
Proof. induction lines as [|l lines IH]; [reflexivity | exact IH]. Qed.

(** X17: [analyzeResults] returns exactly when each of the five
    operations has a bundle for at least one variant, the edits and the
    deletes included, although it recommends nothing for them; otherwise
    it throws a [TypeError].  When it returns, it returns four
    recommendations: the overall winner, then the variants listed first
    in the rankings of the reads, of the adds and of the concurrent
    reads. *)
Theorem analyzeResults_needs_every_operation (res : PerWay WayResults) :
  ((forall op, In op operations ->
      exists way, is_Some (bundles (get_way res way) !! op))
   <-> exists recs, analyzeResults res = Ok recs)
  /\ ((exists op, In op operations
                 /\ forall way, bundles (get_way res way) !! op = None)
      <-> exists what, analyzeResults res = Throw (TypeError what))
  /\ forall recs, analyzeResults res = Ok recs ->
     exists overall reading adding concurrent,
       recs = [OverallBest overall; BestReading reading; BestAdding adding;
               BestConcurrent concurrent]
       /\ overallWinner res = Ok overall
       /\ (rway <$> head (ranking res "readMessages")) = Some reading
       /\ (rway <$> head (ranking res "addMessage")) = Some adding
       /\ (rway <$> head (ranking res "concurrentReads")) = Some concurrent.
Proof.
  pose proof (analyzeResults_Ok_iff res) as Hall.
  split; [exact Hall|]. split.
  - split.
    + intros (op & Hop & Hnone).
      destruct (analyzeResults res) as [recs|e] eqn:E.
      * exfalso. destruct Hall as [_ Hall]. destruct (Hall (ex_intro _ recs eq_refl) op Hop)
          as [way [b Hb]]. rewrite Hnone in Hb. discriminate.
      * destruct (analyzeResults_throws res e E) as [what ->]. eauto.
    + intros [what Hthrow].
      assert (Hdec : forall op, recorded res op = []
                                \/ exists way, is_Some (bundles (get_way res way) !! op)).
      { intros op. destruct (recorded res op) as [|way l] eqn:E; [now left|].
        right. exists way. apply recorded_In. rewrite E. now left. }
      destruct (Hdec "addMessage") as [H1|H1];
        [exists "addMessage"%string; split; [simpl; tauto | now apply recorded_nil]|].
      destruct (Hdec "readMessages") as [H2|H2];
        [exists "readMessages"%string; split; [simpl; tauto | now apply recorded_nil]|].
      destruct (Hdec "editMessage") as [H3|H3];
        [exists "editMessage"%string; split; [simpl; tauto | now apply recorded_nil]|].
      destruct (Hdec "deleteMessage") as [H4|H4];
        [exists "deleteMessage"%string; split; [simpl; tauto | now apply recorded_nil]|].
      destruct (Hdec "concurrentReads") as [H5|H5];
        [exists "concurrentReads"%string; split; [simpl; tauto | now apply recorded_nil]|].
      exfalso. destruct Hall as [Hall _]. destruct Hall as [recs Hrecs].
      * intros op Hop. simpl in Hop.
        destruct Hop as [<- | [<- | [<- | [<- | [<- | []]]]]]; assumption.
      * rewrite Hrecs in Hthrow. discriminate.
  - intros recs Hrecs.
    destruct (analyzeResults_shape res recs Hrecs)
      as (o & r & a & c & E & Ho & Hr & Ha & Hc & _).
    exists o, r, a, c. rewrite <- !winner_of_Ok. auto.
Qed.

(** X18: whatever the averages are, [NaN] included, the ranking of an
    operation lists the variants that have a bundle for it, each once,
    with the average, minimum and maximum of its own bundle; a variant
    without a bundle is not listed.  The report prints one line for each
    of them under the heading of the operation. *)
Theorem ranking_lists_the_recorded (res : PerWay WayResults) (op : string) :
  Permutation (map rway (ranking res op)) (recorded res op)
  /\ NoDup (map rway (ranking res op))
  /\ (forall r, In r (ranking res op) ->
      exists b, bundles (get_way res (rway r)) !! op = Some b
                /\ r = entry (rway r) b)
  /\ length (operation_lines res op) = (2 + length (recorded res op))%nat
  /\ (In op operations ->
      forall St (w : World St), results w = res ->
      exists before after,
        events (snd (generateReport w))
        = events w ++ map Console (before ++ operation_lines res op ++ after)).
Proof.
  assert (Hp : Permutation (ranking res op) (collect res op)) by apply sort_perm.
  assert (Hw : Permutation (map rway (ranking res op)) (recorded res op)).
  { rewrite <- collect_ways. now apply Permutation_map. }
  split; [exact Hw|]. split.
  { rewrite Hw. apply recorded_NoDup. }
  split.
  { intros r Hr. apply collect_entries. eapply Permutation_in; [exact Hp | exact Hr]. }
  split.
  { apply operation_lines_length. }
  intros Hop St w <-.
  destruct (report_prints (results w) op Hop) as (before & after & Hlines).
  rewrite generateReport_spec.
  destruct (analyzeResults (results w)) as [recs|e]; cbn [snd seen events].
  - exists before, (after ++ recommendation_lines recs).
    now rewrite Hlines, <- !app_assoc.
  - exists before, after. now rewrite Hlines.
Qed.

(** X19: when the averages recorded for an operation are numbers (none
    is [NaN]), every variant is listed ahead of the variants after it:
    its average is smaller, or it is not greater and the variant comes
    first in the order way1, way2, way3.  Variants with equal averages
    are thus listed in that order. *)
Theorem ranking_ties_keep_variant_order (res : PerWay WayResults) (op : string) :
  (forall way b, bundles (get_way res way) !! op = Some b ->
                 is_nan (average b) = false) ->
  StronglySorted (ahead avg (fun r => way_index (rway r))) (ranking res op)
  /\ forall first others, ranking res op = first :: others ->
     Forall (ahead avg (fun r => way_index (rway r)) first) others.
Proof.
  intros H.
  assert (Hs : StronglySorted (ahead avg (fun r => way_index (rway r)))
                 (ranking res op)).
  { unfold ranking, by_average.
    change (fun a b : Ranked => sub (avg a) (avg b)) with (minus_by avg).
    apply sort_ahead; [now apply ranking_proper | apply collect_in_order]. }
  split; [exact Hs|].
  intros first others E. rewrite E in Hs. now apply StronglySorted_inv in Hs.
Qed.

(** X19 at work: the first and the third variant share the least
    average; the first is listed before the third. *)
Lemma ranking_ties_keep_variant_order_witness :
  map avg (collect first_and_third_tied "readMessages") = [of_nat 1; of_nat 2; of_nat 1]
  /\ StronglySorted (ahead avg (fun r => way_index (rway r)))
       (ranking first_and_third_tied "readMessages")
  /\ map rway (ranking first_and_third_tied "readMessages") = [way1; way3; way2].
Proof.
  split; [vm_compute; reflexivity|]. split; [|vm_compute; reflexivity].
  apply (ranking_ties_keep_variant_order first_and_third_tied "readMessages").
  intros way b Hb. destruct way; vm_compute in Hb; injection Hb as <-; reflexivity.
Defined.

(** X20: when the three scores are numbers (none is [NaN]), the overall
    winner is ahead of every other variant: its score is smaller, or it
    is not greater and the winner comes first in the order way1, way2,
    way3.  Of several variants with the least score the first one
    wins. *)
Theorem overall_winner_breaks_ties (res : PerWay WayResults) :
  (forall way, is_nan (score res way) = false) ->
  exists winner,
    overallWinner res = Ok winner
    /\ forall way, way <> winner -> ahead (score res) way_index winner way.
Proof.
  intros Hnan. unfold overallWinner.
  change (fun a b : Way * number => sub (snd a) (snd b))
    with (minus_by (A := Way * number) snd).
  pose proof (sort_perm (minus_by snd) (overallScores res)) as Hp.
  assert (Hs : StronglySorted (ahead snd (fun e : Way * number => way_index (fst e)))
                 (sort (minus_by snd) (overallScores res))).
  { apply sort_ahead; [now apply overallScores_proper|].
    unfold overallScores, ways. cbn [map].
    repeat first [apply SSorted_nil | apply SSorted_cons
                 | apply List.Forall_nil | apply List.Forall_cons]; simpl; lia. }
  destruct (sort (minus_by snd) (overallScores res)) as [|first others] eqn:E.
  { apply Permutation_length in Hp. discriminate. }
  exists (fst first). split; [reflexivity|].
  assert (Hscore : forall e, In e (first :: others) -> snd e = score res (fst e)).
  { intros e He. apply (Permutation_in _ Hp) in He.
    unfold overallScores in He. apply in_map_iff in He.
    destruct He as (w & <- & _). reflexivity. }
  intros way Hway.
  assert (Hin : In (way, score res way) (first :: others)).
  { eapply Permutation_in; [symmetry; exact Hp|].
    unfold overallScores.
    apply (List.in_map (fun w => (w, score res w)) ways way).
    destruct way; simpl; tauto. }
  apply StronglySorted_inv in Hs. destruct Hs as [_ Hall].
  destruct Hin as [Hin | Hin].
  { subst first. now cbn [fst] in Hway. }
  rewrite List.Forall_forall in Hall. specialize (Hall _ Hin).
  unfold ahead in *. cbn [fst snd] in Hall.
  now rewrite (Hscore first (or_introl eq_refl)) in Hall.
Qed.

(** X20 at work: the first and the third variant share the least score;
    the first wins. *)
Lemma overall_winner_breaks_ties_witness :
  map (score first_and_third_tied) ways = [of_nat 5; of_nat 10; of_nat 5]
  /\ exists winner,
       overallWinner first_and_third_tied = Ok winner /\ winner = way1.
Proof.
  split; [vm_compute; reflexivity|].
  destruct (overall_winner_breaks_ties first_and_third_tied) as (winner & Hw & _).
  { intros way. destruct way; vm_compute; reflexivity. }
  exists winner. split; [exact Hw|].
  vm_compute in Hw. now injection Hw as <-.
Defined.

Lemma recorded_all (res : PerWay WayResults) (op : string) :
  (forall way, is_Some (bundles (get_way res way) !! op)) -> recorded res op = ways.
Proof.
  intros H. unfold recorded, ways. cbn [List.filter].
  now rewrite !bool_decide_eq_true_2 by apply H.
Qed.

(** X21: [generateReport] only prints: it leaves the results and the
    stores as they are and sends no call.  It returns exactly when every
    operation has a bundle for some variant.  It prints sixteen lines of
    headings, one line for every bundle of the five operations and,
    when it returns, the four recommendations; with a bundle for every
    variant and operation, as after a full run, that makes 35 lines. *)
Theorem generateReport_only_prints {St} (w : World St) :
  let out := generateReport w in
  results (snd out) = results w
  /\ stores (snd out) = stores w
  /\ traffic (observed w (snd out)) = []
  /\ (fst out = Ok tt
      <-> forall op, In op operations ->
          exists way, is_Some (bundles (get_way (results w) way) !! op))
  /\ length (observed w (snd out))
     = (16 + length (flat_map (recorded (results w)) operations)
        + match fst out with Ok _ => 4 | Throw _ => 0 end)%nat
  /\ ((forall way op, In op operations ->
         is_Some (bundles (get_way (results w) way) !! op)) ->
      fst out = Ok tt /\ length (observed w (snd out)) = 35%nat).
Proof.
  cbv zeta. rewrite generateReport_spec.
  pose proof (analyzeResults_Ok_iff (results w)) as Hiff.
  assert (Hlines : length (report_lines (results w))
                   = (16 + length (flat_map (recorded (results w)) operations))%nat).
  { unfold report_lines, operations. cbn [flat_map].
    rewrite !length_app, !operation_lines_length. cbn [length]. lia. }
  assert (Hfull : (forall way op, In op operations ->
                     is_Some (bundles (get_way (results w) way) !! op)) ->
                  length (flat_map (recorded (results w)) operations) = 15%nat
                  /\ exists recs, analyzeResults (results w) = Ok recs).
  { intros H. split.
    - unfold operations. cbn [flat_map].
      rewrite !recorded_all by (intros way; apply H; simpl; tauto). reflexivity.
    - apply Hiff. intros op Hop. exists way1. now apply H. }
  destruct (analyzeResults (results w)) as [recs|e] eqn:E;
    cbn [fst snd seen results stores]; unfold observed; cbn [events seen];
    rewrite drop_app_length, traffic_console, length_map.
  - split; [reflexivity|]. split; [reflexivity|]. split; [reflexivity|].
    destruct (analyzeResults_shape (results w) recs E)
      as (o & r & a & c & -> & _).
    split; [split; [intros _; apply Hiff; eauto | reflexivity]|].
    rewrite length_app, Hlines. split; [reflexivity|].
    intros H. destruct (Hfull H) as [-> _]. now split.
  - split; [reflexivity|]. split; [reflexivity|]. split; [reflexivity|].
    split.
    + split; [discriminate|]. intros H. apply Hiff in H. destruct H as [recs H].
      discriminate H.
    + rewrite Hlines. split; [lia|].
      intros H. destruct (Hfull H) as [_ [recs Hrecs]]. discriminate Hrecs.
Qed.

End ReportLaws.

(* ===================================================================== *)
(** * Laws of the full benchmark and of the command-line run *)
(* ===================================================================== *)

Module RunLaws.
Import JSNumber JSNumberFacts Bench BenchFacts Samples Conformance PhaseLaws.
Local Open Scope bench_scope.

Section Runs.
Context {St : Type}.
Variable env : Env.
Variable adapters : PerWay (Store.Adapter St).

(** Without any chat the concurrent phase throws at its first read,
    after the two lines that announce the phase and the first variant. *)
Lemma benchmarkConcurrentReads_throws (n : nat) (w : World St) :
  benchmarkConcurrentReads env adapters [] (S n) w
  = (Throw (TypeError "Cannot read properties of undefined (reading 'chatId')"),
     seen w [Console (LBenchmarkingConcurrent (S n)); Console (LTesting way1)]).
Proof.
  unfold benchmarkConcurrentReads. rewrite bind_console. cbn [for_each ways].
  unfold bind at 1. rewrite bind_console. rewrite seen_seen. reflexivity.
Qed.

Lemma generateTestData_none (numChats messagesPerChat : Z) (w : World St) :
  numChats <= 0 -> generateTestData env numChats messagesPerChat w = (Ok [], w).
Proof.
  intros H. unfold generateTestData.
  replace (Z.to_nat numChats) with 0%nat by lia. reflexivity.
Qed.

(** A phase that has no call to send. *)
Lemma idle_phase (header : Line) (operation : string) (w : World St) :
  let w' := after_phase adapters header operation (fun _ => [])
              (fun way => awaited way []) w in
  went w w' (stage_of (Console header)) []
  /\ forall way,
     bundles (get_way (results w') way)
     = <[operation := bundle []]> (bundles (get_way (results w) way))
     /\ stats (get_way (results w') way) = stats (get_way (results w) way)
     /\ get_way (stores w') way = get_way (stores w) way.
Proof.
  cbv zeta. split; [apply (sequential_went adapters header operation [] w)|].
  intros way.
  destruct (after_phase_reading adapters header operation (fun _ => [])
              (fun _ => []) (fun way' => awaited way' []) w way)
    as (_ & _ & H3 & H4 & H5 & _).
  { intros way' rs Hlen. now apply awaited_read. }
  auto.
Qed.

(** What [cleanup] adds to a run. *)
Lemma cleanup_effect (w : World St) :
  exists w',
    cleanup adapters w = (Ok tt, w')
    /\ events w'
       = events w ++ [Console LCleaningUp; Issued way1 CClose; Issued way2 CClose;
                      Issued way3 CClose; Console LCleanedUp]
    /\ results w' = results w
    /\ forall way, get_way (stores w') way
                   = Store.close (get_way adapters way) (get_way (stores w) way).
Proof.
  unfold cleanup. rewrite bind_console.
  unfold bind at 1. rewrite close_way_spec.
  unfold bind at 1. rewrite close_way_spec.
  unfold bind at 1. rewrite close_way_spec.
  rewrite console_seen.
  eexists. split; [reflexivity|].
  cbn [events results stores seen]. split; [now rewrite <- !app_assoc|].
  split; [reflexivity|]. intros way. destruct way; reflexivity.
Qed.

(** [initialize] stops at the first variant that cannot be opened. *)
Lemma initialize_rejected (w : World St) (way : Way) :
  Store.initialize (get_way adapters way) (get_way (stores w) way) = None ->
  (forall way', (way_index way' < way_index way)%nat ->
     is_Some (Store.initialize (get_way adapters way') (get_way (stores w) way'))) ->
  exists w',
    initialize adapters w = (Throw (InitializeRejected way), w')
    /\ events w'
       = events w ++ Console LInitializing
                     :: map (fun way' => Issued way' CInitialize)
                            (take (S (way_index way)) ways)
    /\ results w' = results w
    /\ forall way', (way_index way <= way_index way')%nat ->
       get_way (stores w') way' = get_way (stores w) way'.
Proof.
  intros Hnone Hsome. unfold initialize, initialize_way.
  unfold bind, console, emit.
  cbn [stores results events randoms clocks uuids get_way set_way at1 at2 at3].
  destruct way; cbn [get_way way_index] in Hnone.
  - rewrite Hnone. eexists. split; [reflexivity|].
    cbn [events results stores]. split; [now rewrite <- !app_assoc|].
    split; [reflexivity|]. intros way' _. reflexivity.
  - destruct (Hsome way1) as [s1 H1]; [simpl; lia|]. cbn [get_way] in H1. rewrite H1.
    cbn [stores results events randoms clocks uuids get_way set_way at1 at2 at3].
    rewrite Hnone. eexists. split; [reflexivity|].
    cbn [events results stores]. split; [now rewrite <- !app_assoc|].
    split; [reflexivity|]. intros way' Hw. destruct way'; simpl in Hw; [lia | |]; reflexivity.
  - destruct (Hsome way1) as [s1 H1]; [simpl; lia|]. cbn [get_way] in H1. rewrite H1.
    cbn [stores results events randoms clocks uuids get_way set_way at1 at2 at3].
    destruct (Hsome way2) as [s2 H2]; [simpl; lia|]. cbn [get_way] in H2. rewrite H2.
    cbn [stores results events randoms clocks uuids get_way set_way at1 at2 at3].
    rewrite Hnone. eexists. split; [reflexivity|].
    cbn [events results stores]. split; [now rewrite <- !app_assoc|].
    split; [reflexivity|]. intros way' Hw. destruct way'; simpl in Hw; [lia | lia |]; reflexivity.
Qed.

(** Either the three variants can be opened, or there is a first one
    that cannot. *)
Lemma initialize_cases (w : World St) :
  (forall way, is_Some (Store.initialize (get_way adapters way)
                                        (get_way (stores w) way)))
  \/ exists way,
       Store.initialize (get_way adapters way) (get_way (stores w) way) = None
       /\ forall way', (way_index way' < way_index way)%nat ->
          is_Some (Store.initialize (get_way adapters way') (get_way (stores w) way')).
Proof.
  destruct (Store.initialize (get_way adapters way1) (get_way (stores w) way1)) eqn:E1.
  - destruct (Store.initialize (get_way adapters way2) (get_way (stores w) way2)) eqn:E2.
    + destruct (Store.initialize (get_way adapters way3) (get_way (stores w) way3)) eqn:E3.
      * left. intros way. destruct way; rewrite ?E1, ?E2, ?E3; eauto.
      * right. exists way3. split; [exact E3|].
        intros way' Hw. destruct way'; simpl in Hw; rewrite ?E1, ?E2; eauto; lia.
    + right. exists way2. split; [exact E2|].
      intros way' Hw. destruct way'; simpl in Hw; rewrite ?E1; eauto; lia.
  - right. exists way1. split; [exact E1|].
    intros way' Hw. simpl in Hw. lia.
Qed.

(** The run when a variant cannot be opened. *)
Lemma run_rejected (w : World St) (way : Way) :
  Store.initialize (get_way adapters way) (get_way (stores w) way) = None ->
  (forall way', (way_index way' < way_index way)%nat ->
     is_Some (Store.initialize (get_way adapters way') (get_way (stores w) way'))) ->
  exists w',
    run env adapters w = (Ok tt, w')
    /\ observed w w'
       = Console LInitializing
         :: map (fun way' => Issued way' CInitialize) (take (S (way_index way)) ways)
         ++ [Console (LFailed (InitializeRejected way));
             Console LCleaningUp; Issued way1 CClose; Issued way2 CClose;
             Issued way3 CClose; Console LCleanedUp]
    /\ results w' = results w.
Proof.
  intros Hnone Hsome.
  destruct (initialize_rejected w way Hnone Hsome) as (w1 & Hinit & Hev1 & Hres1 & _).
  unfold run, try_catch_finally. unfold bind at 1. rewrite Hinit.
  rewrite bind_console.
  destruct (cleanup_effect (seen w1 [Console (LFailed (InitializeRejected way))]))
    as (w2 & Hclean & Hev2 & Hres2 & _).
  rewrite Hclean. exists w2. split; [reflexivity|].
  unfold observed. rewrite Hev2. cbn [events seen]. rewrite Hev1.
  rewrite <- !app_assoc, drop_app_length.
  split; [reflexivity|]. now rewrite Hres2.
Qed.

(** The run when the three variants can be opened. *)
Lemma run_opened (w : World St) :
  (forall way, is_Some (Store.initialize (get_way adapters way)
                                        (get_way (stores w) way))) ->
  exists testData w',
    run env adapters w = (Ok tt, w')
    /\ length testData = 10%nat
    /\ Forall (fun chat => length (messages chat) = 100%nat) testData
    /\ stages (observed w w') = nine_stages
    /\ forall way, issued way (observed w w') = calls_of_run testData.
Proof.
  intros Hinit. unfold run, try_catch_finally.
  destruct (initialize_spec adapters w Hinit) as (w1 & Hi & Hwent1 & _).
  unfold bind at 1. rewrite Hi.
  destruct (runFullBenchmark_spec env adapters 10 100 w1)
    as (td & w2 & Hfull & Hlen & Hshape & Hwent2); [lia|].
  rewrite Hfull.
  destruct (cleanup_spec adapters w2) as (w3 & Hc & Hwent3).
  exists td, w3. split; [exact Hc|]. split; [exact Hlen|]. split; [exact Hshape|].
  pose proof (went_on _ _ _ _ _ _ _ Hwent1 (went_on _ _ _ _ _ _ _ Hwent2 Hwent3))
    as (new & Hnew & Hstages & Hissued).
  unfold observed. rewrite Hnew, drop_app_length.
  split; [exact Hstages|].
  intros way. rewrite Hissued. unfold calls_of_run.
  cbn [app]. now rewrite <- !app_assoc.
Qed.

Lemma no_bulk_among_calls (n : nat) (ph : Phase) (testData : list Chat) :
  existsb bulk_or_exists (calls_of n ph testData) = false.
Proof.
  apply not_true_is_false. intros H. apply existsb_exists in H.
  destruct H as (c & Hc & Hb).
  destruct ph; cbn [calls_of] in Hc;
    unfold add_calls, read_calls, edit_calls, delete_calls, concurrent_calls in Hc;
    repeat match goal with
           | H : In _ (flat_map _ _) |- _ =>
               apply in_flat_map in H; destruct H as (? & _ & H)
           | H : In _ (map _ _) |- _ =>
               apply in_map_iff in H; destruct H as (? & H & _)
           end; subst c; discriminate Hb.
Qed.

Lemma no_close_among_calls (n : nat) (ph : Phase) (testData : list Chat) :
  ~ In CClose (calls_of n ph testData).
Proof.
  destruct ph; cbn [calls_of]; unfold add_calls, read_calls, edit_calls, delete_calls,
    concurrent_calls; intros H;
    repeat match goal with
           | H : In _ (flat_map _ _) |- _ =>
               apply in_flat_map in H; destruct H as (? & _ & H)
           | H : In _ (map _ _) |- _ =>
               apply in_map_iff in H; destruct H as (? & H & _)
           end; discriminate H.
Qed.

(** What [getStorageStats] does for each variant. *)
Lemma getStorageStats_effect (w : World St) :
  exists w',
    getStorageStats adapters w = (Ok tt, w')
    /\ went w w' [SStats] [CGetStats]
    /\ forall way,
       let out := Store.getStats (get_way adapters way) (get_way (stores w) way) in
       bundles (get_way (results w') way) = bundles (get_way (results w) way)
       /\ stats (get_way (results w') way) = Some (snd out)
       /\ get_way (stores w') way = fst out
       /\ In (Console (LStoreStats way (snd out))) (observed w w').
Proof.
  unfold getStorageStats. cbn [for_each ways].
  unfold bind, console, emit, on_store, record_stats, ret.
  cbn [stores results events randoms clocks uuids get_way set_way at1 at2 at3].
  destruct (Store.getStats (at1 adapters) (at1 (stores w))) as [s1 st1] eqn:E1.
  cbn [stores results events randoms clocks uuids get_way set_way at1 at2 at3].
  destruct (Store.getStats (at2 adapters) (at2 (stores w))) as [s2 st2] eqn:E2.
  cbn [stores results events randoms clocks uuids get_way set_way at1 at2 at3].
  destruct (Store.getStats (at3 adapters) (at3 (stores w))) as [s3 st3] eqn:E3.
  cbn [stores results events randoms clocks uuids get_way set_way at1 at2 at3].
  eexists. split; [reflexivity|]. split.
  - eexists. cbn [events]. split; [rewrite <- !app_assoc; reflexivity|].
    split; [reflexivity|]. intros way. destruct way; reflexivity.
  - intros way. unfold observed.
    cbn [stores results events randoms clocks uuids].
    rewrite <- !app_assoc, drop_app_length.
    destruct way; cbn [get_way set_way at1 at2 at3 bundles stats];
      rewrite ?E1, ?E2, ?E3; cbn [fst snd];
      repeat split; simpl; tauto.
Qed.

(** The full benchmark over at least one chat fills the results. *)
Lemma runFullBenchmark_results (numChats messagesPerChat : Z) (w : World St) :
  1 <= numChats ->
  exists w' recs before,
    runFullBenchmark env adapters numChats messagesPerChat w = (Ok (results w'), w')
    /\ (forall way op, In op operations ->
          is_Some (bundles (get_way (results w') way) !! op))
    /\ (forall way, is_Some (stats (get_way (results w') way)))
    /\ analyzeResults (results w') = Ok recs
    /\ observed w w' = before ++ map Console (recommendation_lines recs).
Proof.
  intros Hn. unfold runFullBenchmark. rewrite bind_console.
  set (w0 := seen w [Console (LStarting numChats messagesPerChat)]).
  destruct (generateTestData_shape env numChats messagesPerChat w0)
    as (td & w1 & Hgen & Hlen & _ & _ & _ & Hu3).
  assert (Hne : td <> []).
  { intros ->. simpl in Hlen. lia. }
  unfold bind at 1. rewrite Hgen.
  unfold bind at 1. rewrite benchmarkAddMessages_spec.
  set (w2 := after_phase _ _ "addMessage" _ _ w1).
  unfold bind at 1. rewrite benchmarkReadMessages_spec.
  set (w3 := after_phase _ _ "readMessages" _ _ w2).
  unfold bind at 1. rewrite benchmarkEditMessages_spec.
  set (w4 := after_phase _ _ "editMessage" _ _ w3).
  unfold bind at 1. rewrite benchmarkDeleteMessages_spec.
  set (w5 := after_phase _ _ "deleteMessage" _ _ w4).
  unfold bind at 1. rewrite (benchmarkConcurrentReads_spec env adapters td 50 w5 Hne).
  cbv zeta.
  set (w6 := after_phase _ _ "concurrentReads" _ _ w5).
  destruct (getStorageStats_effect w6) as (w7 & Hstats & Hwent7 & H7).
  unfold bind at 1. rewrite Hstats.
  unfold bind at 1. rewrite generateReport_spec.
  assert (Hall : forall way op, In op operations ->
                   is_Some (bundles (get_way (results w7) way) !! op)).
  { intros way op Hop. destruct (H7 way) as (-> & _).
    unfold operations in Hop. simpl in Hop.
    destruct Hop as [<- | [<- | [<- | [<- | [<- | []]]]]];
      unfold w6, w5, w4, w3, w2;
      repeat first [ apply after_phase_recorded; left; reflexivity
                   | apply after_phase_recorded; right ]. }
  destruct (analyzeResults_returns (results w7)) as (recs & Hrecs & _).
  { intros op Hop. apply collect_recorded. now apply Hall. }
  rewrite Hrecs. unfold get_results.
  assert (Hto7 : exists new, events w7 = events w ++ new).
  { pose proof (went_on w w0 _ [] _ [] _ (went_console w _)
       (went_on w0 w1 _ [] _ [] _ (went_nowhere w0 w1 Hu3)
       (went_on w1 w2 _ _ _ _ _ (sequential_went adapters _ _ _ w1)
       (went_on w2 w3 _ _ _ _ _ (sequential_went adapters _ _ _ w2)
       (went_on w3 w4 _ _ _ _ _ (sequential_went adapters _ _ _ w3)
       (went_on w4 w5 _ _ _ _ _ (sequential_went adapters _ _ _ w4)
       (went_on w5 w6 _ _ _ _ _ (concurrent_went adapters _ _ _ _ w5)
          Hwent7)))))))
      as (new & Hnew & _). eauto. }
  destruct Hto7 as (new & Hnew).
  exists (seen w7 (map Console (report_lines (results w7)
                                ++ recommendation_lines recs))),
         recs, (new ++ map Console (report_lines (results w7))).
  split; [reflexivity|]. cbn [results seen].
  split; [exact Hall|].
  split; [intros way; destruct (H7 way) as (_ & -> & _); eauto|].
  split; [exact Hrecs|].
  unfold observed. cbn [events seen]. rewrite Hnew, <- !app_assoc, drop_app_length.
  now rewrite map_app.
Qed.

End Runs.

(** X22: with no chat to generate ([numChats] zero or less), the full
    benchmark does not return: the add, read, edit and delete phases
    send nothing and record a bundle of no duration for every variant,
    then the concurrent phase throws a [TypeError] before it issues a
    read; neither the storage statistics nor the report follow. *)
Theorem without_chats_the_run_throws {St} (env : Env)
    (adapters : PerWay (Store.Adapter St)) (numChats messagesPerChat : Z)
    (w : World St) :
  numChats <= 0 ->
  exists w',
    runFullBenchmark env adapters numChats messagesPerChat w
    = (Throw (TypeError "Cannot read properties of undefined (reading 'chatId')"), w')
    /\ stages (observed w w')
       = [SPhase AddMessages; SPhase ReadMessages; SPhase EditMessages;
          SPhase DeleteMessages; SPhase ConcurrentReads]
    /\ (forall way, issued way (observed w w') = [])
    /\ (forall way op,
          In op ["addMessage"; "readMessages"; "editMessage"; "deleteMessage"]%string ->
          bundles (get_way (results w') way) !! op = Some (bundle []))
    /\ (forall way, bundles (get_way (results w') way) !! "concurrentReads"
                    = bundles (get_way (results w) way) !! "concurrentReads")
    /\ (forall way, stats (get_way (results w') way) = stats (get_way (results w) way))
    /\ (forall way, get_way (stores w') way = get_way (stores w) way).
Proof.
  intros Hn. unfold runFullBenchmark. rewrite bind_console.
  set (w0 := seen w [Console (LStarting numChats messagesPerChat)]).
  unfold bind at 1. rewrite (generateTestData_none env numChats messagesPerChat _ Hn).
  unfold bind at 1. rewrite benchmarkAddMessages_spec.
  change (add_calls []) with (@nil Call).
  destruct (idle_phase adapters (LBenchmarking AddMessages) "addMessage" w0)
    as [G1 F1].
  change (results w0) with (results w) in F1.
  change (stores w0) with (stores w) in F1.
  set (w1 := after_phase _ _ "addMessage" _ _ w0) in *.
  unfold bind at 1. rewrite benchmarkReadMessages_spec.
  change (read_calls []) with (@nil Call).
  destruct (idle_phase adapters (LBenchmarking ReadMessages) "readMessages" w1)
    as [G2 F2].
  set (w2 := after_phase _ _ "readMessages" _ _ w1) in *.
  unfold bind at 1. rewrite benchmarkEditMessages_spec.
  change (edit_calls []) with (@nil Call).
  destruct (idle_phase adapters (LBenchmarking EditMessages) "editMessage" w2)
    as [G3 F3].
  set (w3 := after_phase _ _ "editMessage" _ _ w2) in *.
  unfold bind at 1. rewrite benchmarkDeleteMessages_spec.
  change (delete_calls []) with (@nil Call).
  destruct (idle_phase adapters (LBenchmarking DeleteMessages) "deleteMessage" w3)
    as [G4 F4].
  set (w4 := after_phase _ _ "deleteMessage" _ _ w3) in *.
  unfold bind at 1. rewrite benchmarkConcurrentReads_throws.
  eexists. split; [reflexivity|].
  assert (G : went w (seen w4 [Console (LBenchmarkingConcurrent 50);
                               Console (LTesting way1)])
                ([] ++ [SPhase AddMessages] ++ [SPhase ReadMessages]
                 ++ [SPhase EditMessages] ++ [SPhase DeleteMessages]
                 ++ [SPhase ConcurrentReads])
                ([] ++ [] ++ [] ++ [] ++ [] ++ [])).
  { apply (went_on w w0 _ _ _ _ _ (went_console w _)).
    apply (went_on w0 w1 _ _ _ _ _ G1).
    apply (went_on w1 w2 _ _ _ _ _ G2).
    apply (went_on w2 w3 _ _ _ _ _ G3).
    apply (went_on w3 w4 _ _ _ _ _ G4).
    eexists. split; [reflexivity|]. split; [reflexivity|].
    intros way. reflexivity. }
  destruct G as (new & Hnew & Hstages & Hissued).
  unfold observed. rewrite Hnew, drop_app_length.
  split; [exact Hstages|]. split; [exact Hissued|].
  cbn [results stores seen].
  split.
  { intros way op Hop.
    destruct (F1 way) as (B1 & _). destruct (F2 way) as (B2 & _).
    destruct (F3 way) as (B3 & _). destruct (F4 way) as (B4 & _).
    rewrite B4, B3, B2, B1. simpl in Hop.
    destruct Hop as [<- | [<- | [<- | [<- | []]]]];
      repeat first [rewrite lookup_insert_eq; reflexivity
                   | rewrite lookup_insert_ne by discriminate]. }
  split.
  { intros way.
    destruct (F1 way) as (B1 & _). destruct (F2 way) as (B2 & _).
    destruct (F3 way) as (B3 & _). destruct (F4 way) as (B4 & _).
    rewrite B4, B3, B2, B1. now rewrite !lookup_insert_ne by discriminate. }
  split; intros way;
    destruct (F1 way) as (_ & S1 & T1); destruct (F2 way) as (_ & S2 & T2);
    destruct (F3 way) as (_ & S3 & T3); destruct (F4 way) as (_ & S4 & T4);
    congruence.
Qed.

(** X22 at work: no chat at all. *)
Lemma without_chats_the_run_throws_witness :
  exists w',
    runFullBenchmark env_fifo sound 0 100 start
    = (Throw (TypeError "Cannot read properties of undefined (reading 'chatId')"), w')
    /\ forall way, issued way (observed start w') = [].
Proof.
  destruct (without_chats_the_run_throws env_fifo sound 0 100 start)
    as (w' & Hrun & _ & Hissued & _); [lia|].
  exists w'. auto.
Defined.

(** X23: when a variant cannot be opened, [initialize] rejects at the
    first such variant, and the command-line run neither throws nor
    benchmarks: it reports the failure and goes on to the cleanup.  The
    variants after the failing one are never asked to initialize, and
    all three are closed, opened or not. *)
Theorem run_after_a_rejected_initialize {St} (env : Env)
    (adapters : PerWay (Store.Adapter St)) (w : World St) (way : Way) :
  Store.initialize (get_way adapters way) (get_way (stores w) way) = None ->
  (forall way', (way_index way' < way_index way)%nat ->
     is_Some (Store.initialize (get_way adapters way') (get_way (stores w) way'))) ->
  exists w',
    run env adapters w = (Ok tt, w')
    /\ fst (initialize adapters w) = Throw (InitializeRejected way)
    /\ stages (observed w w') = [SInitialize; SCleanup]
    /\ In (Console (LFailed (InitializeRejected way))) (observed w w')
    /\ ~ In (Console LInitialized) (observed w w')
    /\ (forall way',
          issued way' (observed w w')
          = if decide (way_index way' <= way_index way)%nat
            then [CInitialize; CClose] else [CClose])
    /\ results w' = results w.
Proof.
  intros Hnone Hsome.
  destruct (run_rejected env adapters w way Hnone Hsome) as (w' & Hrun & Hobs & Hres).
  destruct (initialize_rejected adapters w way Hnone Hsome) as (w1 & Hinit & _).
  exists w'. split; [exact Hrun|]. split; [now rewrite Hinit|].
  rewrite Hobs.
  destruct way; cbn [way_index take ways map app];
    (split; [reflexivity|]);
    (split; [simpl; tauto|]);
    (split; [simpl; intuition discriminate|]);
    (split; [intros way'; destruct way'; reflexivity | exact Hres]).
Qed.

(** X23 at work: the second sample variant cannot be opened; the third
    is closed without having been opened. *)
Lemma run_after_a_rejected_initialize_witness :
  exists w',
    run env_fifo second_unavailable start = (Ok tt, w')
    /\ stages (observed start w') = [SInitialize; SCleanup]
    /\ issued way1 (observed start w') = [CInitialize; CClose]
    /\ issued way2 (observed start w') = [CInitialize; CClose]
    /\ issued way3 (observed start w') = [CClose].
Proof.
  destruct (run_after_a_rejected_initialize env_fifo second_unavailable start way2)
    as (w' & Hrun & _ & Hstages & _ & _ & Hissued & _).
  - reflexivity.
  - intros way' Hw. destruct way'; simpl in Hw; [|lia|lia]. vm_compute. eauto.
  - exists w'. split; [exact Hrun|]. split; [exact Hstages|].
    rewrite (Hissued way1), (Hissued way2), (Hissued way3). repeat split.
Defined.

(** X24: whatever the adapters do, the command-line run returns, and it
    ends with the cleanup: the cleanup is its last stage and happens
    once, and every variant is closed exactly once, by the last call it
    receives. *)
Theorem run_always_cleans_up {St} (env : Env) (adapters : PerWay (Store.Adapter St))
    (w : World St) :
  exists w',
    run env adapters w = (Ok tt, w')
    /\ (exists before,
          stages (observed w w') = before ++ [SCleanup] /\ ~ In SCleanup before)
    /\ forall way, exists calls,
         issued way (observed w w') = calls ++ [CClose] /\ ~ In CClose calls.
Proof.
  destruct (initialize_cases adapters w) as [Hall | (bad & Hnone & Hsome)].
  - destruct (run_opened env adapters w Hall)
      as (td & w' & Hrun & _ & _ & Hstages & Hissued).
    exists w'. split; [exact Hrun|]. split.
    + rewrite Hstages.
      exists [SInitialize; SPhase AddMessages; SPhase ReadMessages; SPhase EditMessages;
              SPhase DeleteMessages; SPhase ConcurrentReads; SStats; SReport].
      split; [reflexivity|]. simpl. intuition discriminate.
    + intros way. rewrite Hissued. unfold calls_of_run.
      exists ([CInitialize] ++ add_calls td ++ read_calls td ++ edit_calls td
              ++ delete_calls td ++ concurrent_calls td 50 ++ [CGetStats]).
      split; [now rewrite <- !app_assoc|].
      rewrite !in_app_iff.
      pose proof (no_close_among_calls 50 AddMessages td) as N1.
      pose proof (no_close_among_calls 50 ReadMessages td) as N2.
      pose proof (no_close_among_calls 50 EditMessages td) as N3.
      pose proof (no_close_among_calls 50 DeleteMessages td) as N4.
      pose proof (no_close_among_calls 50 ConcurrentReads td) as N5.
      cbn [calls_of] in *. simpl. intuition discriminate.
  - destruct (run_rejected env adapters w bad Hnone Hsome) as (w' & Hrun & Hobs & _).
    exists w'. split; [exact Hrun|]. rewrite Hobs.
    destruct bad; cbn [way_index take ways map app].
    + split; [exists [SInitialize]; split; [reflexivity | simpl; intuition discriminate]|].
      intros way; destruct way;
        [exists [CInitialize] | exists [] | exists []];
        (split; [reflexivity | simpl; intuition discriminate]).
    + split; [exists [SInitialize]; split; [reflexivity | simpl; intuition discriminate]|].
      intros way; destruct way;
        [exists [CInitialize] | exists [CInitialize] | exists []];
        (split; [reflexivity | simpl; intuition discriminate]).
    + split; [exists [SInitialize]; split; [reflexivity | simpl; intuition discriminate]|].
      intros way; destruct way;
        [exists [CInitialize] | exists [CInitialize] | exists [CInitialize]];
        (split; [reflexivity | simpl; intuition discriminate]).
Qed.

(** X25: [getStorageStats] asks every variant once for its statistics
    and records the answer under [stats], in place of what was recorded
    there; it touches no bundle and prints what it recorded. *)
Theorem storage_statistics_are_recorded {St} (adapters : PerWay (Store.Adapter St))
    (w : World St) (way : Way) :
  let out := Store.getStats (get_way adapters way) (get_way (stores w) way) in
  exists w',
    getStorageStats adapters w = (Ok tt, w')
    /\ issued way (observed w w') = [CGetStats]
    /\ stats (get_way (results w') way) = Some (snd out)
    /\ bundles (get_way (results w') way) = bundles (get_way (results w) way)
    /\ get_way (stores w') way = fst out
    /\ In (Console (LStoreStats way (snd out))) (observed w w').
Proof.
  cbv zeta.
  destruct (getStorageStats_effect adapters w) as (w' & Hrun & Hwent & Heach).
  destruct Hwent as (new & Hnew & _ & Hissued).
  destruct (Heach way) as (H1 & H2 & H3 & H4).
  exists w'. split; [exact Hrun|]. split.
  - unfold observed. now rewrite Hnew, drop_app_length.
  - auto.
Qed.

(** X26: the full benchmark over at least one chat returns the results
    object of the harness, in which every variant has a bundle for each
    of the five operations and its storage statistics; the analysis of
    these results succeeds, and its recommendations are the last lines
    printed. *)
Theorem full_run_fills_the_results {St} (env : Env)
    (adapters : PerWay (Store.Adapter St)) (numChats messagesPerChat : Z)
    (w : World St) :
  1 <= numChats ->
  exists res w' recs before,
    runFullBenchmark env adapters numChats messagesPerChat w = (Ok res, w')
    /\ res = results w'
    /\ (forall way op, In op operations ->
          is_Some (bundles (get_way res way) !! op))
    /\ (forall way, is_Some (stats (get_way res way)))
    /\ analyzeResults res = Ok recs
    /\ observed w w' = before ++ map Console (recommendation_lines recs).
Proof.
  intros Hn.
  destruct (runFullBenchmark_results env adapters numChats messagesPerChat w Hn)
    as (w' & recs & before & Hrun & Hb & Hs & Hrecs & Hobs).
  exists (results w'), w', recs, before. auto 10.
Qed.

(** X26 at work: one chat of one message. *)
Lemma full_run_fills_the_results_witness :
  exists res w',
    runFullBenchmark env_fifo sound 1 1 start = (Ok res, w')
    /\ (forall way op, In op operations ->
          is_Some (bundles (get_way res way) !! op))
    /\ (forall way, is_Some (stats (get_way res way))).
Proof.
  destruct (full_run_fills_the_results env_fifo sound 1 1 start)
    as (res & w' & recs & before & Hrun & _ & Hb & Hs & _); [lia|].
  exists res, w'. auto.
Defined.

(** X27: neither a phase (the concurrent one: given at least one chat)
    nor the command-line run ever sends a bulk add or an existence check
    to a variant. *)
Theorem harness_never_sends_bulk_or_exists {St} (env : Env)
    (adapters : PerWay (Store.Adapter St)) (w : World St) :
  (exists w',
     run env adapters w = (Ok tt, w')
     /\ forall way, existsb bulk_or_exists (issued way (observed w w')) = false)
  /\ forall n ph testData,
     (ph = ConcurrentReads -> testData <> []) ->
     exists w',
       benchmark env adapters n ph testData w = (Ok tt, w')
       /\ forall way, existsb bulk_or_exists (issued way (observed w w')) = false.
Proof.
  split.
  - destruct (initialize_cases adapters w) as [Hall | (bad & Hnone & Hsome)].
    + destruct (run_opened env adapters w Hall)
        as (td & w' & Hrun & _ & _ & _ & Hissued).
      exists w'. split; [exact Hrun|]. intros way. rewrite Hissued.
      pose proof (no_bulk_among_calls 50 AddMessages td) as N1.
      pose proof (no_bulk_among_calls 50 ReadMessages td) as N2.
      pose proof (no_bulk_among_calls 50 EditMessages td) as N3.
      pose proof (no_bulk_among_calls 50 DeleteMessages td) as N4.
      pose proof (no_bulk_among_calls 50 ConcurrentReads td) as N5.
      cbn [calls_of] in N1, N2, N3, N4, N5.
      unfold calls_of_run. rewrite !existsb_app, N1, N2, N3, N4, N5.
      reflexivity.
    + destruct (run_rejected env adapters w bad Hnone Hsome) as (w' & Hrun & Hobs & _).
      exists w'. split; [exact Hrun|]. rewrite Hobs.
      intros way. destruct bad, way; reflexivity.
  - intros n ph testData Hne.
    pose proof (benchmark_after env adapters n ph testData w Hne) as Hrun.
    eexists. split; [exact Hrun|]. intros way.
    destruct (after_phase_reading adapters (header_of n ph) (operation_of ph)
                (fun _ => calls_of n ph testData) (served env n ph testData)
                (exchange env n ph testData) w way) as (Hissued & _).
    { intros way' rs Hlen. now apply exchange_read. }
    rewrite Hissued. apply no_bulk_among_calls.
Qed.

(** X28: when the three variants can be opened, the command-line run
    sends every variant 1213 calls: [initialize], 1000 adds, 10 reads,
    100 edits, 50 deletes, 50 concurrent reads, [getStats] and
    [close]. *)
Theorem run_sends_each_variant_1213_calls {St} (env : Env)
    (adapters : PerWay (Store.Adapter St)) (w : World St) :
  (forall way, is_Some (Store.initialize (get_way adapters way)
                                        (get_way (stores w) way))) ->
  exists w',
    run env adapters w = (Ok tt, w')
    /\ forall way,
       length (issued way (observed w w')) = 1213%nat
       /\ exists adds reads edits deletes concurrent,
            issued way (observed w w')
            = [CInitialize] ++ adds ++ reads ++ edits ++ deletes ++ concurrent
              ++ [CGetStats; CClose]
            /\ length adds = 1000%nat /\ length reads = 10%nat
            /\ length edits = 100%nat /\ length deletes = 50%nat
            /\ length concurrent = 50%nat.
Proof.
  intros Hinit.
  destruct (run_opened env adapters w Hinit)
    as (td & w' & Hrun & Hlen & Hshape & _ & Hissued).
  assert (Hne : td <> []) by (intros ->; discriminate Hlen).
  pose proof (calls_of_length 50 AddMessages td 100 Hne Hshape) as L1.
  pose proof (calls_of_length 50 ReadMessages td 100 Hne Hshape) as L2.
  pose proof (calls_of_length 50 EditMessages td 100 Hne Hshape) as L3.
  pose proof (calls_of_length 50 DeleteMessages td 100 Hne Hshape) as L4.
  pose proof (calls_of_length 50 ConcurrentReads td 100 Hne Hshape) as L5.
  rewrite Hlen in L1, L2, L3, L4, L5. cbn [calls_of calls_in] in L1, L2, L3, L4, L5.
  exists w'. split; [exact Hrun|]. intros way. rewrite Hissued. split.
  - unfold calls_of_run. rewrite !length_app, L1, L2, L3, L4, L5. reflexivity.
  - exists (add_calls td), (read_calls td), (edit_calls td), (delete_calls td),
           (concurrent_calls td 50).
    split; [reflexivity|]. now rewrite L1, L2, L3, L4, L5.
Qed.

(** X28 at work on the sample adapters. *)
Lemma run_sends_each_variant_1213_calls_witness :
  exists w',
    run env_fifo sound start = (Ok tt, w')
    /\ forall way, length (issued way (observed start w')) = 1213%nat.
Proof.
  destruct (run_sends_each_variant_1213_calls env_fifo sound start) as (w' & Hrun & H).
  { intros way. destruct way; vm_compute; eauto. }
  exists w'. split; [exact Hrun|]. intros way. apply H.
Defined.

End RunLaws.
